(** * go-cmap: a sharded concurrent map, embedded and verified

    The development follows the four source files of package [cmap]:
    pairs (singly linked key/element nodes), buckets (one chain of pairs
    with a size counter), segments (an array of buckets behind one mutex)
    and the map facade (a fixed array of segments).

    Pairs live in a heap indexed by addresses, because the code links,
    copies and overwrites them in place.  Buckets, segments and the map are
    records threaded through the operations; every operation is a state
    transformer whose result says whether the call returned, panicked,
    parked forever on a mutex, or ran out of fuel while walking a chain. *)

From Stdlib Require Import ZArith Lia.
From stdpp Require Import base list strings gmap pretty.

Local Open Scope Z_scope.

(** ** Machine integers *)

Definition wrap64 (z : Z) : Z := z mod 2 ^ 64.
Definition wrap32 (z : Z) : Z := z mod 2 ^ 32.

(** [math.MaxUint32] and [^uint64(0)]. *)
Definition MaxUint32 : Z := 4294967295.
Definition MaxUint64 : Z := 18446744073709551615.

(** [atomic.AddUint64(&x, d)]: the new value of [x]. *)
Definition AddUint64 (x d : Z) : Z := wrap64 (x + d).

(** [int(u)] for a [uint64] value [u]: reinterpretation as a signed word. *)
Definition int_of_uint64 (u : Z) : Z :=
  if u <? 2 ^ 63 then u else u - 2 ^ 64.

(** ** Errors and panics *)

Inductive error : Type :=
| IllegalParameterError (msg : string)
| IllegalPairTypeError (msg : string)
| PairRedistributorError (msg : string).

Definition newIllegalParameterError (errMsg : string) : error :=
  IllegalParameterError ("concurrent map: illegal parameter: " +:+ errMsg).

Definition newPairRedistributorError (errMsg : string) : error :=
  PairRedistributorError
    ("concurrent map: failing pair redistribution: " +:+ errMsg).

(** The value handed to [panic]: either an [error] (run-time errors are of
    that kind) with its [Error()] text, or any other value with the text
    [fmt.Sprintf("%s", p)] prints for it. *)
Inductive panic_value : Type :=
| PanicError (msg : string)
| PanicOther (repr : string).

Definition nil_dereference : panic_value :=
  PanicError "runtime error: invalid memory address or nil pointer dereference".
Definition divide_by_zero : panic_value :=
  PanicError "runtime error: integer divide by zero".
(** The bounds error of [a[i]] on a slice of length [n]; a negative index
    is reported without the length. *)
Definition index_out_of_range (i n : Z) : panic_value :=
  PanicError
    ("runtime error: index out of range [" +:+ pretty i +:+ "]" +:+
     (if i <? 0 then EmptyString else " with length " +:+ pretty n)).
Definition makeslice_out_of_range : panic_value :=
  PanicError "runtime error: makeslice: len out of range".

(** ** Outcomes of a call

    [Done a s]: the call returned [a] in state [s].  [Panics v s]: it
    panicked with [v] and the panic left the call.  [Blocks s]: the calling
    goroutine is parked on a mutex; [s] is the state it leaves behind.
    [Diverges s]: a chain walk used up its fuel. *)

Inductive outcome (S A : Type) : Type :=
| Done (a : A) (s : S)
| Panics (v : panic_value) (s : S)
| Blocks (s : S)
| Diverges (s : S).

Arguments Done {S A} a s.
Arguments Panics {S A} v s.
Arguments Blocks {S A} s.
Arguments Diverges {S A} s.

Definition M (S A : Type) : Type := S -> outcome S A.

Definition ret {S A} (a : A) : M S A := fun s => Done a s.

Definition bind {S A B} (m : M S A) (k : A -> M S B) : M S B :=
  fun s =>
    match m s with
    | Done a s' => k a s'
    | Panics v s' => Panics v s'
    | Blocks s' => Blocks s'
    | Diverges s' => Diverges s'
    end.

Definition panic {S A} (v : panic_value) : M S A := fun s => Panics v s.
Definition gets {S A} (f : S -> A) : M S A := fun s => Done (f s) s.
Definition modify {S} (f : S -> S) : M S unit := fun s => Done tt (f s).

Notation "x <- m ;; k" := (bind m (fun x => k))
  (at level 100, m at next level, right associativity).
Notation "m ;;; k" := (bind m (fun _ => k))
  (at level 100, right associativity).

(** Run a computation on a component [S] of a larger state [T]. *)
Definition zoom {S T A} (get : T -> S) (set : S -> T -> T) (m : M S A) : M T A :=
  fun t =>
    match m (get t) with
    | Done a s => Done a (set s t)
    | Panics v s => Panics v (set s t)
    | Blocks s => Blocks (set s t)
    | Diverges s => Diverges (set s t)
    end.

(** The state an outcome leaves behind, and what it returned, if it did. *)
Definition final_state {S A} (o : outcome S A) : S :=
  match o with
  | Done _ s | Panics _ s | Blocks s | Diverges s => s
  end.

Definition returned {S A} (o : outcome S A) : option A :=
  match o with
  | Done a _ => Some a
  | _ => None
  end.


(** ** What the package takes from outside these files

    The string hash, the constants and the redistributor interface are
    declared in files that are not part of this development; they are taken
    as parameters.  [Env] stands for the mutable state behind redistributor
    objects, which one redistributor may share between segments. *)

Class Externals : Type := {
  (** values an [interface{}] can hold, [nil] apart *)
  Elem : Type;
  (** [hash(key)], a [uint64] *)
  hash : string -> Z;
  MAX_CONCURRENCY : Z;
  DEFAULT_BUCKET_NUMBER : Z;
  float64 : Type;
  DEFAULT_BUCKET_LOAD_FACTOR : float64;
  (** non-nil values of the interface [PairRedistributor] *)
  PairRedistributor : Type;
  BucketStatus : Type;
  Env : Type;
}.

(** Addresses of pairs in the heap. *)
Abbreviation addr := nat (only parsing).

Section Pairs.
Context {Ext : Externals}.

(** ** Pairs (part_000)

    [element] is [None] for a nil pointer; [next] is [None] at the end of a
    chain. *)
Record pair : Type := mkPair {
  key : string;
  khash : Z;
  element : option Elem;
  next : option addr;
}.

Abbreviation heap := (list pair) (only parsing).

Definition set_element (e : option Elem) (p : pair) : pair :=
  {| key := key p; khash := khash p; element := e; next := next p |}.

Definition set_next (n : option addr) (p : pair) : pair :=
  {| key := key p; khash := khash p; element := element p; next := n |}.

(** Reading a field through a pointer: a pointer outside the heap faults. *)
Definition deref {A} (a : addr) (f : pair -> A) : M heap A :=
  fun h =>
    match h !! a with
    | Some p => Done (f p) h
    | None => Panics nil_dereference h
    end.

(** Method call on an interface value that may be nil. *)
Definition receiver (p : option addr) : M heap addr :=
  match p with
  | Some a => ret a
  | None => panic nil_dereference
  end.

Definition Key (a : addr) : M heap string := deref a key.
Definition Hash (a : addr) : M heap Z := deref a khash.
Definition Element (a : addr) : M heap (option Elem) := deref a element.
Definition Next (a : addr) : M heap (option addr) := deref a next.

(** [SetElement]: a nil element is refused and nothing is stored. *)
Definition SetElement (a : addr) (e : option Elem) : M heap (option error) :=
  match e with
  | None => ret (Some (newIllegalParameterError "element is nil"))
  | Some _ =>
      _ <- deref a key;;
      modify (alter (set_element e) a);;;
      ret None
  end.

(** [SetNext]: every pair of this model is a [*pair], so the type
    assertion of the source succeeds. *)
Definition SetNext (a : addr) (nextPair : option addr) : M heap (option error) :=
  _ <- deref a key;;
  modify (alter (set_next nextPair) a);;;
  ret None.

(** [&pair{...}]: a fresh cell at the end of the heap. *)
Definition alloc (p : pair) : M heap addr :=
  fun h => Done (length h) (h ++ [p]).

(** [newPair]: the struct is allocated before the element is tested. *)
Definition newPair (k : string) (e : option Elem) : M heap (option addr * option error) :=
  p <- alloc {| key := k; khash := hash k; element := None; next := None |};;
  match e with
  | None => ret (None, Some (newIllegalParameterError "element is nil"))
  | Some _ =>
      modify (alter (set_element e) p);;;
      ret (Some p, None)
  end.

(** [Copy]: the error of [newPair] is dropped, so the copy of a pair
    without element is the nil interface. *)
Definition Copy (a : addr) : M heap (option addr) :=
  k <- Key a;;
  e <- Element a;;
  r <- newPair k e;;
  ret (fst r).

End Pairs.

Abbreviation heap := (list pair) (only parsing).

Section Buckets.
Context {Ext : Externals}.

(** ** Buckets (bucket.go)

    [firstValue] is an [atomic.Value]: nothing stored yet, the shared
    [placeholder] pair, or the head of the chain. *)
Inductive first_value : Type :=
| NotStored
| Placeholder
| First (p : addr).

Record bucket : Type := mkBucket {
  firstValue : first_value;
  bsize : Z;
}.

Definition bstate : Type := bucket * heap.

Definition on_heap {A} (m : M heap A) : M bstate A :=
  zoom snd (fun h (s : bstate) => (fst s, h)) m.

Definition Store (v : first_value) : M bstate unit :=
  modify (fun s : bstate => ({| firstValue := v; bsize := bsize (fst s) |}, snd s)).

Definition AddSize (d : Z) : M bstate unit :=
  modify (fun s : bstate =>
            ({| firstValue := firstValue (fst s); bsize := AddUint64 (bsize (fst s)) d |}, snd s)).

Definition StoreSize (n : Z) : M bstate unit :=
  modify (fun s : bstate => ({| firstValue := firstValue (fst s); bsize := n |}, snd s)).

Definition GetFirstPair (b : bucket) : option addr :=
  match firstValue b with
  | NotStored => None
  | Placeholder => None
  | First p => Some p
  end.

(** [if lock != nil { lock.Lock(); defer lock.Unlock() }]: a locker that is
    held parks the caller; a free one is taken and given back on the way
    out, so its state is the same before and after the call. *)
Definition with_lock {S A} (lock : option bool) (m : M S A) : M S A :=
  match lock with
  | Some true => fun s => Blocks s
  | _ => m
  end.

(** [for v := firstPair; v != nil; v = v.Next() { if v.Key() == key ... }]
    as in [Put] and [Get]: the first pair of the chain with that key. *)
Fixpoint find_pair (fuel : nat) (v : option addr) (k : string) : M heap (option addr) :=
  match v with
  | None => ret None
  | Some a =>
      match fuel with
      | O => fun h => Diverges h
      | S fuel' =>
          k' <- Key a;;
          if String.eqb k' k then ret (Some a)
          else (n <- Next a;; find_pair fuel' n k)
      end
  end.

Definition bucket_Put (fuel : nat) (p : option addr) (lock : option bool)
  : M bstate (bool * option error) :=
  match p with
  | None => ret (false, Some (newIllegalParameterError "pair is nil"))
  | Some p =>
      with_lock lock
        (b <- gets fst;;
         match GetFirstPair b with
         | None =>
             Store (First p);;;
             AddSize 1;;;
             ret (true, None)
         | Some firstPair =>
             k <- on_heap (Key p);;
             target <- on_heap (find_pair fuel (Some firstPair) k);;
             match target with
             | Some t =>
                 e <- on_heap (Element p);;
                 _ <- on_heap (SetElement t e);;
                 ret (false, None)
             | None =>
                 _ <- on_heap (SetNext p (Some firstPair));;
                 Store (First p);;;
                 AddSize 1;;;
                 ret (true, None)
             end
         end)
  end.

(** The scan of [Delete]: the pairs before the target, in order, the
    target and the pair after it ([breakpoint]). *)
Fixpoint scan_target (fuel : nat) (v : option addr) (k : string) (prevPairs : list addr)
  : M heap (list addr * option (addr * option addr)) :=
  match v with
  | None => ret (prevPairs, None)
  | Some a =>
      match fuel with
      | O => fun h => Diverges h
      | S fuel' =>
          k' <- Key a;;
          if String.eqb k' k then
            (n <- Next a;; ret (prevPairs, Some (a, n)))
          else
            (n <- Next a;; scan_target fuel' n k (prevPairs ++ [a]))
      end
  end.

(** [for i := len(prevPairs) - 1; i >= 0; i--]: the argument is
    [prevPairs] read from its last entry to its first. *)
Fixpoint rebuild (revPrev : list addr) (newFirstPair : option addr) : M heap (option addr) :=
  match revPrev with
  | [] => ret newFirstPair
  | a :: rest =>
      pairCopy <- Copy a;;
      c <- receiver pairCopy;;
      _ <- SetNext c newFirstPair;;
      rebuild rest (Some c)
  end.

Definition bucket_Delete (fuel : nat) (k : string) (lock : option bool) : M bstate bool :=
  with_lock lock
    (b <- gets fst;;
     match GetFirstPair b with
     | None => ret false
     | Some firstPair =>
         r <- on_heap (scan_target fuel (Some firstPair) k []);;
         match snd r with
         | None => ret false
         | Some (_, breakpoint) =>
             newFirstPair <- on_heap (rebuild (rev (fst r)) breakpoint);;
             match newFirstPair with
             | Some a => Store (First a)
             | None => Store Placeholder
             end;;;
             AddSize MaxUint64;;;
             ret true
         end
     end).

Definition bucket_Get (fuel : nat) (k : string) : M bstate (option addr) :=
  b <- gets fst;;
  match GetFirstPair b with
  | None => ret None
  | Some firstPair => on_heap (find_pair fuel (Some firstPair) k)
  end.

Definition bucket_Clear (lock : option bool) : M bstate unit :=
  with_lock lock (StoreSize 0;;; Store Placeholder).

Definition bucket_Size : M bstate Z := gets (fun s : bstate => bsize (fst s)).

Definition newBucket : bucket := {| firstValue := Placeholder; bsize := 0 |}.

End Buckets.

Section Segments.
Context {Ext : Externals}.

(** ** The world outside the map records: the pair heap and the state of
    the redistributor objects. *)
Record world : Type := mkWorld {
  pairs : heap;
  env : Env;
}.

(** A callee that holds a slice can write its slots and the buckets in
    them, but cannot change the length of a slice that another holds. *)
Definition in_place {A} (m : M (list bucket * world) A) : Prop :=
  forall bw, length (fst (final_state (m bw))) = length (fst bw).

(** The interface [PairRedistributor] and the constructor of the default
    redistributor.  Their bodies are not in these files, so a segment is
    verified against every implementation.  An implementation may read and
    relink pairs, keep state of its own and panic.  [Redistribe] is handed
    the slice [s.buckets] itself, and a redistributor may keep the slices
    it has been handed or has answered: so its methods run on the buckets
    of the segment next to the world, and whatever one of them writes there
    (a slot of the slice, or a bucket through [Put], [Delete] and [Clear])
    is written in the segment, also when it panics afterwards.
    [Redistribe] answers with a slice of its choice and the flag
    [changed]. *)
Class RedistributorOps : Type := {
  UpdateThreshold : PairRedistributor -> Z -> Z -> M (list bucket * world) unit;
  CheckBucketStatus : PairRedistributor -> Z -> Z -> M (list bucket * world) BucketStatus;
  Redistribe :
    PairRedistributor -> BucketStatus -> M (list bucket * world) (list bucket * bool);
  newDefaultPairRedistributor : float64 -> Z -> M world PairRedistributor;
  UpdateThreshold_in_place :
    forall pr pairTotal' bucketNumber, in_place (UpdateThreshold pr pairTotal' bucketNumber);
  CheckBucketStatus_in_place :
    forall pr pairTotal' bucketSize, in_place (CheckBucketStatus pr pairTotal' bucketSize);
  Redistribe_in_place :
    forall pr bucketStatus, in_place (Redistribe pr bucketStatus);
}.

Context {Ops : RedistributorOps}.

(** ** Segments (part_001) *)
Record segment : Type := mkSegment {
  buckets : list bucket;
  bucketsLen : Z;
  pairTotal : Z;
  pairRedistributor : PairRedistributor;
  lock : bool;
}.

Definition sstate : Type := segment * world.

Definition set_lock (l : bool) (s : segment) : segment :=
  {| buckets := buckets s; bucketsLen := bucketsLen s; pairTotal := pairTotal s;
     pairRedistributor := pairRedistributor s; lock := l |}.

Definition set_pairTotal (n : Z) (s : segment) : segment :=
  {| buckets := buckets s; bucketsLen := bucketsLen s; pairTotal := n;
     pairRedistributor := pairRedistributor s; lock := lock s |}.

Definition set_buckets (bs : list bucket) (n : Z) (s : segment) : segment :=
  {| buckets := bs; bucketsLen := n; pairTotal := pairTotal s;
     pairRedistributor := pairRedistributor s; lock := lock s |}.

Definition set_bucket (i : nat) (b : bucket) (s : segment) : segment :=
  {| buckets := <[i := b]> (buckets s); bucketsLen := bucketsLen s;
     pairTotal := pairTotal s; pairRedistributor := pairRedistributor s;
     lock := lock s |}.

(** Is the mutex of the segment held? *)
Definition lock_of (st : sstate) : bool := lock (fst st).

Definition on_world {A} (m : M world A) : M sstate A :=
  zoom snd (fun w (s : sstate) => (fst s, w)) m.

Definition on_pairs {A} (m : M heap A) : M sstate A :=
  on_world (zoom pairs (fun h w => {| pairs := h; env := env w |}) m).

(** [s.lock.Lock()] on a [sync.Mutex]: a held mutex parks the caller, and
    in this package nobody but the holder ever releases it. *)
Definition Lock : M sstate unit :=
  fun s => if lock (fst s) then Blocks s else Done tt (set_lock true (fst s), snd s).

Definition Unlock : M sstate unit :=
  fun s =>
    if lock (fst s) then Done tt (set_lock false (fst s), snd s)
    else Panics (PanicOther "fatal error: sync: unlock of unlocked mutex") s.

(** [recover()] in a deferred function: a panic of the body becomes a
    result of the call. *)
Definition recover {S A} (m : M S A) (handler : panic_value -> A) : M S A :=
  fun s =>
    match m s with
    | Panics v s' => Done (handler v) s'
    | o => o
    end.

Definition panic_text (v : panic_value) : string :=
  match v with
  | PanicError msg => msg
  | PanicOther repr => repr
  end.

(** A method of the redistributor runs on the buckets of the segment and
    the world; the other fields of the segment are out of its reach. *)
Definition on_array {A} (m : M (list bucket * world) A) : M sstate A :=
  zoom (fun st : sstate => (buckets (fst st), snd st))
       (fun (bw : list bucket * world) (st : sstate) =>
          (set_buckets (fst bw) (bucketsLen (fst st)) (fst st), snd bw))
       m.

(** Lines 54 to 62 of [redistribute]: the three calls of the
    redistributor and the swap of the array. *)
Definition redistribute_body (pairTotal' bucketSize : Z) : M sstate (option error) :=
  s <- gets fst;;
  _ <- on_array (UpdateThreshold (pairRedistributor s) pairTotal' (bucketsLen s));;
  bucketStatus <- on_array (CheckBucketStatus (pairRedistributor s) pairTotal' bucketSize);;
  r <- on_array (Redistribe (pairRedistributor s) bucketStatus);;
  (if snd r then
     modify (fun st : sstate =>
               (set_buckets (fst r) (Z.of_nat (length (fst r))) (fst st), snd st))
   else ret tt);;;
  ret None.

(** [redistribute]: the body under the deferred [recover]. *)
Definition redistribute (pairTotal' bucketSize : Z) : M sstate (option error) :=
  recover (redistribute_body pairTotal' bucketSize)
          (fun v => Some (newPairRedistributorError (panic_text v))).

(** [s.buckets[int(keyHash % uint64(s.bucketsLen))]]: the index, or the
    run-time panic of the division or of the bounds check. *)
Definition bucket_index (keyHash : Z) : M sstate nat :=
  s <- gets fst;;
  let n := wrap64 (bucketsLen s) in
  if n =? 0 then panic divide_by_zero
  else
    let i := int_of_uint64 (keyHash mod n) in
    if (i <? 0) || (Z.of_nat (length (buckets s)) <=? i)
    then panic (index_out_of_range i (Z.of_nat (length (buckets s))))
    else ret (Z.to_nat i).

(** Run a bucket method on the bucket at index [i], which
    [bucket_index] has checked. *)
Definition on_bucket {A} (i : nat) (m : M bstate A) : M sstate A :=
  zoom (fun st : sstate => (default newBucket (buckets (fst st) !! i), pairs (snd st)))
       (fun (bh : bstate) (st : sstate) =>
          (set_bucket i (fst bh) (fst st), {| pairs := snd bh; env := env (snd st) |}))
       m.

Definition AddPairTotal (d : Z) : M sstate Z :=
  fun st =>
    let n := AddUint64 (pairTotal (fst st)) d in
    Done n (set_pairTotal n (fst st), snd st).

(** Lines 66 to 72 of [Put]: everything up to the last lock operation. *)
Definition segment_Put_body (fuel : nat) (p : option addr) : M sstate (bool * option error) :=
  Lock;;;
  a <- on_pairs (receiver p);;
  keyHash <- on_pairs (Hash a);;
  i <- bucket_index keyHash;;
  r <- on_bucket i (bucket_Put fuel p None);;
  (if fst r then
     newTotal <- AddPairTotal 1;;
     sz <- on_bucket i bucket_Size;;
     _ <- redistribute newTotal sz;;
     ret tt
   else ret tt);;;
  ret r.

(** [Put]: line 73 is a second [s.lock.Lock()]. *)
Definition segment_Put (fuel : nat) (p : option addr) : M sstate (bool * option error) :=
  r <- segment_Put_body fuel p;;
  Lock;;;
  ret r.

Definition segment_GetWithHash (fuel : nat) (k : string) (keyHash : Z) : M sstate (option addr) :=
  Lock;;;
  i <- bucket_index keyHash;;
  Unlock;;;
  on_bucket i (bucket_Get fuel k).

Definition segment_Get (fuel : nat) (k : string) : M sstate (option addr) :=
  segment_GetWithHash fuel k (hash k).

Definition segment_Delete (fuel : nat) (k : string) : M sstate bool :=
  Lock;;;
  i <- bucket_index (hash k);;
  ok <- on_bucket i (bucket_Delete fuel k None);;
  (if ok then
     newTotal <- AddPairTotal MaxUint64;;
     sz <- on_bucket i bucket_Size;;
     _ <- redistribute newTotal sz;;
     ret tt
   else ret tt);;;
  Unlock;;;
  ret ok.

Definition segment_Size : M sstate Z := gets (fun st : sstate => pairTotal (fst st)).

(** [newSegment]: [make] panics on a negative length. *)
Definition newSegment (bucketNumber : Z) (pr : option PairRedistributor) : M world segment :=
  let bucketNumber := if bucketNumber <? 0 then DEFAULT_BUCKET_NUMBER else bucketNumber in
  pr' <- match pr with
         | None => newDefaultPairRedistributor DEFAULT_BUCKET_LOAD_FACTOR bucketNumber
         | Some r => ret r
         end;;
  if bucketNumber <? 0 then panic makeslice_out_of_range
  else
    ret {| buckets := replicate (Z.to_nat bucketNumber) newBucket;
           bucketsLen := bucketNumber;
           pairTotal := 0;
           pairRedistributor := pr';
           lock := false |}.

(** ** The map (cmap.go) *)
Record cmap : Type := mkCmap {
  concurrency : Z;
  segments : list segment;
  total : Z;
}.

Definition cstate : Type := cmap * world.

Definition Concurrency : M cstate Z := gets (fun st : cstate => concurrency (fst st)).

(** The index computed by [findSegment]; [%] truncates towards zero. *)
Definition findSegment_index (c keyHash : Z) : Z :=
  if c =? 1 then 0
  else
    let keyHash32 :=
      if keyHash >? MaxUint32 then wrap32 (Z.shiftr keyHash 32) else wrap32 keyHash in
    Z.rem (Z.shiftr keyHash32 16) (c - 1).

(** [c.segments[...]]: the checked index of the segment. *)
Definition findSegment (keyHash : Z) : M cstate nat :=
  m <- gets fst;;
  let i := findSegment_index (concurrency m) keyHash in
  if (i <? 0) || (Z.of_nat (length (segments m)) <=? i)
  then panic (index_out_of_range i (Z.of_nat (length (segments m))))
  else ret (Z.to_nat i).

Definition set_segment (i : nat) (s : segment) (m : cmap) : cmap :=
  {| concurrency := concurrency m; segments := <[i := s]> (segments m); total := total m |}.

Definition set_total (n : Z) (m : cmap) : cmap :=
  {| concurrency := concurrency m; segments := segments m; total := n |}.

(** Run a segment method on the segment [findSegment] returned. *)
Definition on_segment {A} (i : nat) (m : M sstate A) : M cstate A :=
  fun st =>
    match segments (fst st) !! i with
    | None =>
        Panics (index_out_of_range (Z.of_nat i) (Z.of_nat (length (segments (fst st))))) st
    | Some s =>
        zoom (fun st : cstate => (s, snd st))
             (fun (sw : sstate) (st : cstate) => (set_segment i (fst sw) (fst st), snd sw))
             m st
    end.

Definition on_cpairs {A} (m : M heap A) : M cstate A :=
  zoom (fun st : cstate => pairs (snd st))
       (fun h (st : cstate) => (fst st, {| pairs := h; env := env (snd st) |}))
       m.

Definition AddTotal (d : Z) : M cstate unit :=
  modify (fun st : cstate => (set_total (AddUint64 (total (fst st)) d) (fst st), snd st)).

Definition cmap_Put (fuel : nat) (k : string) (e : option Elem) : M cstate (bool * option error) :=
  r <- on_cpairs (newPair k e);;
  match snd r with
  | Some err => ret (false, Some err)
  | None =>
      a <- on_cpairs (receiver (fst r));;
      keyHash <- on_cpairs (Hash a);;
      i <- findSegment keyHash;;
      res <- on_segment i (segment_Put fuel (fst r));;
      (if fst res then AddTotal 1 else ret tt);;;
      ret res
  end.

Definition cmap_Get (fuel : nat) (k : string) : M cstate (option Elem) :=
  let keyHash := hash k in
  i <- findSegment keyHash;;
  pair' <- on_segment i (segment_GetWithHash fuel k keyHash);;
  match pair' with
  | None => ret None
  | Some a => on_cpairs (Element a)
  end.

Definition cmap_Delete (fuel : nat) (k : string) : M cstate bool :=
  i <- findSegment (hash k);;
  ok <- on_segment i (segment_Delete fuel k);;
  if ok then (AddTotal MaxUint64;;; ret true) else ret false.

Definition cmap_Len : M cstate Z := gets (fun st : cstate => total (fst st)).

(** [for i := 0; i < concurrency; i++ { cmap.segments[i] = newSegment(...) }] *)
Fixpoint new_segments (n : nat) (pr : option PairRedistributor) : M world (list segment) :=
  match n with
  | O => ret []
  | S n' =>
      s <- newSegment DEFAULT_BUCKET_NUMBER pr;;
      rest <- new_segments n' pr;;
      ret (s :: rest)
  end.

Definition NewConcurrentMap (c : Z) (pr : option PairRedistributor)
  : M world (option cmap * option error) :=
  if c <=? 0 then ret (None, Some (newIllegalParameterError "concurrency is too small"))
  else if c >? MAX_CONCURRENCY
  then ret (None, Some (newIllegalParameterError "concurrency is too large"))
  else
    segs <- new_segments (Z.to_nat c) pr;;
    ret (Some {| concurrency := c; segments := segs; total := 0 |}, None).

(** ** Calls made one after another on one map

    Each call is made by a goroutine of its own and runs until it returns,
    panics or parks before the next call starts; a call that panics or
    parks leaves its state behind for the calls that follow.  Calls that
    overlap in time are not sequences of this kind: [GetWithHash] looks its
    chain up after it has released the mutex, so a [Get] that has selected
    its bucket can read what a [Put] that started later has stored. *)
Inductive op : Type :=
| OpPut (k : string) (e : option Elem)
| OpGet (k : string)
| OpDelete (k : string).

Definition step (fuel : nat) (o : op) (st : cstate) : cstate :=
  match o with
  | OpPut k e => final_state (cmap_Put fuel k e st)
  | OpGet k => final_state (cmap_Get fuel k st)
  | OpDelete k => final_state (cmap_Delete fuel k st)
  end.

Definition run (fuel : nat) (ops : list op) (st : cstate) : cstate :=
  foldl (fun st o => step fuel o st) st ops.

End Segments.

Section Vocabulary.
Context {Ext : Externals}.

(** ** Vocabulary of the statements *)

(** [chain h v l]: following [next] from [v] visits exactly the addresses
    [l] and then reaches nil. *)
Fixpoint chain (h : heap) (v : option addr) (l : list addr) : Prop :=
  match l with
  | [] => v = None
  | a :: l' => v = Some a /\ exists p, h !! a = Some p /\ chain h (next p) l'
  end.

Definition key_of (h : heap) (a : addr) : option string := key <$> h !! a.
Definition element_of (h : heap) (a : addr) : option Elem := h !! a ≫= element.

(** The keys of a chain and its key/element entries, in chain order. *)
Definition keys (h : heap) (l : list addr) : list string :=
  omap (key_of h) l.

Definition entries (h : heap) (l : list addr) : list (string * option Elem) :=
  omap (fun a => (fun p => (key p, element p)) <$> h !! a) l.

(** [c] in [h'] is what [Copy] makes of [a] in [h]: same key, same
    element, the hash of the key, and a place outside [h]. *)
Definition copy_of (h h' : heap) (a c : addr) : Prop :=
  (length h <= c)%nat /\
  exists p q, h !! a = Some p /\ h' !! c = Some q /\
              key q = key p /\ element q = element p /\ khash q = hash (key p).

(** What a pair contributes to its bucket: its key with its element, when
    it holds one. *)
Definition entry_of (h : heap) (a : addr) : option (string * Elem) :=
  match h !! a with
  | Some p =>
      match element p with
      | Some e => Some (key p, e)
      | None => None
      end
  | None => None
  end.

(** The finite map a chain stands for: every key of the chain with the
    element of the first pair that has it. *)
Definition view (h : heap) (l : list addr) : gmap string Elem :=
  list_to_map (omap (entry_of h) l).

(** The invariant of a bucket whose chain is [l]: the chain ends, no two
    of its pairs share a key, every pair holds an element, and the size
    counter is the number of pairs. *)
Definition bucket_ok (h : heap) (b : bucket) (l : list addr) : Prop :=
  chain h (GetFirstPair b) l /\
  NoDup (keys h l) /\
  Forall (fun a => is_Some (element_of h a)) l /\
  bsize b = Z.of_nat (length l).

(** [preserves f m]: whatever the outcome of [m], the observation [f] of
    the state is what it was before the call. *)
Definition preserves {S A X} (f : S -> X) (m : M S A) : Prop :=
  forall s, f (final_state (m s)) = f s.

(** [stable P m]: a state with property [P] still has it after [m],
    whatever the outcome. *)
Definition stable {S A} (P : S -> Prop) (m : M S A) : Prop :=
  forall s, P s -> P (final_state (m s)).

(** Shard routing in the words of the specification: fold the hash to 32
    bits, the upper 32 bits when it exceeds the largest 32-bit value and the
    low 32 bits otherwise; shift right by 16; reduce modulo
    [concurrency - 1]. *)
Definition spec_fold32 (keyHash : Z) : Z :=
  if MaxUint32 <? keyHash then Z.shiftr keyHash 32
  else Z.land keyHash (Z.ones 32).

Definition spec_route (c keyHash : Z) : Z :=
  if c =? 1 then 0
  else Z.shiftr (spec_fold32 keyHash) 16 mod (c - 1).

End Vocabulary.

Section MapVocabulary.
Context {Ext : Externals} {Ops : RedistributorOps}.

(** A segment as [newSegment(DEFAULT_BUCKET_NUMBER, pr)] makes it: the
    default number of empty buckets, no pairs, a free mutex, and the given
    redistributor or, when none is given, one made by
    [newDefaultPairRedistributor] with the default load factor. *)
Definition fresh_segment (pr : option PairRedistributor) (s : segment) : Prop :=
  buckets s = replicate (Z.to_nat DEFAULT_BUCKET_NUMBER) newBucket /\
  bucketsLen s = DEFAULT_BUCKET_NUMBER /\
  pairTotal s = 0 /\
  lock s = false /\
  match pr with
  | Some r => pairRedistributor s = r
  | None =>
      exists w1,
        returned (newDefaultPairRedistributor DEFAULT_BUCKET_LOAD_FACTOR
                    DEFAULT_BUCKET_NUMBER w1)
        = Some (pairRedistributor s)
  end.

(** No bucket of the segment has a chain and its counters are zero. *)
Definition empty_segment (s : segment) : Prop :=
  Forall (fun b => GetFirstPair b = None /\ bsize b = 0) (buckets s) /\
  pairTotal s = 0.

(** The recorded length of the bucket array is its length. *)
Definition len_ok (st : sstate) : Prop :=
  bucketsLen (fst st) = Z.of_nat (length (buckets (fst st))).

(** The map has concurrency [c], one segment per unit of it, and [x] in
    its last slot. *)
Definition last_segment_is (c : Z) (x : option segment) (st : cstate) : Prop :=
  concurrency (fst st) = c /\
  Z.of_nat (length (segments (fst st))) = c /\
  segments (fst st) !! Z.to_nat (c - 1) = x.

(** A segment nothing can be read from: its mutex is held, or all its
    buckets are empty.  A map is inert with total [t] when its total is [t]
    and all its segments are of that kind. *)
Definition inert_segment (s : segment) : Prop :=
  lock s = true \/ Forall (fun b => GetFirstPair b = None) (buckets s).

Definition inert (t : Z) (st : cstate) : Prop :=
  total (fst st) = t /\ Forall inert_segment (segments (fst st)).

(** The redistributor [pr], run on the buckets [bs], has written none of
    them whenever a panic leaves it: its first two methods write none, and
    its rehash has written none when it panics. *)
Definition faults_cleanly (pr : PairRedistributor) (bs : list bucket) : Prop :=
  (forall pairTotal' bucketNumber w,
      fst (final_state (UpdateThreshold pr pairTotal' bucketNumber (bs, w))) = bs) /\
  (forall pairTotal' bucketSize w,
      fst (final_state (CheckBucketStatus pr pairTotal' bucketSize (bs, w))) = bs) /\
  (forall bucketStatus w v bw',
      Redistribe pr bucketStatus (bs, w) = Panics v bw' -> fst bw' = bs).

(** The caller of [Put] is handed a redistribution failure. *)
Definition surfaces_failure (o : outcome sstate (bool * option error)) : Prop :=
  exists ok msg st', o = Done (ok, Some (PairRedistributorError msg)) st'.

End MapVocabulary.

(** ** Concrete collaborators used to run the model *)

Module Sample.

Inductive status : Type := Normal | Overweight | Underweight.

(** A toy hash: the length of the key, moved to the upper half of the
    word for odd lengths so that both folding branches occur.  It stays
    inside [uint64] for keys shorter than 65536 characters. *)
Definition length_hash (k : string) : Z :=
  let n := Z.of_nat (String.length k) in
  if Z.even n then n * 65536 else n * 2 ^ 48.

#[export] Instance externals : Externals := {|
  Elem := Z;
  hash := length_hash;
  MAX_CONCURRENCY := 65536;
  DEFAULT_BUCKET_NUMBER := 16;
  float64 := Z * Z;
  DEFAULT_BUCKET_LOAD_FACTOR := (3, 4);
  PairRedistributor := nat;
  BucketStatus := status;
  Env := unit;
|}.

(** A redistributor that never resizes. *)
Definition idle : RedistributorOps := {|
  UpdateThreshold := fun _ _ _ => ret tt;
  CheckBucketStatus := fun _ _ _ => ret Normal;
  Redistribe := fun _ _ => gets (fun bw => (fst bw, false));
  newDefaultPairRedistributor := fun _ _ => ret 0%nat;
  UpdateThreshold_in_place := fun _ _ _ _ => eq_refl;
  CheckBucketStatus_in_place := fun _ _ _ _ => eq_refl;
  Redistribe_in_place := fun _ _ _ => eq_refl;
|}.

(** A redistributor whose rehash faults before it has written anything. *)
Definition faulty : RedistributorOps := {|
  UpdateThreshold := fun _ _ _ => ret tt;
  CheckBucketStatus := fun _ _ _ => ret Overweight;
  Redistribe := fun _ _ => panic (PanicOther "rehash failed");
  newDefaultPairRedistributor := fun _ _ => ret 0%nat;
  UpdateThreshold_in_place := fun _ _ _ _ => eq_refl;
  CheckBucketStatus_in_place := fun _ _ _ _ => eq_refl;
  Redistribe_in_place := fun _ _ _ => eq_refl;
|}.

(** A redistributor that answers with one more bucket every time. *)
Definition growing : RedistributorOps := {|
  UpdateThreshold := fun _ _ _ => ret tt;
  CheckBucketStatus := fun _ _ _ => ret Overweight;
  Redistribe := fun _ _ => gets (fun bw => (fst bw ++ [newBucket], true));
  newDefaultPairRedistributor := fun _ _ => ret 0%nat;
  UpdateThreshold_in_place := fun _ _ _ _ => eq_refl;
  CheckBucketStatus_in_place := fun _ _ _ _ => eq_refl;
  Redistribe_in_place := fun _ _ _ => eq_refl;
|}.

(** A redistributor whose rehash calls [Clear] on the first bucket of the
    slice it was handed, and then faults. *)
Definition wiping : RedistributorOps := {|
  UpdateThreshold := fun _ _ _ => ret tt;
  CheckBucketStatus := fun _ _ _ => ret Overweight;
  Redistribe := fun _ _ bw =>
    Panics (PanicOther "rehash failed")
      (match fst bw with
       | b :: bs => fst (final_state (bucket_Clear None (b, pairs (snd bw)))) :: bs
       | [] => []
       end, snd bw);
  newDefaultPairRedistributor := fun _ _ => ret 0%nat;
  UpdateThreshold_in_place := fun _ _ _ _ => eq_refl;
  CheckBucketStatus_in_place := fun _ _ _ _ => eq_refl;
  Redistribe_in_place := fun _ _ bw =>
    match fst bw as l
      return length (match l with
                     | b :: bs => fst (final_state (bucket_Clear None (b, pairs (snd bw)))) :: bs
                     | [] => []
                     end) = length l
    with
    | _ :: _ => eq_refl
    | [] => eq_refl
    end;
|}.

Definition w0 : world := {| pairs := []; env := tt |}.

Definition cell (k : string) (v : Z) (n : option nat) : pair :=
  {| key := k; khash := length_hash k; element := Some v; next := n |}.

(** A bucket whose chain is c -> b -> a, and two detached pairs: one
    with the key b and one with a key the chain lacks. *)
Definition heap3 : list pair :=
  [cell "a" 1 None; cell "b" 2 (Some 0%nat); cell "c" 3 (Some 1%nat);
   cell "b" 20 None; cell "d" 4 None].

Definition bucket3 : bucket := {| firstValue := First 2; bsize := 3 |}.

(** A segment with one bucket holding the key a, and a map made of it. *)
Definition world_a : world := {| pairs := [cell "a" 7 None]; env := tt |}.

Definition seg_a : segment :=
  {| buckets := [{| firstValue := First 0; bsize := 1 |}];
     bucketsLen := 1; pairTotal := 1; pairRedistributor := 0%nat; lock := false |}.

Definition map_a : cstate :=
  ({| concurrency := 1; segments := [seg_a]; total := 1 |}, world_a).

(** An empty segment with one bucket, next to a pair ready to be put. *)
Definition seg_empty : segment :=
  {| buckets := [newBucket];
     bucketsLen := 1; pairTotal := 0; pairRedistributor := 0%nat; lock := false |}.

(** A segment without buckets. *)
Definition seg_none : segment :=
  {| buckets := []; bucketsLen := 0; pairTotal := 0; pairRedistributor := 0%nat;
     lock := false |}.



(** The states [Delete] of the key a goes through on [seg_a]: the mutex
    taken, the chain removal done, the pair total decremented. *)
Definition s0 : sstate := (seg_a, world_a).
Definition s1 : sstate := (set_lock true seg_a, world_a).
Definition s2 : sstate :=
  Eval vm_compute in final_state (on_bucket 0 (bucket_Delete 10 "a" None) s1).
Definition s3 : sstate := (set_pairTotal 0 (fst s2), snd s2).

(** The map [NewConcurrentMap c nil] returns with the idle redistributor
    as default. *)
Definition fresh_map (c : Z) : cstate :=
  match NewConcurrentMap (Ops := idle) c None w0 with
  | Done (Some m, _) w => (m, w)
  | _ => ({| concurrency := 0; segments := []; total := 0 |}, w0)
  end.

Definition calls : list op :=
  [OpPut "a" (Some 1); OpGet "a"; OpDelete "b"; OpPut "bb" (Some 2);
   OpPut "c" None; OpGet "bb"].

End Sample.

(** * Properties *)

(** ** Machine arithmetic *)

Lemma AddUint64_succ (x : Z) : 0 <= x < MaxUint64 -> AddUint64 x 1 = x + 1.
Proof.
  intros Hx. unfold AddUint64, wrap64, MaxUint64 in *.
  apply Z.mod_small. lia.
Qed.

Lemma AddUint64_pred (x : Z) : 0 < x <= MaxUint64 -> AddUint64 x MaxUint64 = x - 1.
Proof.
  intros Hx. unfold AddUint64, wrap64, MaxUint64 in *.
  replace (x + 18446744073709551615) with (x - 1 + 1 * 2 ^ 64) by lia.
  rewrite Z.mod_add by lia. apply Z.mod_small. lia.
Qed.

Lemma wrap32_range (z : Z) : 0 <= wrap32 z < 2 ^ 32.
Proof. unfold wrap32. apply Z.mod_pos_bound. lia. Qed.

Lemma folded_nonneg (keyHash : Z) :
  0 <= Z.shiftr
         (if keyHash >? MaxUint32 then wrap32 (Z.shiftr keyHash 32) else wrap32 keyHash) 16.
Proof.
  apply Z.shiftr_nonneg. destruct (keyHash >? MaxUint32); apply wrap32_range.
Qed.

(** The source's folding and the specification's agree on 64-bit words. *)
Lemma fold32_agrees (keyHash : Z) :
  0 <= keyHash < 2 ^ 64 ->
  (if keyHash >? MaxUint32 then wrap32 (Z.shiftr keyHash 32) else wrap32 keyHash)
  = spec_fold32 keyHash.
Proof.
  intros Hk. unfold spec_fold32. rewrite Z.gtb_ltb.
  destruct (MaxUint32 <? keyHash) eqn:Hgt.
  - unfold wrap32. apply Z.mod_small.
    rewrite Z.shiftr_div_pow2 by lia. split.
    + apply Z.div_pos; lia.
    + apply Z.div_lt_upper_bound; lia.
  - unfold wrap32. rewrite Z.land_ones by lia. reflexivity.
Qed.

Lemma findSegment_index_range (c keyHash : Z) :
  1 < c -> 0 <= findSegment_index c keyHash <= c - 2.
Proof.
  intros Hc. unfold findSegment_index.
  destruct (c =? 1) eqn:E; [lia|].
  pose proof (folded_nonneg keyHash) as Hn.
  rewrite Z.rem_mod_nonneg by lia.
  pose proof (Z.mod_pos_bound
                (Z.shiftr (if keyHash >? MaxUint32 then wrap32 (Z.shiftr keyHash 32)
                           else wrap32 keyHash) 16) (c - 1)).
  lia.
Qed.

Lemma findSegment_index_one (keyHash : Z) : findSegment_index 1 keyHash = 0.
Proof. reflexivity. Qed.

Lemma findSegment_index_spec (c keyHash : Z) :
  1 <= c -> 0 <= keyHash < 2 ^ 64 ->
  findSegment_index c keyHash = spec_route c keyHash.
Proof.
  intros Hc Hk. unfold findSegment_index, spec_route.
  destruct (c =? 1) eqn:E; [reflexivity|].
  apply Z.eqb_neq in E.
  pose proof (folded_nonneg keyHash) as Hn.
  rewrite Z.rem_mod_nonneg by lia.
  rewrite fold32_agrees by assumption. reflexivity.
Qed.

Lemma spec_route_range (c keyHash : Z) :
  1 <= c -> 0 <= keyHash < 2 ^ 64 -> 0 <= spec_route c keyHash < c.
Proof.
  intros Hc Hk. rewrite <- findSegment_index_spec by assumption.
  destruct (Z.eq_dec c 1) as [->|Hne].
  - rewrite findSegment_index_one. lia.
  - pose proof (findSegment_index_range c keyHash). lia.
Qed.

(** ** The monad *)

Lemma bind_Done {S A B} (m : M S A) (k : A -> M S B) (s s' : S) (a : A) :
  m s = Done a s' -> bind m k s = k a s'.
Proof. intros E. unfold bind. rewrite E. reflexivity. Qed.

Lemma bind_not_Done {S A B} (m : M S A) (k : A -> M S B) (s : S) :
  returned (m s) = None -> returned (bind m k s) = None.
Proof. unfold bind. destruct (m s); simpl; congruence. Qed.

Lemma bind_not_Done_or {S A B} (m : M S A) (k : A -> M S B) (s : S) :
  (forall a s', m s = Done a s' -> returned (k a s') = None) ->
  returned (bind m k s) = None.
Proof.
  intros Hk. unfold bind. destruct (m s) as [a s'| | |] eqn:E; try reflexivity.
  apply Hk. reflexivity.
Qed.

Lemma bind_inv {S A B} (m : M S A) (k : A -> M S B) (s s'' : S) (b : B) :
  bind m k s = Done b s'' -> exists a s', m s = Done a s' /\ k a s' = Done b s''.
Proof.
  unfold bind. destruct (m s) as [a s'| | |] eqn:E; try discriminate.
  intros Hk. exists a, s'. split; [reflexivity | exact Hk].
Qed.

Lemma final_bind {S A B} (m : M S A) (k : A -> M S B) (s : S) :
  final_state (bind m k s)
  = match m s with
    | Done a s' => final_state (k a s')
    | o => final_state o
    end.
Proof. unfold bind. destruct (m s); reflexivity. Qed.

(** Run the first call of a sequence, given the equation [tac] proves for
    it. *)
Ltac mstep tac := etransitivity; [eapply bind_Done; tac | cbv beta].

Section ChainProperties.
Context {Ext : Externals}.

(** ** Chains in the heap *)

Lemma chain_head (h : heap) (v : option addr) (l : list addr) :
  chain h v l -> v = head l.
Proof. destruct l; simpl; [tauto | intros [-> _]; reflexivity]. Qed.

Lemma chain_allocated (h : heap) (l : list addr) :
  forall v, chain h v l -> Forall (fun a => (a < length h)%nat) l.
Proof.
  induction l as [|a l IH]; intros v Hc; [constructor|].
  destruct Hc as [_ (p & Hp & Hc)]. constructor.
  - eapply lookup_lt_Some; eassumption.
  - eapply IH; eassumption.
Qed.

Lemma chain_extend (h ext : heap) (l : list addr) :
  forall v, chain h v l -> chain (h ++ ext) v l.
Proof.
  induction l as [|a l IH]; intros v Hc; [exact Hc|].
  destruct Hc as [-> (p & Hp & Hc)]. split; [reflexivity|].
  exists p. split; [|auto].
  rewrite lookup_app_l; [exact Hp | eapply lookup_lt_Some; eassumption].
Qed.

Lemma chain_split (h : heap) (l1 : list addr) (t : addr) (l2 : list addr) :
  forall v, chain h v (l1 ++ t :: l2) ->
            exists tp, h !! t = Some tp /\ chain h (next tp) l2.
Proof.
  induction l1 as [|a l1 IH]; intros v Hc; simpl in Hc.
  - destruct Hc as [_ (p & Hp & Hc)]. eauto.
  - destruct Hc as [_ (p & Hp & Hc)]. eapply IH; eassumption.
Qed.

Lemma chain_suffix (h : heap) (l1 l2 : list addr) :
  forall v, chain h v (l1 ++ l2) -> chain h (head l2) l2.
Proof.
  induction l1 as [|a l1 IH]; intros v Hc; simpl in Hc.
  - rewrite <- (chain_head _ _ _ Hc). exact Hc.
  - destruct Hc as [_ (p & Hp & Hc)]. eapply IH; eassumption.
Qed.

Lemma chain_functional (h : heap) (l : list addr) :
  forall v l', chain h v l -> chain h v l' -> l = l'.
Proof.
  induction l as [|a l IH]; intros v [|a' l'] Hc Hc'; simpl in *.
  - reflexivity.
  - destruct Hc' as [E _]. congruence.
  - destruct Hc as [E _]. congruence.
  - destruct Hc as [E (p & Hp & Hc)]. destruct Hc' as [E' (p' & Hp' & Hc')].
    assert (a = a') as <- by congruence.
    assert (p = p') as <- by congruence.
    f_equal. eapply IH; eassumption.
Qed.

(** A chain that ends visits no pair twice. *)
Lemma chain_NoDup (h : heap) (l : list addr) :
  forall v, chain h v l -> NoDup l.
Proof.
  induction l as [|a l IH]; intros v Hc; [constructor|].
  pose proof Hc as [_ (p & Hp & Hc')].
  constructor; [|eapply IH; eassumption].
  intros Hin. apply list_elem_of_split in Hin as (l1 & l2 & ->).
  pose proof (chain_suffix h l1 (a :: l2) _ Hc') as Hs. simpl in Hs.
  destruct Hs as [_ (q & Hq & Hs)].
  assert (q = p) as -> by congruence.
  pose proof (chain_functional _ _ _ _ Hc' Hs) as E.
  apply (f_equal length) in E. rewrite length_app in E. simpl in E. lia.
Qed.

(** Writing a pair that is not on the chain leaves the chain alone. *)
Lemma chain_alter_off (h : heap) (f : pair -> pair) (x : addr) (l : list addr) :
  forall v, x ∉ l -> chain h v l -> chain (alter f x h) v l.
Proof.
  induction l as [|a l IH]; intros v Hx Hc; [exact Hc|].
  destruct Hc as [-> (p & Hp & Hc)]. split; [reflexivity|].
  apply not_elem_of_cons in Hx as [Hne Hx].
  exists p. split; [|auto].
  rewrite list_lookup_alter_ne by congruence. exact Hp.
Qed.

(** Replacing an element changes no link. *)
Lemma chain_set_element (h : heap) (e : option Elem) (x : addr) (l : list addr) :
  forall v, chain h v l -> chain (alter (set_element e) x h) v l.
Proof.
  induction l as [|a l IH]; intros v Hc; [exact Hc|].
  destruct Hc as [-> (p & Hp & Hc)]. split; [reflexivity|].
  destruct (decide (x = a)) as [->|Hne].
  - exists (set_element e p). split.
    + rewrite list_lookup_alter_eq, Hp. reflexivity.
    + simpl. auto.
  - exists p. split; [|auto].
    rewrite list_lookup_alter_ne by congruence. exact Hp.
Qed.

Lemma key_of_set_element (h : heap) (e : option Elem) (x a : addr) :
  key_of (alter (set_element e) x h) a = key_of h a.
Proof.
  unfold key_of. destruct (decide (x = a)) as [->|Hne].
  - rewrite list_lookup_alter_eq. destruct (h !! a); reflexivity.
  - rewrite list_lookup_alter_ne by congruence. reflexivity.
Qed.

Lemma key_of_set_next (h : heap) (n : option addr) (x a : addr) :
  key_of (alter (set_next n) x h) a = key_of h a.
Proof.
  unfold key_of. destruct (decide (x = a)) as [->|Hne].
  - rewrite list_lookup_alter_eq. destruct (h !! a); reflexivity.
  - rewrite list_lookup_alter_ne by congruence. reflexivity.
Qed.

Lemma keys_set_element (h : heap) (e : option Elem) (x : addr) (l : list addr) :
  keys (alter (set_element e) x h) l = keys h l.
Proof.
  unfold keys. induction l as [|a l IH]; [reflexivity|].
  cbn [omap list_omap]. rewrite key_of_set_element, IH. reflexivity.
Qed.

(** ** The chain walks *)

Lemma find_pair_heap (fuel : nat) (k : string) (h : heap) :
  forall v, final_state (find_pair fuel v k h) = h.
Proof.
  induction fuel as [|fuel IH]; intros [a|]; simpl; try reflexivity.
  unfold Key, Next, deref, bind, ret.
  destruct (h !! a) as [p|] eqn:Hp; simpl; [|reflexivity].
  destruct (String.eqb (key p) k); [reflexivity|]. rewrite Hp. apply IH.
Qed.

Lemma find_pair_found (h : heap) (k : string) (l1 : list addr) (t : addr) (l2 : list addr) :
  forall fuel v,
    chain h v (l1 ++ t :: l2) ->
    (length l1 < fuel)%nat ->
    Forall (fun a => key_of h a <> Some k) l1 ->
    key_of h t = Some k ->
    find_pair fuel v k h = Done (Some t) h.
Proof.
  induction l1 as [|a l1 IH]; intros fuel v Hc Hf Hne Ht; simpl in Hc.
  - destruct Hc as [-> (p & Hp & _)]. destruct fuel as [|fuel]; [simpl in Hf; lia|].
    simpl. unfold Key, deref, bind, ret. rewrite Hp.
    unfold key_of in Ht. rewrite Hp in Ht. simpl in Ht.
    assert (key p = k) as -> by congruence.
    rewrite String.eqb_refl. reflexivity.
  - destruct Hc as [-> (p & Hp & Hc)]. destruct fuel as [|fuel]; [simpl in Hf; lia|].
    simpl. unfold Key, Next, deref, bind, ret. rewrite Hp.
    apply Forall_cons in Hne as [Ha Hne].
    unfold key_of in Ha. rewrite Hp in Ha. simpl in Ha.
    destruct (String.eqb (key p) k) eqn:E.
    + apply String.eqb_eq in E. congruence.
    + rewrite Hp. apply IH; [exact Hc | simpl in Hf; lia | exact Hne | exact Ht].
Qed.

Lemma find_pair_absent (h : heap) (k : string) (l : list addr) :
  forall fuel v,
    chain h v l ->
    (length l <= fuel)%nat ->
    Forall (fun a => key_of h a <> Some k) l ->
    find_pair fuel v k h = Done None h.
Proof.
  induction l as [|a l IH]; intros fuel v Hc Hf Hne; simpl in Hc.
  - subst v. destruct fuel; reflexivity.
  - destruct Hc as [-> (p & Hp & Hc)]. destruct fuel as [|fuel]; [simpl in Hf; lia|].
    simpl. unfold Key, Next, deref, bind, ret. rewrite Hp.
    apply Forall_cons in Hne as [Ha Hne].
    unfold key_of in Ha. rewrite Hp in Ha. simpl in Ha.
    destruct (String.eqb (key p) k) eqn:E.
    + apply String.eqb_eq in E. congruence.
    + rewrite Hp. apply IH; [exact Hc | simpl in Hf; lia | exact Hne].
Qed.

End ChainProperties.

Section BucketProperties.
Context {Ext : Externals}.

(** ** Bucket methods *)

Lemma on_heap_Done {A} (m : M (list pair) A) (b : bucket) (h h' : heap) (a : A) :
  m h = Done a h' -> on_heap m (b, h) = Done a (b, h').
Proof. intros E. unfold on_heap, zoom. simpl. rewrite E. reflexivity. Qed.

Lemma deref_Some {A} (a : addr) (f : pair -> A) (h : heap) (p : pair) :
  h !! a = Some p -> deref a f h = Done (f p) h.
Proof. intros E. unfold deref. rewrite E. reflexivity. Qed.

Lemma SetElement_Some (a : addr) (e : Elem) (h : heap) (p : pair) :
  h !! a = Some p ->
  SetElement a (Some e) h = Done None (alter (set_element (Some e)) a h).
Proof.
  intros E. unfold SetElement.
  erewrite bind_Done by (apply deref_Some; exact E). reflexivity.
Qed.

Lemma SetNext_Some (a : addr) (n : option addr) (h : heap) (p : pair) :
  h !! a = Some p ->
  SetNext a n h = Done None (alter (set_next n) a h).
Proof.
  intros E. unfold SetNext.
  erewrite bind_Done by (apply deref_Some; exact E). reflexivity.
Qed.

Lemma with_lock_free {S A} (lock : option bool) (m : M S A) :
  lock <> Some true -> with_lock lock m = m.
Proof. destruct lock as [[|]|]; [congruence | reflexivity | reflexivity]. Qed.

Lemma bucket_Put_empty (fuel : nat) (b : bucket) (h : heap) (p : addr) (lock : option bool) :
  lock <> Some true ->
  GetFirstPair b = None ->
  bucket_Put fuel (Some p) lock (b, h)
  = Done (true, None) ({| firstValue := First p; bsize := AddUint64 (bsize b) 1 |}, h).
Proof.
  intros Hl He. unfold bucket_Put. rewrite with_lock_free by exact Hl.
  unfold bind, gets. simpl. rewrite He. reflexivity.
Qed.

Lemma bucket_Put_update (fuel : nat) (b : bucket) (h : heap) (p : addr) (pp : pair)
    (lock : option bool) (l1 : list addr) (t : addr) (l2 : list addr) (e : Elem) :
  lock <> Some true ->
  h !! p = Some pp ->
  chain h (GetFirstPair b) (l1 ++ t :: l2) ->
  (length l1 < fuel)%nat ->
  Forall (fun a => key_of h a <> Some (key pp)) l1 ->
  key_of h t = Some (key pp) ->
  element pp = Some e ->
  bucket_Put fuel (Some p) lock (b, h)
  = Done (false, None) (b, alter (set_element (Some e)) t h).
Proof.
  intros Hl Hp Hc Hf Hne Ht He.
  unfold bucket_Put. rewrite with_lock_free by exact Hl.
  unfold bind at 1, gets. cbn [fst].
  destruct (GetFirstPair b) as [firstPair|] eqn:Hfirst.
  2:{ apply chain_head in Hc. destruct l1; discriminate. }
  mstep ltac:(apply on_heap_Done, deref_Some; exact Hp).
  mstep ltac:(eapply on_heap_Done, find_pair_found; eassumption).
  mstep ltac:(apply on_heap_Done, deref_Some; exact Hp).
  rewrite He.
  destruct (h !! t) as [tp|] eqn:Htp; [|unfold key_of in Ht; rewrite Htp in Ht; discriminate].
  mstep ltac:(eapply on_heap_Done, SetElement_Some; exact Htp).
  reflexivity.
Qed.

Lemma bucket_Put_insert (fuel : nat) (b : bucket) (h : heap) (p : addr) (pp : pair)
    (lock : option bool) (l : list addr) :
  lock <> Some true ->
  h !! p = Some pp ->
  chain h (GetFirstPair b) l ->
  (length l <= fuel)%nat ->
  l <> [] ->
  Forall (fun a => key_of h a <> Some (key pp)) l ->
  bucket_Put fuel (Some p) lock (b, h)
  = Done (true, None)
         ({| firstValue := First p; bsize := AddUint64 (bsize b) 1 |},
          alter (set_next (GetFirstPair b)) p h).
Proof.
  intros Hl Hp Hc Hf Hnil Hne.
  unfold bucket_Put. rewrite with_lock_free by exact Hl.
  unfold bind at 1, gets. cbn [fst].
  destruct (GetFirstPair b) as [firstPair|] eqn:Hfirst.
  2:{ apply chain_head in Hc. destruct l; [congruence | discriminate]. }
  mstep ltac:(apply on_heap_Done, deref_Some; exact Hp).
  mstep ltac:(eapply on_heap_Done, find_pair_absent; eassumption).
  mstep ltac:(eapply on_heap_Done, SetNext_Some; exact Hp).
  reflexivity.
Qed.

(** The pair put in front of a chain that lacks its key is not on the
    chain. *)
Lemma absent_key_off_chain (h : heap) (p : addr) (pp : pair) (l : list addr) :
  h !! p = Some pp ->
  Forall (fun a => key_of h a <> Some (key pp)) l ->
  p ∉ l.
Proof.
  intros Hp Hne Hin. rewrite Forall_forall in Hne.
  apply (Hne p Hin). unfold key_of. rewrite Hp. reflexivity.
Qed.

(** C7. [bucket.Put] of a pair [p] that is not nil, on a chain that ends
    (its pairs are [l]), with a locker that is absent or free.  If the
    chain is empty, [p] is stored as head, the size counter is incremented
    and the call reports (true, nil).  If a pair [t] of the chain has the
    key of [p], the element of [t] is overwritten in place with the element
    of [p], no link and no head changes, the counter is unchanged and the
    call reports (false, nil).  Otherwise the next link of [p] is set to the
    old head, [p] is stored as head, the counter is incremented and the call
    reports (true, nil); the new chain is [p] followed by the old one. *)
Theorem bucket_Put_cases (fuel : nat) (b : bucket) (h : heap) (p : addr) (pp : pair)
    (lock : option bool) (l : list addr) :
  lock <> Some true ->
  h !! p = Some pp ->
  chain h (GetFirstPair b) l ->
  (length l < fuel)%nat ->
  (l = [] ->
   bucket_Put fuel (Some p) lock (b, h)
   = Done (true, None) ({| firstValue := First p; bsize := AddUint64 (bsize b) 1 |}, h))
  /\
  (forall l1 t l2 e,
      l = l1 ++ t :: l2 ->
      Forall (fun a => key_of h a <> Some (key pp)) l1 ->
      key_of h t = Some (key pp) ->
      element pp = Some e ->
      let h' := alter (set_element (Some e)) t h in
      bucket_Put fuel (Some p) lock (b, h) = Done (false, None) (b, h') /\
      element_of h' t = Some e /\
      chain h' (GetFirstPair b) l /\
      keys h' l = keys h l /\
      (forall a, a <> t -> h' !! a = h !! a))
  /\
  (l <> [] ->
   Forall (fun a => key_of h a <> Some (key pp)) l ->
   let h' := alter (set_next (GetFirstPair b)) p h in
   bucket_Put fuel (Some p) lock (b, h)
   = Done (true, None) ({| firstValue := First p; bsize := AddUint64 (bsize b) 1 |}, h') /\
   h' !! p = Some (set_next (GetFirstPair b) pp) /\
   chain h' (Some p) (p :: l) /\
   (forall a, a <> p -> h' !! a = h !! a))
  /\
  (0 <= bsize b < MaxUint64 -> AddUint64 (bsize b) 1 = bsize b + 1).
Proof.
  intros Hl Hp Hc Hf. split; [|split; [|split]].
  - intros ->. apply bucket_Put_empty; [exact Hl | exact Hc].
  - intros l1 t l2 e -> Hne Ht He h'. subst h'.
    split; [|split; [|split; [|split]]].
    + eapply bucket_Put_update; try eassumption.
      rewrite length_app in Hf. simpl in Hf. lia.
    + unfold element_of. rewrite list_lookup_alter_eq.
      unfold key_of in Ht. destruct (h !! t); [reflexivity | discriminate].
    + apply chain_set_element. exact Hc.
    + apply keys_set_element.
    + intros a Ha. apply list_lookup_alter_ne. congruence.
  - intros Hnil Hne h'. subst h'. split; [|split; [|split]].
    + eapply bucket_Put_insert; try eassumption. lia.
    + rewrite list_lookup_alter_eq, Hp. reflexivity.
    + split; [reflexivity|].
      exists (set_next (GetFirstPair b) pp). split.
      * rewrite list_lookup_alter_eq, Hp. reflexivity.
      * simpl. apply chain_alter_off; [|exact Hc].
        eapply absent_key_off_chain; eassumption.
    + intros a Ha. apply list_lookup_alter_ne. congruence.
  - apply AddUint64_succ.
Qed.

(** *** Delete *)

Lemma scan_target_found (h : heap) (k : string) (l1 : list addr) (t : addr) (l2 : list addr) :
  forall fuel v acc,
    chain h v (l1 ++ t :: l2) ->
    (length l1 < fuel)%nat ->
    Forall (fun a => key_of h a <> Some k) l1 ->
    key_of h t = Some k ->
    scan_target fuel v k acc h = Done (acc ++ l1, Some (t, head l2)) h.
Proof.
  induction l1 as [|a l1 IH]; intros fuel v acc Hc Hf Hne Ht; simpl in Hc.
  - destruct Hc as [-> (p & Hp & Hc)]. destruct fuel as [|fuel]; [simpl in Hf; lia|].
    simpl. unfold Key, Next, deref, bind, ret. rewrite Hp.
    unfold key_of in Ht. rewrite Hp in Ht. simpl in Ht.
    assert (key p = k) as -> by congruence.
    rewrite String.eqb_refl, Hp, app_nil_r.
    rewrite (chain_head _ _ _ Hc). reflexivity.
  - destruct Hc as [-> (p & Hp & Hc)]. destruct fuel as [|fuel]; [simpl in Hf; lia|].
    simpl. unfold Key, Next, deref, bind, ret. rewrite Hp.
    apply Forall_cons in Hne as [Ha Hne].
    unfold key_of in Ha. rewrite Hp in Ha. simpl in Ha.
    destruct (String.eqb (key p) k) eqn:E.
    + apply String.eqb_eq in E. congruence.
    + rewrite Hp.
      rewrite (IH fuel (next p) (acc ++ [a])); [| exact Hc | simpl in Hf; lia | exact Hne | exact Ht].
      rewrite <- app_assoc. reflexivity.
Qed.

Lemma scan_target_absent (h : heap) (k : string) (l : list addr) :
  forall fuel v acc,
    chain h v l ->
    (length l <= fuel)%nat ->
    Forall (fun a => key_of h a <> Some k) l ->
    scan_target fuel v k acc h = Done (acc ++ l, None) h.
Proof.
  induction l as [|a l IH]; intros fuel v acc Hc Hf Hne; simpl in Hc.
  - subst v. rewrite app_nil_r. destruct fuel; reflexivity.
  - destruct Hc as [-> (p & Hp & Hc)]. destruct fuel as [|fuel]; [simpl in Hf; lia|].
    simpl. unfold Key, Next, deref, bind, ret. rewrite Hp.
    apply Forall_cons in Hne as [Ha Hne].
    unfold key_of in Ha. rewrite Hp in Ha. simpl in Ha.
    destruct (String.eqb (key p) k) eqn:E.
    + apply String.eqb_eq in E. congruence.
    + rewrite Hp.
      rewrite (IH fuel (next p) (acc ++ [a])); [| exact Hc | simpl in Hf; lia | exact Hne].
      rewrite <- app_assoc. reflexivity.
Qed.

Lemma alter_last {A} (f : A -> A) (l : list A) (x : A) :
  alter f (length l) (l ++ [x]) = l ++ [f x].
Proof.
  replace (length l) with (length l + 0)%nat by lia.
  rewrite alter_app_r. reflexivity.
Qed.

Lemma newPair_Some (k : string) (e : Elem) (h : heap) :
  newPair k (Some e) h
  = Done (Some (length h), None)
         (h ++ [{| key := k; khash := hash k; element := Some e; next := None |}]).
Proof.
  unfold newPair, alloc, bind, modify, ret. simpl.
  rewrite alter_last. reflexivity.
Qed.

Lemma newPair_nil (k : string) (h : heap) :
  newPair k None h
  = Done (None, Some (newIllegalParameterError "element is nil"))
         (h ++ [{| key := k; khash := hash k; element := None; next := None |}]).
Proof. reflexivity. Qed.

Lemma Copy_Some (a : addr) (h : heap) (p : pair) (e : Elem) :
  h !! a = Some p ->
  element p = Some e ->
  Copy a h
  = Done (Some (length h))
         (h ++ [{| key := key p; khash := hash (key p); element := Some e; next := None |}]).
Proof.
  intros Hp He. unfold Copy, Key, Element.
  mstep ltac:(apply deref_Some; exact Hp).
  mstep ltac:(apply deref_Some; exact Hp).
  rewrite He.
  mstep ltac:(apply newPair_Some).
  reflexivity.
Qed.

(** One turn of the rebuilding loop: a copy of [a] is appended to the heap
    with its next link set to the chain rebuilt so far. *)
Lemma rebuild_turn (a : addr) (rest : list addr) (nf : option addr) (h : heap)
    (p : pair) (e : Elem) :
  h !! a = Some p ->
  element p = Some e ->
  rebuild (a :: rest) nf h
  = rebuild rest (Some (length h))
      (h ++ [{| key := key p; khash := hash (key p); element := Some e; next := nf |}]).
Proof.
  intros Hp He. simpl.
  mstep ltac:(eapply Copy_Some; eassumption).
  mstep ltac:(reflexivity).
  mstep ltac:(eapply SetNext_Some; rewrite lookup_app_r by lia;
              rewrite Nat.sub_diag; reflexivity).
  rewrite alter_last. reflexivity.
Qed.

Lemma copy_of_rebase (h ext h' : heap) (l newl : list addr) :
  Forall (fun a => (a < length h)%nat) l ->
  Forall2 (copy_of (h ++ ext) h') l newl ->
  Forall2 (copy_of h h') l newl.
Proof.
  intros Hl HF. induction HF as [|a c l newl Hac HF IH]; [constructor|].
  apply Forall_cons in Hl as [Ha Hl]. constructor; [|auto].
  destruct Hac as (Hc & p & q & Hp & Hq & Hk & He & Hh).
  split. { rewrite length_app in Hc. lia. }
  exists p, q. rewrite lookup_app_l in Hp by exact Ha. auto.
Qed.

Lemma rebuild_spec (revPrev : list addr) :
  forall (h : heap) (nf : option addr) (tail : list addr),
    Forall (fun a => exists p e, h !! a = Some p /\ element p = Some e) revPrev ->
    chain h nf tail ->
    exists ext : list pair,
      let newl := rev (seq (length h) (length revPrev)) in
      rebuild revPrev nf h = Done (head (newl ++ tail)) (h ++ ext) /\
      chain (h ++ ext) (head (newl ++ tail)) (newl ++ tail) /\
      Forall2 (copy_of h (h ++ ext)) (rev revPrev) newl.
Proof.
  induction revPrev as [|a rest IH]; intros h nf tail Hel Hc.
  - exists []. simpl. rewrite app_nil_r, <- (chain_head _ _ _ Hc).
    split; [reflexivity|]. split; [exact Hc | constructor].
  - apply Forall_cons in Hel as [(p & e & Hp & He) Hel].
    set (c := {| key := key p; khash := hash (key p); element := Some e; next := nf |}).
    assert (Hlen : length (h ++ [c]) = S (length h))
      by (rewrite length_app; simpl; lia).
    assert (Hcell : (h ++ [c]) !! length h = Some c)
      by (rewrite lookup_app_r by lia; rewrite Nat.sub_diag; reflexivity).
    destruct (IH (h ++ [c]) (Some (length h)) (length h :: tail)) as (ext & Hrun & Hch & Hcp).
    + eapply Forall_impl; [exact Hel|]. intros x (q & e' & Hq & He').
      exists q, e'. split; [|exact He'].
      rewrite lookup_app_l; [exact Hq | eapply lookup_lt_Some; eassumption].
    + split; [reflexivity|]. exists c. split; [exact Hcell|].
      simpl. apply chain_extend. exact Hc.
    + cbv zeta in Hrun, Hch, Hcp. rewrite Hlen in Hrun, Hch, Hcp.
      exists (c :: ext). cbv zeta.
      assert (Enew : rev (seq (length h) (length (a :: rest))) ++ tail
                     = rev (seq (S (length h)) (length rest)) ++ length h :: tail).
      { simpl. rewrite <- app_assoc. reflexivity. }
      assert (Eheap : h ++ c :: ext = (h ++ [c]) ++ ext)
        by (rewrite <- app_assoc; reflexivity).
      rewrite Enew, Eheap.
      split; [|split].
      * rewrite (rebuild_turn a rest nf h p e Hp He). exact Hrun.
      * exact Hch.
      * simpl. apply Forall2_app.
        -- apply copy_of_rebase with (ext := [c]); [|exact Hcp].
           apply List.Forall_rev. eapply Forall_impl; [exact Hel|].
           intros x (q & _ & Hq & _). eapply lookup_lt_Some; eassumption.
        -- constructor; [|constructor].
           split; [lia|]. exists p, c. split; [exact Hp|]. split.
           ++ rewrite lookup_app_l by (rewrite Hlen; lia). exact Hcell.
           ++ simpl. auto.
Qed.

Lemma bucket_Delete_absent (fuel : nat) (b : bucket) (h : heap) (k : string)
    (lock : option bool) (l : list addr) :
  lock <> Some true ->
  chain h (GetFirstPair b) l ->
  (length l <= fuel)%nat ->
  Forall (fun a => key_of h a <> Some k) l ->
  bucket_Delete fuel k lock (b, h) = Done false (b, h).
Proof.
  intros Hl Hc Hf Hne. unfold bucket_Delete. rewrite with_lock_free by exact Hl.
  unfold bind at 1, gets. cbn [fst].
  destruct (GetFirstPair b) as [firstPair|] eqn:Hfirst; [|reflexivity].
  mstep ltac:(eapply on_heap_Done, scan_target_absent; eassumption).
  reflexivity.
Qed.

Lemma bucket_Delete_found (fuel : nat) (b : bucket) (h : heap) (k : string)
    (lock : option bool) (l1 : list addr) (t : addr) (l2 : list addr) :
  lock <> Some true ->
  chain h (GetFirstPair b) (l1 ++ t :: l2) ->
  (length l1 < fuel)%nat ->
  Forall (fun a => key_of h a <> Some k) l1 ->
  key_of h t = Some k ->
  Forall (fun a => is_Some (element_of h a)) l1 ->
  exists ext : list pair,
    let newl := rev (seq (length h) (length l1)) in
    bucket_Delete fuel k lock (b, h)
    = Done true
        ({| firstValue := match head (newl ++ l2) with
                          | Some a => First a
                          | None => Placeholder
                          end;
            bsize := AddUint64 (bsize b) MaxUint64 |},
         h ++ ext) /\
    chain (h ++ ext) (head (newl ++ l2)) (newl ++ l2) /\
    Forall2 (copy_of h (h ++ ext)) l1 newl.
Proof.
  intros Hl Hc Hf Hne Ht Hel.
  destruct (chain_split _ _ _ _ _ Hc) as (tp & Htp & Hc2).
  rewrite (chain_head _ _ _ Hc2) in Hc2.
  destruct (rebuild_spec (rev l1) h (head l2) l2) as (ext & Hrun & Hch & Hcp).
  { apply List.Forall_rev. eapply Forall_impl; [exact Hel|].
    intros a [e He]. unfold element_of in He.
    destruct (h !! a) as [p|]; [|discriminate]. exists p, e. auto. }
  { exact Hc2. }
  cbv zeta in Hrun, Hch, Hcp.
  rewrite List.length_rev in Hrun, Hch, Hcp. rewrite List.rev_involutive in Hcp.
  exists ext. cbv zeta. split; [|split; [exact Hch | exact Hcp]].
  unfold bucket_Delete. rewrite with_lock_free by exact Hl.
  unfold bind at 1, gets. cbn [fst].
  destruct (GetFirstPair b) as [firstPair|] eqn:Hfirst.
  2:{ apply chain_head in Hc. destruct l1; discriminate. }
  mstep ltac:(eapply on_heap_Done, scan_target_found; eassumption).
  cbn [snd fst app].
  mstep ltac:(eapply on_heap_Done; exact Hrun).
  destruct (head (rev (seq (length h) (length l1)) ++ l2)); reflexivity.
Qed.

(** *** What a chain holds *)

Lemma keys_entries (h : heap) (l : list addr) : keys h l = (entries h l).*1.
Proof.
  unfold keys, entries, key_of. induction l as [|a l IH]; [reflexivity|].
  cbn [omap list_omap]. destruct (h !! a); simpl; rewrite IH; reflexivity.
Qed.

Lemma entries_extend (h ext : heap) (l : list addr) :
  Forall (fun a => (a < length h)%nat) l ->
  entries (h ++ ext) l = entries h l.
Proof.
  unfold entries. induction 1 as [|a l Ha Hl IH]; [reflexivity|].
  cbn [omap list_omap]. rewrite lookup_app_l by exact Ha. rewrite IH. reflexivity.
Qed.

Lemma entries_copies (h h' : heap) (l newl : list addr) :
  Forall2 (copy_of h h') l newl -> entries h' newl = entries h l.
Proof.
  unfold entries. induction 1 as [|a c l newl Hac HF IH]; [reflexivity|].
  destruct Hac as (_ & p & q & Hp & Hq & Hk & He & _).
  cbn [omap list_omap]. rewrite Hp, Hq, IH. simpl. rewrite Hk, He. reflexivity.
Qed.

Lemma entries_app (h : heap) (l1 l2 : list addr) :
  entries h (l1 ++ l2) = entries h l1 ++ entries h l2.
Proof. unfold entries. apply omap_app. Qed.

Lemma keys_app (h : heap) (l1 l2 : list addr) :
  keys h (l1 ++ l2) = keys h l1 ++ keys h l2.
Proof. unfold keys. apply omap_app. Qed.

Lemma keys_cons (h : heap) (a : addr) (l : list addr) (k : string) :
  key_of h a = Some k -> keys h (a :: l) = k :: keys h l.
Proof. intros E. unfold keys. cbn [omap list_omap]. rewrite E. reflexivity. Qed.

Lemma keys_without (h : heap) (l : list addr) (k : string) :
  Forall (fun a => key_of h a <> Some k) l -> k ∉ keys h l.
Proof.
  intros Hne Hin. unfold keys in Hin.
  apply list_elem_of_omap in Hin as (a & Ha & Hk).
  rewrite Forall_forall in Hne. exact (Hne a Ha Hk).
Qed.

(** C3. [bucket.Delete] of key [k] on a chain that ends (its pairs are
    [l]), with a locker that is absent or free.  If no pair of the chain
    has key [k], the call returns false and leaves bucket, counter and heap
    as they were.  If [t] is the first pair with key [k], after the pairs
    [l1] and before the pairs [l2], and the pairs of [l1] hold elements,
    the call returns true; the new head starts a chain made of fresh copies
    of the pairs of [l1], in their order, followed by [l2] itself; old
    pairs are not written; the new chain holds exactly the entries of [l1]
    and [l2] with their elements; it does not hold [k] when keys were
    distinct; and the size counter is decremented by one. *)
Theorem bucket_Delete_cases (fuel : nat) (b : bucket) (h : heap) (k : string)
    (lock : option bool) (l : list addr) :
  lock <> Some true ->
  chain h (GetFirstPair b) l ->
  (length l < fuel)%nat ->
  (Forall (fun a => key_of h a <> Some k) l ->
   bucket_Delete fuel k lock (b, h) = Done false (b, h))
  /\
  (forall l1 t l2,
      l = l1 ++ t :: l2 ->
      Forall (fun a => key_of h a <> Some k) l1 ->
      key_of h t = Some k ->
      Forall (fun a => is_Some (element_of h a)) l1 ->
      exists (b' : bucket) (ext : list pair) (newl : list addr),
        let h' := h ++ ext in
        bucket_Delete fuel k lock (b, h) = Done true (b', h') /\
        chain h' (GetFirstPair b') (newl ++ l2) /\
        Forall2 (copy_of h h') l1 newl /\
        entries h' (newl ++ l2) = entries h l1 ++ entries h l2 /\
        (NoDup (keys h l) -> k ∉ keys h' (newl ++ l2)) /\
        bsize b' = AddUint64 (bsize b) MaxUint64 /\
        (0 < bsize b <= MaxUint64 -> bsize b' = bsize b - 1)).
Proof.
  intros Hl Hc Hf. split.
  - intros Hne. eapply bucket_Delete_absent; try eassumption. lia.
  - intros l1 t l2 -> Hne Ht Hel.
    destruct (bucket_Delete_found fuel b h k lock l1 t l2) as (ext & Hrun & Hch & Hcp);
      try assumption.
    { rewrite length_app in Hf. simpl in Hf. lia. }
    cbv zeta in Hrun, Hch, Hcp.
    set (newl := rev (seq (length h) (length l1))) in *.
    eexists _, ext, newl. cbv zeta.
    assert (Hent : entries (h ++ ext) (newl ++ l2) = entries h l1 ++ entries h l2).
    { rewrite entries_app, (entries_copies _ _ _ _ Hcp). f_equal.
      apply entries_extend.
      pose proof (chain_allocated _ _ _ Hc) as Hall.
      apply Forall_app in Hall as [_ Hall]. apply Forall_cons in Hall as [_ Hall].
      exact Hall. }
    split; [exact Hrun|]. split; [|split; [exact Hcp|split; [exact Hent|split; [|split]]]].
    + simpl. destruct (head (newl ++ l2)); exact Hch.
    + intros Hnd. rewrite keys_entries, Hent, fmap_app, <- !keys_entries.
      rewrite keys_app, (keys_cons _ _ _ _ Ht) in Hnd.
      apply NoDup_app in Hnd as (_ & _ & Hnd). apply NoDup_cons in Hnd as [Hk2 _].
      rewrite elem_of_app. intros [Hin|Hin]; [|exact (Hk2 Hin)].
      exact (keys_without _ _ _ Hne Hin).
    + reflexivity.
    + simpl. apply AddUint64_pred.
Qed.

(** *** Reading after writing, and the invariant of a bucket *)

(** Either no pair of the list has key [k], or there is a first one. *)
Lemma first_with_key (h : heap) (k : string) (l : list addr) :
  Forall (fun a => key_of h a <> Some k) l \/
  exists l1 t l2,
    l = l1 ++ t :: l2 /\
    Forall (fun a => key_of h a <> Some k) l1 /\
    key_of h t = Some k.
Proof.
  induction l as [|a l IH]; [left; constructor|].
  destruct (decide (key_of h a = Some k)) as [Ha|Ha].
  - right. exists [], a, l. split; [reflexivity|]. split; [constructor | exact Ha].
  - destruct IH as [IH|(l1 & t & l2 & -> & Hne & Ht)].
    + left. constructor; assumption.
    + right. exists (a :: l1), t, l2. split; [reflexivity|].
      split; [constructor; assumption | exact Ht].
Qed.

Lemma bucket_Get_head (fuel : nat) (b : bucket) (h : heap) (p : addr) (pp : pair) :
  GetFirstPair b = Some p ->
  h !! p = Some pp ->
  bucket_Get (S fuel) (key pp) (b, h) = Done (Some p) (b, h).
Proof.
  intros Hb Hp. unfold bucket_Get, bind, gets. cbn [fst]. rewrite Hb.
  apply on_heap_Done. simpl. unfold Key, deref, bind, ret.
  rewrite Hp, String.eqb_refl. reflexivity.
Qed.

(** What [Put] stored under a key is what [Get] of that key finds next: a
    pair of the chain holding the element of the pair that was put. *)
Lemma bucket_Get_after_Put (fuel : nat) (b : bucket) (h : heap) (p : addr) (pp : pair)
    (e : Elem) (lock : option bool) (l : list addr) :
  lock <> Some true ->
  h !! p = Some pp ->
  element pp = Some e ->
  chain h (GetFirstPair b) l ->
  (length l < fuel)%nat ->
  exists r bs' a,
    bucket_Put fuel (Some p) lock (b, h) = Done r bs' /\
    bucket_Get fuel (key pp) bs' = Done (Some a) bs' /\
    element_of (snd bs') a = Some e.
Proof.
  intros Hl Hp He Hc Hf.
  destruct fuel as [|fuel]; [lia|].
  destruct (first_with_key h (key pp) l) as [Hne|(l1 & t & l2 & -> & Hne & Ht)].
  - destruct l as [|a0 l0].
    + eexists _, _, p. split; [apply bucket_Put_empty; [exact Hl | exact Hc]|].
      split; [apply bucket_Get_head; [reflexivity | exact Hp]|].
      cbn [snd]. unfold element_of. rewrite Hp. exact He.
    + eexists _, _, p. split.
      { eapply bucket_Put_insert; try eassumption; [lia | discriminate]. }
      split.
      * apply (bucket_Get_head fuel _ _ p (set_next (GetFirstPair b) pp));
          [reflexivity|].
        rewrite list_lookup_alter_eq, Hp. reflexivity.
      * cbn [snd]. unfold element_of. rewrite list_lookup_alter_eq, Hp. exact He.
  - eexists _, _, t. split.
    { eapply bucket_Put_update; try eassumption.
      rewrite length_app in Hf. simpl in Hf. lia. }
    split.
    + unfold bucket_Get, bind, gets. cbn [fst].
      pose proof (chain_head _ _ _ Hc) as Hhead.
      destruct (GetFirstPair b) as [firstPair|] eqn:Hfirst;
        [|destruct l1; discriminate].
      apply on_heap_Done.
      eapply find_pair_found.
      * apply chain_set_element. exact Hc.
      * rewrite length_app in Hf. simpl in Hf. lia.
      * eapply Forall_impl; [exact Hne|]. intros a Ha.
        rewrite key_of_set_element. exact Ha.
      * rewrite key_of_set_element. exact Ht.
    + cbn [snd]. unfold element_of. rewrite list_lookup_alter_eq.
      unfold key_of in Ht. destruct (h !! t); [reflexivity | discriminate].
Qed.

Lemma element_of_set_element (h : heap) (e : Elem) (x a : addr) :
  is_Some (element_of h a) -> is_Some (element_of (alter (set_element (Some e)) x h) a).
Proof.
  unfold element_of. destruct (decide (x = a)) as [->|Hne].
  - rewrite list_lookup_alter_eq. destruct (h !! a); simpl; [eauto|].
    intros [? ?]; discriminate.
  - rewrite list_lookup_alter_ne by congruence. auto.
Qed.

Lemma element_of_set_next (h : heap) (n : option addr) (x a : addr) :
  element_of (alter (set_next n) x h) a = element_of h a.
Proof.
  unfold element_of. destruct (decide (x = a)) as [->|Hne].
  - rewrite list_lookup_alter_eq. destruct (h !! a); reflexivity.
  - rewrite list_lookup_alter_ne by congruence. reflexivity.
Qed.

Lemma keys_set_next (h : heap) (n : option addr) (x : addr) (l : list addr) :
  keys (alter (set_next n) x h) l = keys h l.
Proof.
  unfold keys. induction l as [|a l IH]; [reflexivity|].
  cbn [omap list_omap]. rewrite key_of_set_next, IH. reflexivity.
Qed.

(** A fresh bucket is well formed. *)
Lemma newBucket_ok (h : heap) : bucket_ok h newBucket [].
Proof. split; [reflexivity|]. split; [constructor|]. split; [constructor | reflexivity]. Qed.

(** [Put] of a detached pair that holds an element returns and keeps the
    bucket well formed; the key of the pair is then in the chain. *)
Lemma bucket_Put_ok (fuel : nat) (b : bucket) (h : heap) (p : addr) (pp : pair)
    (e : Elem) (lock : option bool) (l : list addr) :
  bucket_ok h b l ->
  (length l < fuel)%nat ->
  Z.of_nat (length l) < MaxUint64 ->
  lock <> Some true ->
  h !! p = Some pp ->
  element pp = Some e ->
  next pp = None ->
  exists r b' h' l',
    bucket_Put fuel (Some p) lock (b, h) = Done r (b', h') /\
    bucket_ok h' b' l' /\
    key pp ∈ keys h' l'.
Proof.
  intros (Hc & Hnd & Hel & Hsz) Hf Hmax Hl Hp He Hn.
  assert (Hkp : key_of h p = Some (key pp)) by (unfold key_of; rewrite Hp; reflexivity).
  destruct (first_with_key h (key pp) l) as [Hne|(l1 & t & l2 & -> & Hne & Ht)].
  - destruct l as [|a0 l0].
    + eexists _, _, h, [p]. split; [apply bucket_Put_empty; [exact Hl | exact Hc]|].
      split; [|rewrite (keys_cons _ _ _ _ Hkp); apply list_elem_of_here].
      split; [|split; [|split]].
      * split; [reflexivity|]. exists pp. split; [exact Hp | exact Hn].
      * rewrite (keys_cons _ _ _ _ Hkp). constructor; [|constructor].
        intros Hin. inversion Hin.
      * constructor; [|constructor]. unfold element_of. rewrite Hp. simpl. eauto.
      * cbn [bsize]. rewrite Hsz. reflexivity.
    + set (h' := alter (set_next (GetFirstPair b)) p h).
      assert (Hkp' : key_of h' p = Some (key pp))
        by (unfold h'; rewrite key_of_set_next; exact Hkp).
      eexists _, _, h', (p :: a0 :: l0). split.
      { eapply bucket_Put_insert; try eassumption; [lia | discriminate]. }
      split; [|rewrite (keys_cons _ _ _ _ Hkp'); apply list_elem_of_here].
      split; [|split; [|split]].
      * split; [reflexivity|]. exists (set_next (GetFirstPair b) pp). split.
        -- unfold h'. rewrite list_lookup_alter_eq, Hp. reflexivity.
        -- cbn [next set_next]. apply chain_alter_off; [|exact Hc].
           eapply absent_key_off_chain; eassumption.
      * rewrite (keys_cons _ _ _ _ Hkp'). unfold h'. rewrite keys_set_next.
        constructor; [|exact Hnd]. apply keys_without. exact Hne.
      * constructor.
        -- unfold h'. rewrite element_of_set_next. unfold element_of.
           rewrite Hp. simpl. eauto.
        -- eapply Forall_impl; [exact Hel|]. intros a Ha.
           unfold h'. rewrite element_of_set_next. exact Ha.
      * cbn [bsize]. rewrite Hsz, AddUint64_succ by lia.
        cbn [length]. lia.
  - eexists _, b, _, (l1 ++ t :: l2). split.
    { eapply bucket_Put_update; try eassumption.
      rewrite length_app in Hf. simpl in Hf. lia. }
    split.
    + split; [|split; [|split]].
      * apply chain_set_element. exact Hc.
      * rewrite keys_set_element. exact Hnd.
      * eapply Forall_impl; [exact Hel|]. intros a Ha.
        apply element_of_set_element. exact Ha.
      * exact Hsz.
    + rewrite keys_set_element, keys_app, (keys_cons _ _ _ _ Ht).
      apply elem_of_app. right. apply list_elem_of_here.
Qed.

Lemma element_of_extend (h ext : heap) (a : addr) :
  is_Some (element_of h a) -> is_Some (element_of (h ++ ext) a).
Proof.
  unfold element_of. intros Ha.
  destruct (h !! a) as [p|] eqn:Hp; [|destruct Ha; discriminate].
  rewrite lookup_app_l by (eapply lookup_lt_Some; eassumption).
  rewrite Hp. exact Ha.
Qed.

Lemma copies_hold_elements (h h' : heap) (l newl : list addr) :
  Forall2 (copy_of h h') l newl ->
  Forall (fun a => is_Some (element_of h a)) l ->
  Forall (fun a => is_Some (element_of h' a)) newl.
Proof.
  induction 1 as [|a c l newl Hac HF IH]; intros Hel; [constructor|].
  apply Forall_cons in Hel as [Ha Hel]. constructor; [|auto].
  destruct Hac as (_ & p & q & Hp & Hq & _ & He & _).
  unfold element_of in *. rewrite Hq. rewrite Hp in Ha. simpl in *.
  rewrite He. exact Ha.
Qed.

(** [Delete] returns and keeps the bucket well formed; the key is then
    not in the chain. *)
Lemma bucket_Delete_ok (fuel : nat) (b : bucket) (h : heap) (k : string)
    (lock : option bool) (l : list addr) :
  bucket_ok h b l ->
  (length l < fuel)%nat ->
  Z.of_nat (length l) <= MaxUint64 ->
  lock <> Some true ->
  exists ok b' h' l',
    bucket_Delete fuel k lock (b, h) = Done ok (b', h') /\
    bucket_ok h' b' l' /\
    k ∉ keys h' l'.
Proof.
  intros (Hc & Hnd & Hel & Hsz) Hf Hmax Hl.
  destruct (first_with_key h k l) as [Hne|(l1 & t & l2 & -> & Hne & Ht)].
  - exists false, b, h, l. split.
    { eapply bucket_Delete_absent; try eassumption. lia. }
    split; [repeat split; assumption | apply keys_without; exact Hne].
  - apply Forall_app in Hel as [Hel1 Hel2]. apply Forall_cons in Hel2 as [_ Hel2].
    destruct (bucket_Delete_found fuel b h k lock l1 t l2) as (ext & Hrun & Hch & Hcp);
      try assumption.
    { rewrite length_app in Hf. simpl in Hf. lia. }
    cbv zeta in Hrun, Hch, Hcp.
    set (newl := rev (seq (length h) (length l1))) in *.
    pose proof (chain_allocated _ _ _ Hc) as Hall.
    apply Forall_app in Hall as [_ Hall]. apply Forall_cons in Hall as [_ Hall2].
    assert (Hkeys : keys (h ++ ext) (newl ++ l2) = keys h l1 ++ keys h l2).
    { rewrite !keys_entries, entries_app, (entries_copies _ _ _ _ Hcp),
        (entries_extend _ _ _ Hall2), fmap_app. reflexivity. }
    rewrite keys_app, (keys_cons _ _ _ _ Ht) in Hnd.
    apply NoDup_app in Hnd as (Hnd1 & Hdisj & Hnd2).
    apply NoDup_cons in Hnd2 as [Hk2 Hnd2].
    eexists true, _, (h ++ ext), (newl ++ l2). split; [exact Hrun|]. split.
    + split; [|split; [|split]].
      * simpl. destruct (head (newl ++ l2)); exact Hch.
      * rewrite Hkeys. apply NoDup_app. split; [exact Hnd1|]. split; [|exact Hnd2].
        intros x Hx Hx2. apply (Hdisj x Hx). apply list_elem_of_further. exact Hx2.
      * apply Forall_app. split.
        -- eapply copies_hold_elements; eassumption.
        -- eapply Forall_impl; [exact Hel2|]. intros a Ha.
           apply element_of_extend. exact Ha.
      * cbn [bsize]. rewrite Hsz, AddUint64_pred.
        -- rewrite !length_app. cbn [length].
           rewrite <- (Forall2_length _ _ _ Hcp). lia.
        -- rewrite length_app in Hmax |- *. cbn [length] in Hmax |- *. lia.
    + rewrite Hkeys, elem_of_app. intros [Hin|Hin]; [|exact (Hk2 Hin)].
      exact (keys_without _ _ _ Hne Hin).
Qed.

End BucketProperties.

Section BucketRefinement.
Context {Ext : Externals}.

(** ** A bucket as a finite map *)

Lemma view_cons (h : heap) (a : addr) (l : list addr) :
  view h (a :: l)
  = match entry_of h a with
    | Some (k, e) => <[k := e]> (view h l)
    | None => view h l
    end.
Proof.
  unfold view. cbn [omap list_omap].
  destruct (entry_of h a) as [[k e]|]; reflexivity.
Qed.

Lemma entry_of_inv (h : heap) (a : addr) (k : string) (e : Elem) :
  entry_of h a = Some (k, e) -> key_of h a = Some k /\ element_of h a = Some e.
Proof.
  unfold entry_of, key_of, element_of.
  destruct (h !! a) as [p|]; [|discriminate]. simpl.
  destruct (element p); [|discriminate]. intros E. inversion E. auto.
Qed.

Lemma entry_of_held (h : heap) (a : addr) (k : string) (e : Elem) :
  key_of h a = Some k -> element_of h a = Some e -> entry_of h a = Some (k, e).
Proof.
  unfold entry_of, key_of, element_of.
  destruct (h !! a) as [p|]; [|discriminate]. simpl.
  intros Hk He. rewrite He. congruence.
Qed.

Lemma entry_keys (h : heap) (l : list addr) (k : string) :
  k ∈ (omap (entry_of h) l).*1 -> k ∈ keys h l.
Proof.
  intros Hin. apply list_elem_of_fmap in Hin as ([k' e] & -> & Hin).
  apply list_elem_of_omap in Hin as (a & Ha & He).
  apply entry_of_inv in He as [Hk _].
  unfold keys. apply list_elem_of_omap. eauto.
Qed.

Lemma view_absent (h : heap) (l : list addr) (k : string) :
  Forall (fun a => key_of h a <> Some k) l -> view h l !! k = None.
Proof.
  intros Hne. unfold view. apply not_elem_of_list_to_map_1.
  intros Hin. apply entry_keys in Hin. exact (keys_without _ _ _ Hne Hin).
Qed.

Lemma view_first (h : heap) (l1 : list addr) (t : addr) (l2 : list addr)
    (k : string) (e : Elem) :
  Forall (fun a => key_of h a <> Some k) l1 ->
  key_of h t = Some k ->
  element_of h t = Some e ->
  view h (l1 ++ t :: l2) !! k = Some e.
Proof.
  intros Hne Ht He. induction l1 as [|a l1 IH]; simpl.
  - rewrite view_cons, (entry_of_held _ _ _ _ Ht He). apply lookup_insert_eq.
  - apply Forall_cons in Hne as [Ha Hne]. rewrite view_cons.
    destruct (entry_of h a) as [[k' e']|] eqn:E; [|auto].
    apply entry_of_inv in E as [Hk' _].
    rewrite lookup_insert_ne by congruence. auto.
Qed.

Lemma bucket_Get_absent (fuel : nat) (b : bucket) (h : heap) (k : string) (l : list addr) :
  chain h (GetFirstPair b) l ->
  (length l <= fuel)%nat ->
  Forall (fun a => key_of h a <> Some k) l ->
  bucket_Get fuel k (b, h) = Done None (b, h).
Proof.
  intros Hc Hf Hne. unfold bucket_Get, bind, gets. cbn [fst].
  destruct (GetFirstPair b) as [firstPair|] eqn:Hfirst; [|reflexivity].
  apply on_heap_Done. eapply find_pair_absent; eassumption.
Qed.

Lemma bucket_Get_found (fuel : nat) (b : bucket) (h : heap) (k : string)
    (l1 : list addr) (t : addr) (l2 : list addr) :
  chain h (GetFirstPair b) (l1 ++ t :: l2) ->
  (length l1 < fuel)%nat ->
  Forall (fun a => key_of h a <> Some k) l1 ->
  key_of h t = Some k ->
  bucket_Get fuel k (b, h) = Done (Some t) (b, h).
Proof.
  intros Hc Hf Hne Ht. unfold bucket_Get, bind, gets. cbn [fst].
  pose proof (chain_head _ _ _ Hc) as Hhead.
  destruct (GetFirstPair b) as [firstPair|] eqn:Hfirst; [|destruct l1; discriminate].
  apply on_heap_Done. eapply find_pair_found; eassumption.
Qed.

(** X1. [bucket.Get] is lookup in the finite map the chain stands for.  On
    a chain that ends and whose pairs hold elements, [Get] returns, changes
    nothing, and the element of the pair it returns (none for nil) is what
    the map has at the key; the pair returned is on the chain and has the
    key asked for. *)
Theorem bucket_Get_refines (fuel : nat) (b : bucket) (h : heap) (k : string)
    (l : list addr) :
  chain h (GetFirstPair b) l ->
  Forall (fun a => is_Some (element_of h a)) l ->
  (length l < fuel)%nat ->
  exists r,
    bucket_Get fuel k (b, h) = Done r (b, h) /\
    r ≫= element_of h = view h l !! k /\
    (forall a, r = Some a -> a ∈ l /\ key_of h a = Some k).
Proof.
  intros Hc Hel Hf.
  destruct (first_with_key h k l) as [Hne|(l1 & t & l2 & -> & Hne & Ht)].
  - exists None. split; [eapply bucket_Get_absent; try eassumption; lia|].
    split; [|discriminate]. simpl. symmetry. apply view_absent. exact Hne.
  - exists (Some t). split.
    { eapply bucket_Get_found; try eassumption.
      rewrite length_app in Hf. simpl in Hf. lia. }
    apply Forall_app in Hel as [_ Hel]. apply Forall_cons in Hel as [[e He] _].
    split.
    + simpl. rewrite He. symmetry. eapply view_first; eassumption.
    + intros a E. inversion E; subst a. split; [|exact Ht].
      apply elem_of_app. right. apply list_elem_of_here.
Qed.

Lemma entry_of_set_next (h : heap) (n : option addr) (x a : addr) :
  entry_of (alter (set_next n) x h) a = entry_of h a.
Proof.
  unfold entry_of. destruct (decide (x = a)) as [->|Hne].
  - rewrite list_lookup_alter_eq. destruct (h !! a); reflexivity.
  - rewrite list_lookup_alter_ne by congruence. reflexivity.
Qed.

Lemma view_set_next (h : heap) (n : option addr) (x : addr) (l : list addr) :
  view (alter (set_next n) x h) l = view h l.
Proof.
  induction l as [|a l IH]; [reflexivity|].
  rewrite !view_cons, entry_of_set_next, IH. reflexivity.
Qed.

Lemma entry_of_set_element_ne (h : heap) (e : option Elem) (x a : addr) :
  x <> a -> entry_of (alter (set_element e) x h) a = entry_of h a.
Proof.
  intros Hne. unfold entry_of. rewrite list_lookup_alter_ne by congruence. reflexivity.
Qed.

Lemma entry_of_extend (h ext : heap) (a : addr) :
  (a < length h)%nat -> entry_of (h ++ ext) a = entry_of h a.
Proof. intros Ha. unfold entry_of. rewrite lookup_app_l by exact Ha. reflexivity. Qed.

Lemma entry_of_copy (h h' : heap) (a c : addr) :
  copy_of h h' a c -> entry_of h' c = entry_of h a.
Proof.
  intros (_ & p & q & Hp & Hq & Hk & He & _).
  unfold entry_of. rewrite Hp, Hq, Hk, He. reflexivity.
Qed.

Lemma entries_set_element_off (h : heap) (e : option Elem) (x : addr) (l : list addr) :
  x ∉ l ->
  omap (entry_of (alter (set_element e) x h)) l = omap (entry_of h) l.
Proof.
  induction l as [|a l IH]; intros Hx; [reflexivity|].
  apply not_elem_of_cons in Hx as [Hne Hx]. cbn [omap list_omap].
  rewrite entry_of_set_element_ne by exact Hne.
  rewrite IH by exact Hx. reflexivity.
Qed.

Lemma entries_extend_held (h ext : heap) (l : list addr) :
  Forall (fun a => (a < length h)%nat) l ->
  omap (entry_of (h ++ ext)) l = omap (entry_of h) l.
Proof.
  induction 1 as [|a l Ha Hl IH]; [reflexivity|].
  cbn [omap list_omap]. rewrite entry_of_extend by exact Ha.
  rewrite IH. reflexivity.
Qed.

Lemma entries_copies_held (h h' : heap) (l newl : list addr) :
  Forall2 (copy_of h h') l newl ->
  omap (entry_of h') newl = omap (entry_of h) l.
Proof.
  induction 1 as [|a c l newl Hac HF IH]; [reflexivity|].
  cbn [omap list_omap]. rewrite (entry_of_copy _ _ _ _ Hac), IH. reflexivity.
Qed.

(** Replacing or removing the one entry of a key in the middle of an
    association list, seen through [list_to_map]. *)
Lemma list_to_map_replace (E1 E2 : list (string * Elem)) (k : string) (e e0 : Elem) :
  k ∉ E1.*1 ->
  (list_to_map (E1 ++ (k, e) :: E2) : gmap string Elem)
  = <[k := e]> (list_to_map (E1 ++ (k, e0) :: E2)).
Proof.
  induction E1 as [|[k' e'] E1 IH]; intros Hk; simpl.
  - rewrite insert_insert_eq. reflexivity.
  - cbn [fmap list_fmap fst] in Hk. apply not_elem_of_cons in Hk as [Hne Hk].
    rewrite (IH Hk). apply insert_insert_ne. congruence.
Qed.

Lemma list_to_map_remove (E1 E2 : list (string * Elem)) (k : string) (e0 : Elem) :
  k ∉ E1.*1 ->
  k ∉ E2.*1 ->
  delete k (list_to_map (E1 ++ (k, e0) :: E2) : gmap string Elem)
  = list_to_map (E1 ++ E2).
Proof.
  induction E1 as [|[k' e'] E1 IH]; intros Hk1 Hk2; simpl.
  - apply delete_insert_id. apply not_elem_of_list_to_map_1. exact Hk2.
  - cbn [fmap list_fmap fst] in Hk1. apply not_elem_of_cons in Hk1 as [Hne Hk1].
    rewrite delete_insert_ne by congruence. rewrite (IH Hk1 Hk2). reflexivity.
Qed.

Lemma entries_without (h : heap) (l : list addr) (k : string) :
  Forall (fun a => key_of h a <> Some k) l -> k ∉ (omap (entry_of h) l).*1.
Proof.
  intros Hne Hin. apply entry_keys in Hin. exact (keys_without _ _ _ Hne Hin).
Qed.

Lemma entry_of_is_Some (h : heap) (a : addr) :
  is_Some (element_of h a) ->
  exists k e, entry_of h a = Some (k, e) /\ key_of h a = Some k.
Proof.
  unfold entry_of, key_of, element_of. intros [e He].
  destruct (h !! a) as [p|]; [|discriminate]. simpl in *.
  rewrite He. eauto.
Qed.

Lemma entries_held (h : heap) (l : list addr) :
  Forall (fun a => is_Some (element_of h a)) l ->
  (omap (entry_of h) l).*1 = keys h l /\
  length (omap (entry_of h) l) = length l.
Proof.
  induction 1 as [|a l Ha Hl [IH1 IH2]]; [split; reflexivity|].
  destruct (entry_of_is_Some h a Ha) as (k & e & Hentry & Hk).
  rewrite (keys_cons _ _ _ _ Hk). cbn [omap list_omap]. rewrite Hentry.
  cbn [fmap list_fmap fst length]. rewrite IH1, IH2. split; reflexivity.
Qed.

(** X2. [bucket.Put] is insertion in the finite map.  On a well-formed
    bucket, putting a detached pair that holds an element returns
    (inserted, nil), leaves the bucket well formed (so the size counter is
    again the number of pairs), and turns the map of the chain into that
    map with the key of the pair bound to its element; inserted is true
    exactly when the key was not in the map. *)
Theorem bucket_Put_refines (fuel : nat) (b : bucket) (h : heap) (p : addr) (pp : pair)
    (e : Elem) (lock : option bool) (l : list addr) :
  bucket_ok h b l ->
  (length l < fuel)%nat ->
  Z.of_nat (length l) < MaxUint64 ->
  lock <> Some true ->
  h !! p = Some pp ->
  element pp = Some e ->
  next pp = None ->
  exists inserted b' h' l',
    bucket_Put fuel (Some p) lock (b, h) = Done (inserted, None) (b', h') /\
    bucket_ok h' b' l' /\
    view h' l' = <[key pp := e]> (view h l) /\
    (inserted = true <-> view h l !! key pp = None).
Proof.
  intros (Hc & Hnd & Hel & Hsz) Hf Hmax Hl Hp He Hn.
  assert (Hkp : key_of h p = Some (key pp)) by (unfold key_of; rewrite Hp; reflexivity).
  assert (Hep : element_of h p = Some e) by (unfold element_of; rewrite Hp; exact He).
  destruct (first_with_key h (key pp) l) as [Hne|(l1 & t & l2 & -> & Hne & Ht)].
  - pose proof (view_absent _ _ _ Hne) as Hnone.
    destruct l as [|a0 l0].
    + exists true, {| firstValue := First p; bsize := AddUint64 (bsize b) 1 |}, h, [p].
      split; [apply bucket_Put_empty; [exact Hl | exact Hc]|].
      split; [|split; [|tauto]].
      * split; [|split; [|split]].
        -- split; [reflexivity|]. exists pp. split; [exact Hp | exact Hn].
        -- rewrite (keys_cons _ _ _ _ Hkp). constructor; [|constructor].
           intros Hin. inversion Hin.
        -- constructor; [|constructor]. rewrite Hep. eauto.
        -- cbn [bsize]. rewrite Hsz. reflexivity.
      * rewrite view_cons, (entry_of_held _ _ _ _ Hkp Hep). reflexivity.
    + set (h' := alter (set_next (GetFirstPair b)) p h).
      assert (Hkp' : key_of h' p = Some (key pp))
        by (unfold h'; rewrite key_of_set_next; exact Hkp).
      assert (Hep' : element_of h' p = Some e)
        by (unfold h'; rewrite element_of_set_next; exact Hep).
      exists true, {| firstValue := First p; bsize := AddUint64 (bsize b) 1 |}, h',
        (p :: a0 :: l0).
      split.
      { eapply bucket_Put_insert; try eassumption; [lia | discriminate]. }
      split; [|split; [|tauto]].
      * split; [|split; [|split]].
        -- split; [reflexivity|]. exists (set_next (GetFirstPair b) pp). split.
           ++ unfold h'. rewrite list_lookup_alter_eq, Hp. reflexivity.
           ++ cbn [next set_next]. apply chain_alter_off; [|exact Hc].
              eapply absent_key_off_chain; eassumption.
        -- rewrite (keys_cons _ _ _ _ Hkp'). unfold h'. rewrite keys_set_next.
           constructor; [|exact Hnd]. apply keys_without. exact Hne.
        -- constructor; [rewrite Hep'; eauto|].
           eapply Forall_impl; [exact Hel|]. intros a Ha.
           unfold h'. rewrite element_of_set_next. exact Ha.
        -- cbn [bsize]. rewrite Hsz, AddUint64_succ by lia. cbn [length]. lia.
      * rewrite view_cons, (entry_of_held _ _ _ _ Hkp' Hep').
        unfold h'. rewrite view_set_next. reflexivity.
  - pose proof (chain_NoDup _ _ _ Hc) as Hnodup.
    apply NoDup_app in Hnodup as (_ & Ht1 & Hnodup).
    apply NoDup_cons in Hnodup as [Ht2 _].
    assert (Ht1' : t ∉ l1).
    { intros Hin. apply (Ht1 t Hin). apply list_elem_of_here. }
    pose proof Hel as Hel'.
    apply Forall_app in Hel' as [_ Hel']. apply Forall_cons in Hel' as [[e0 He0] _].
    set (h' := alter (set_element (Some e)) t h).
    assert (Het' : element_of h' t = Some e).
    { unfold h', element_of. rewrite list_lookup_alter_eq.
      unfold key_of in Ht. destruct (h !! t); [reflexivity | discriminate]. }
    assert (Hkt' : key_of h' t = Some (key pp))
      by (unfold h'; rewrite key_of_set_element; exact Ht).
    exists false, b, h', (l1 ++ t :: l2). split.
    { eapply bucket_Put_update; try eassumption.
      rewrite length_app in Hf. simpl in Hf. lia. }
    split; [|split].
    + split; [|split; [|split]].
      * apply chain_set_element. exact Hc.
      * unfold h'. rewrite keys_set_element. exact Hnd.
      * eapply Forall_impl; [exact Hel|]. intros a Ha.
        apply element_of_set_element. exact Ha.
      * exact Hsz.
    + unfold view. rewrite !omap_app. cbn [omap list_omap].
      rewrite (entry_of_held _ _ _ _ Hkt' Het'), (entry_of_held _ _ _ _ Ht He0).
      unfold h'. rewrite !entries_set_element_off by assumption.
      apply list_to_map_replace. apply entries_without. exact Hne.
    + split; [discriminate|]. intros Hnone.
      rewrite (view_first _ _ _ _ _ _ Hne Ht He0) in Hnone. discriminate.
Qed.

(** X3. [bucket.Delete] is deletion in the finite map.  On a well-formed
    bucket, [Delete] returns, leaves the bucket well formed, and turns the
    map of the chain into that map without the key; it returns true exactly
    when the key was in the map. *)
Theorem bucket_Delete_refines (fuel : nat) (b : bucket) (h : heap) (k : string)
    (lock : option bool) (l : list addr) :
  bucket_ok h b l ->
  (length l < fuel)%nat ->
  Z.of_nat (length l) <= MaxUint64 ->
  lock <> Some true ->
  exists ok b' h' l',
    bucket_Delete fuel k lock (b, h) = Done ok (b', h') /\
    bucket_ok h' b' l' /\
    view h' l' = delete k (view h l) /\
    (ok = true <-> is_Some (view h l !! k)).
Proof.
  intros (Hc & Hnd & Hel & Hsz) Hf Hmax Hl.
  destruct (first_with_key h k l) as [Hne|(l1 & t & l2 & -> & Hne & Ht)].
  - pose proof (view_absent _ _ _ Hne) as Hnone.
    exists false, b, h, l. split.
    { eapply bucket_Delete_absent; try eassumption. lia. }
    split; [repeat split; assumption|]. split.
    + symmetry. apply delete_id. exact Hnone.
    + rewrite Hnone. split; [discriminate | intros [? ?]; discriminate].
  - pose proof Hel as Hel'.
    apply Forall_app in Hel' as [Hel1 Hel2]. apply Forall_cons in Hel2 as [[e0 He0] Hel2].
    destruct (bucket_Delete_found fuel b h k lock l1 t l2) as (ext & Hrun & Hch & Hcp);
      try assumption.
    { rewrite length_app in Hf. simpl in Hf. lia. }
    cbv zeta in Hrun, Hch, Hcp.
    set (newl := rev (seq (length h) (length l1))) in *.
    pose proof (chain_allocated _ _ _ Hc) as Hall.
    apply Forall_app in Hall as [_ Hall]. apply Forall_cons in Hall as [_ Hall2].
    assert (Hkeys : keys (h ++ ext) (newl ++ l2) = keys h l1 ++ keys h l2).
    { rewrite !keys_entries, entries_app, (entries_copies _ _ _ _ Hcp),
        (entries_extend _ _ _ Hall2), fmap_app. reflexivity. }
    rewrite keys_app, (keys_cons _ _ _ _ Ht) in Hnd.
    apply NoDup_app in Hnd as (Hnd1 & Hdisj & Hnd2).
    apply NoDup_cons in Hnd2 as [Hk2 Hnd2].
    eexists true, _, (h ++ ext), (newl ++ l2). split; [exact Hrun|].
    split; [|split].
    + split; [|split; [|split]].
      * simpl. destruct (head (newl ++ l2)); exact Hch.
      * rewrite Hkeys. apply NoDup_app. split; [exact Hnd1|]. split; [|exact Hnd2].
        intros x Hx Hx2. apply (Hdisj x Hx). apply list_elem_of_further. exact Hx2.
      * apply Forall_app. split.
        -- eapply copies_hold_elements; eassumption.
        -- eapply Forall_impl; [exact Hel2|]. intros a Ha.
           apply element_of_extend. exact Ha.
      * cbn [bsize]. rewrite Hsz, AddUint64_pred.
        -- rewrite !length_app. cbn [length].
           rewrite <- (Forall2_length _ _ _ Hcp). lia.
        -- rewrite length_app in Hmax |- *. cbn [length] in Hmax |- *. lia.
    + unfold view. rewrite !omap_app. cbn [omap list_omap].
      rewrite (entries_copies_held _ _ _ _ Hcp), (entries_extend_held _ _ _ Hall2),
        (entry_of_held _ _ _ _ Ht He0).
      symmetry. apply list_to_map_remove.
      * apply entries_without. exact Hne.
      * intros Hin. apply entry_keys in Hin. exact (Hk2 Hin).
    + rewrite (view_first _ _ _ _ _ _ Hne Ht He0). split; [eauto | reflexivity].
Qed.

(** X4. On a well-formed bucket, [Size] is the number of keys of the
    finite map the chain stands for. *)
Theorem bucket_Size_counts_keys (b : bucket) (h : heap) (l : list addr) :
  bucket_ok h b l ->
  bucket_Size (b, h) = Done (Z.of_nat (size (view h l))) (b, h).
Proof.
  intros (Hc & Hnd & Hel & Hsz).
  destruct (entries_held h l Hel) as [Hfst Hlen].
  unfold bucket_Size, gets. cbn [fst]. f_equal.
  rewrite Hsz. unfold view. rewrite map_size_list_to_map, Hlen; [reflexivity|].
  rewrite Hfst. exact Hnd.
Qed.

Lemma view_None_absent (h : heap) (l : list addr) (k : string) :
  Forall (fun a => is_Some (element_of h a)) l ->
  view h l !! k = None ->
  Forall (fun a => key_of h a <> Some k) l.
Proof.
  intros Hel Hnone.
  destruct (first_with_key h k l) as [Hne|(l1 & t & l2 & -> & Hne & Ht)]; [exact Hne|].
  apply Forall_app in Hel as [_ Hel]. apply Forall_cons in Hel as [[e0 He0] _].
  rewrite (view_first _ _ _ _ _ _ Hne Ht He0) in Hnone. discriminate.
Qed.

Lemma alter_fixed {A} (f : A -> A) (a : nat) (l : list A) (x : A) :
  l !! a = Some x -> f x = x -> alter f a l = l.
Proof.
  intros Hx Hf. apply list_eq. intros i.
  destruct (decide (a = i)) as [->|Hne].
  - rewrite list_lookup_alter_eq, Hx. simpl. rewrite Hf. reflexivity.
  - apply list_lookup_alter_ne. exact Hne.
Qed.

(** X5. [bucket.Clear] with a locker that is nil or free empties the
    bucket whatever its chain was: the head is the placeholder, the size
    counter is 0, the bucket is well formed with the empty map, and [Get]
    of any key returns nil; the pairs themselves are not written.  With a
    locker that is held the call parks and changes nothing. *)
Theorem bucket_Clear_empties (lock : option bool) (b : bucket) (h : heap) :
  (lock <> Some true ->
   bucket_Clear lock (b, h) = Done tt (newBucket, h) /\
   bucket_ok h newBucket [] /\
   view h [] = ∅ /\
   bucket_Size (newBucket, h) = Done 0 (newBucket, h) /\
   (forall fuel k, bucket_Get fuel k (newBucket, h) = Done None (newBucket, h))) /\
  (lock = Some true -> bucket_Clear lock (b, h) = Blocks (b, h)).
Proof.
  split.
  - intros Hl. unfold bucket_Clear. rewrite with_lock_free by exact Hl.
    split; [reflexivity|]. split; [apply newBucket_ok|].
    split; [reflexivity|]. split; reflexivity.
  - intros ->. reflexivity.
Qed.

(** X6. Putting a new key and deleting it again gives the bucket back.  On
    a well-formed bucket that lacks the key of a detached pair, [Put] of
    the pair returns (true, nil) and the [Delete] of its key that follows
    returns true without allocating anything; afterwards the first pair,
    the size counter, the chain and the map it stands for are those from
    before the [Put]. *)
Theorem bucket_Put_Delete_roundtrip (fuel : nat) (b : bucket) (h : heap) (p : addr)
    (pp : pair) (e : Elem) (lock : option bool) (l : list addr) :
  bucket_ok h b l ->
  (length l < fuel)%nat ->
  Z.of_nat (length l) < MaxUint64 ->
  lock <> Some true ->
  h !! p = Some pp ->
  element pp = Some e ->
  next pp = None ->
  view h l !! key pp = None ->
  exists b1 h1 b2,
    bucket_Put fuel (Some p) lock (b, h) = Done (true, None) (b1, h1) /\
    bucket_Delete fuel (key pp) lock (b1, h1) = Done true (b2, h1) /\
    GetFirstPair b2 = GetFirstPair b /\
    bsize b2 = bsize b /\
    bucket_ok h1 b2 l /\
    view h1 l = view h l.
Proof.
  intros (Hc & Hnd & Hel & Hsz) Hf Hmax Hl Hp He Hn Hnone.
  pose proof (view_None_absent _ _ _ Hel Hnone) as Hne.
  assert (Hkp : key_of h p = Some (key pp)) by (unfold key_of; rewrite Hp; reflexivity).
  assert (Hoff : p ∉ l) by (eapply absent_key_off_chain; eassumption).
  set (h1 := alter (set_next (GetFirstPair b)) p h).
  assert (Hp1 : h1 !! p = Some (set_next (GetFirstPair b) pp))
    by (unfold h1; rewrite list_lookup_alter_eq, Hp; reflexivity).
  assert (Hc1 : chain h1 (GetFirstPair b) l)
    by (unfold h1; apply chain_alter_off; assumption).
  assert (Hput : bucket_Put fuel (Some p) lock (b, h)
                 = Done (true, None)
                        ({| firstValue := First p; bsize := AddUint64 (bsize b) 1 |}, h1)).
  { destruct l as [|a0 l0].
    - rewrite (bucket_Put_empty fuel b h p lock Hl Hc). f_equal. f_equal.
      unfold h1. simpl in Hc. rewrite Hc.
      symmetry. apply alter_fixed with (x := pp); [exact Hp|].
      destruct pp; simpl in *; subst; reflexivity.
    - eapply bucket_Put_insert; try eassumption; [lia | discriminate]. }
  exists {| firstValue := First p; bsize := AddUint64 (bsize b) 1 |}, h1,
    {| firstValue := match GetFirstPair b with
                     | Some a => First a
                     | None => Placeholder
                     end;
       bsize := AddUint64 (AddUint64 (bsize b) 1) MaxUint64 |}.
  split; [exact Hput|]. split; [|split; [|split; [|split]]].
  - unfold bucket_Delete. rewrite with_lock_free by exact Hl.
    unfold bind at 1, gets. cbn [fst GetFirstPair firstValue].
    destruct fuel as [|fuel]; [lia|].
    mstep ltac:(apply on_heap_Done; simpl; unfold Key, Next, deref, bind, ret;
                rewrite Hp1; cbn [key set_next]; rewrite String.eqb_refl, Hp1;
                reflexivity).
    cbn [snd fst rev next set_next].
    mstep ltac:(apply on_heap_Done; reflexivity).
    destruct (GetFirstPair b); reflexivity.
  - simpl. destruct (GetFirstPair b); reflexivity.
  - cbn [bsize]. rewrite Hsz, AddUint64_succ by lia.
    rewrite AddUint64_pred by (unfold MaxUint64 in *; lia). lia.
  - split; [|split; [|split]].
    + simpl. destruct (GetFirstPair b); exact Hc1.
    + unfold h1. rewrite keys_set_next. exact Hnd.
    + eapply Forall_impl; [exact Hel|]. intros a Ha.
      unfold h1. rewrite element_of_set_next. exact Ha.
    + cbn [bsize]. rewrite Hsz, AddUint64_succ by lia.
      rewrite AddUint64_pred by (unfold MaxUint64 in *; lia). lia.
  - unfold h1. apply view_set_next.
Qed.

End BucketRefinement.

Section PairProperties.
Context {Ext : Externals}.

(** ** Pairs *)

(** X7. [SetElement] and [Element] on a pair of the heap.  A nil element
    is refused with an IllegalParameterError and nothing is written.  Any
    other element is stored: [Element] then returns it, key, hash and next
    link of the pair are as before, and no other pair is written. *)
Theorem SetElement_then_Element (a : addr) (p : pair) (e : Elem) (h : heap) :
  h !! a = Some p ->
  SetElement a None h
  = Done (Some (IllegalParameterError
                  "concurrent map: illegal parameter: element is nil")) h /\
  exists h',
    SetElement a (Some e) h = Done None h' /\
    Element a h' = Done (Some e) h' /\
    Key a h' = Done (key p) h' /\
    Hash a h' = Done (khash p) h' /\
    Next a h' = Done (next p) h' /\
    length h' = length h /\
    (forall a', a' <> a -> h' !! a' = h !! a').
Proof.
  intros Hp. split; [reflexivity|].
  exists (alter (set_element (Some e)) a h).
  assert (Hp' : alter (set_element (Some e)) a h !! a = Some (set_element (Some e) p))
    by (rewrite list_lookup_alter_eq, Hp; reflexivity).
  split; [eapply SetElement_Some; exact Hp|].
  unfold Element, Key, Hash, Next.
  rewrite !(deref_Some a _ _ _ Hp'). repeat split.
  - apply length_alter.
  - intros a' Ha. apply list_lookup_alter_ne. congruence.
Qed.

(** X8. [Copy] of a pair that holds an element returns a new pair, outside
    the old heap, with the same key and element, the hash of the key and no
    next link; the old pairs are as before.  [Copy] of a pair without
    element returns nil, the error of [newPair] being dropped. *)
Theorem Copy_detached (a : addr) (p : pair) (h : heap) :
  h !! a = Some p ->
  (forall e, element p = Some e ->
     exists h',
       Copy a h = Done (Some (length h)) h' /\
       h' !! length h
       = Some {| key := key p; khash := hash (key p); element := Some e; next := None |} /\
       length h' = S (length h) /\
       (forall a', (a' < length h)%nat -> h' !! a' = h !! a')) /\
  (element p = None -> returned (Copy a h) = Some None).
Proof.
  intros Hp. split.
  - intros e He. eexists. split; [eapply Copy_Some; eassumption|].
    split; [|split].
    + rewrite lookup_app_r by lia. rewrite Nat.sub_diag. reflexivity.
    + rewrite length_app. simpl. lia.
    + intros a' Ha. apply lookup_app_l. exact Ha.
  - intros He. unfold Copy, Key, Element.
    rewrite (bind_Done _ _ _ _ _ (deref_Some a key h p Hp)).
    rewrite (bind_Done _ _ _ _ _ (deref_Some a element h p Hp)).
    rewrite He. reflexivity.
Qed.

End PairProperties.

Section SegmentProperties.
Context {Ext : Externals} {Ops : RedistributorOps}.

(** ** What a call leaves alone *)

Lemma preserves_ret {S A X} (f : S -> X) (a : A) : preserves f (ret a).
Proof. intros s. reflexivity. Qed.

Lemma preserves_panic {S A X} (f : S -> X) (v : panic_value) :
  preserves f (panic (A := A) v).
Proof. intros s. reflexivity. Qed.

Lemma preserves_gets {S A X} (f : S -> X) (g : S -> A) : preserves f (gets g).
Proof. intros s. reflexivity. Qed.

Lemma preserves_bind {S A B X} (f : S -> X) (m : M S A) (k : A -> M S B) :
  preserves f m -> (forall a, preserves f (k a)) -> preserves f (bind m k).
Proof.
  intros Hm Hk s. rewrite final_bind. specialize (Hm s).
  destruct (m s) as [a s'| | |]; simpl in *; try exact Hm.
  rewrite (Hk a s'). exact Hm.
Qed.

Lemma preserves_zoom {S T A X} (f : T -> X) (get : T -> S) (set : S -> T -> T) (m : M S A) :
  (forall s t, f (set s t) = f t) -> preserves f (zoom get set m).
Proof. intros Hset t. unfold zoom. destruct (m (get t)); simpl; apply Hset. Qed.

Lemma preserves_recover {S A X} (f : S -> X) (m : M S A) (handler : panic_value -> A) :
  preserves f m -> preserves f (recover m handler).
Proof. intros Hm s. unfold recover. specialize (Hm s). destruct (m s); exact Hm. Qed.

Lemma preserves_if {S A X} (f : S -> X) (c : bool) (m1 m2 : M S A) :
  preserves f m1 -> preserves f m2 -> preserves f (if c then m1 else m2).
Proof. destruct c; auto. Qed.

(** ** The mutex of a segment *)

Lemma on_world_lock {A} (m : M world A) : preserves lock_of (on_world m).
Proof. apply preserves_zoom. reflexivity. Qed.

Lemma on_array_lock {A} (m : M (list bucket * world) A) : preserves lock_of (on_array m).
Proof. apply preserves_zoom. reflexivity. Qed.

Lemma on_pairs_lock {A} (m : M (list pair) A) : preserves lock_of (on_pairs m).
Proof. apply on_world_lock. Qed.

Lemma on_bucket_lock {A} (i : nat) (m : M bstate A) : preserves lock_of (on_bucket i m).
Proof. apply preserves_zoom. reflexivity. Qed.

Lemma bucket_index_lock (keyHash : Z) : preserves lock_of (bucket_index keyHash).
Proof.
  intros st. unfold bucket_index, bind, gets, panic, ret. simpl.
  destruct (wrap64 (bucketsLen (fst st)) =? 0); [reflexivity|].
  destruct (_ || _); reflexivity.
Qed.

Lemma AddPairTotal_lock (d : Z) : preserves lock_of (AddPairTotal d).
Proof. intros st. reflexivity. Qed.

Lemma redistribute_lock (pairTotal' bucketSize : Z) :
  preserves lock_of (redistribute pairTotal' bucketSize).
Proof.
  unfold redistribute, redistribute_body. apply preserves_recover.
  apply preserves_bind; [apply preserves_gets|]. intros s.
  apply preserves_bind; [apply on_array_lock|]. intros _.
  apply preserves_bind; [apply on_array_lock|]. intros status.
  apply preserves_bind; [apply on_array_lock|]. intros r.
  apply preserves_bind; [|intros _; apply preserves_ret].
  apply preserves_if; [|apply preserves_ret]. intros st. reflexivity.
Qed.

Lemma Lock_held (st : sstate) : lock_of (final_state (Lock st)) = true.
Proof.
  unfold Lock, lock_of. destruct (lock (fst st)) eqn:E; simpl; [exact E | reflexivity].
Qed.

Lemma Lock_blocks (st : sstate) : lock_of st = true -> Lock st = Blocks st.
Proof. unfold Lock, lock_of. intros ->. reflexivity. Qed.

(** Whatever lines 66 to 72 of [Put] do, they leave the mutex held. *)
Lemma segment_Put_body_lock (fuel : nat) (p : option addr) (st : sstate) :
  lock_of (final_state (segment_Put_body fuel p st)) = true.
Proof.
  unfold segment_Put_body. rewrite final_bind.
  pose proof (Lock_held st) as HL.
  destruct (Lock st) as [[] st1| | |]; simpl in HL |- *; try exact HL.
  rewrite <- HL. revert st1 HL. intros st1 _.
  apply (preserves_bind lock_of); [apply on_pairs_lock|]. intros a.
  apply preserves_bind; [apply on_pairs_lock|]. intros keyHash.
  apply preserves_bind; [apply bucket_index_lock|]. intros i.
  apply preserves_bind; [apply on_bucket_lock|]. intros r.
  apply preserves_bind; [|intros _; apply preserves_ret].
  apply preserves_if; [|apply preserves_ret].
  apply preserves_bind; [apply AddPairTotal_lock|]. intros newTotal.
  apply preserves_bind; [apply on_bucket_lock|]. intros sz.
  apply preserves_bind; [apply redistribute_lock|]. intros _.
  apply preserves_ret.
Qed.

(** [Put] never returns: its second [Lock] finds the mutex held. *)
Lemma segment_Put_never_returns (fuel : nat) (p : option addr) (st : sstate) :
  returned (segment_Put fuel p st) = None.
Proof.
  unfold segment_Put. apply bind_not_Done_or. intros r st1 Hbody.
  pose proof (segment_Put_body_lock fuel p st) as Hb. rewrite Hbody in Hb.
  unfold bind. rewrite (Lock_blocks st1 Hb). reflexivity.
Qed.

(** C1, as the code has it.  [segment.Put] never returns and never
    releases the mutex: whatever the segment and the pair, the state the
    call leaves behind has the mutex held; and when lines 66 to 72 run to
    their end with result [r], the call parks on the second [Lock] of line
    73 in exactly the state those lines produced.  The claim describes an
    [Unlock] at that place, which is what the sibling [Delete] has. *)
Theorem segment_Put_keeps_lock (fuel : nat) (p : option addr) (st : sstate) :
  returned (segment_Put fuel p st) = None /\
  lock_of (final_state (segment_Put fuel p st)) = true /\
  (forall r st1, segment_Put_body fuel p st = Done r st1 ->
                 segment_Put fuel p st = Blocks st1 /\ lock_of st1 = true).
Proof.
  pose proof (segment_Put_body_lock fuel p st) as Hb.
  assert (Hpark : forall r st1, segment_Put_body fuel p st = Done r st1 ->
                                segment_Put fuel p st = Blocks st1 /\ lock_of st1 = true).
  { intros r st1 Hbody. rewrite Hbody in Hb. simpl in Hb. split; [|exact Hb].
    unfold segment_Put. rewrite (bind_Done _ _ _ _ _ Hbody).
    unfold bind. rewrite (Lock_blocks st1 Hb). reflexivity. }
  split; [|split; [|exact Hpark]].
  - destruct (segment_Put_body fuel p st) as [r st1| | |] eqn:Hbody.
    + destruct (Hpark r st1 eq_refl) as [-> _]. reflexivity.
    + unfold segment_Put, bind. rewrite Hbody. reflexivity.
    + unfold segment_Put, bind. rewrite Hbody. reflexivity.
    + unfold segment_Put, bind. rewrite Hbody. reflexivity.
  - destruct (segment_Put_body fuel p st) as [r st1| | |] eqn:Hbody.
    + destruct (Hpark r st1 eq_refl) as [-> H]. exact H.
    + unfold segment_Put, bind. rewrite Hbody. exact Hb.
    + unfold segment_Put, bind. rewrite Hbody. exact Hb.
    + unfold segment_Put, bind. rewrite Hbody. exact Hb.
Qed.

(** [Delete], the sibling of [Put], ends with [Unlock]: a call that
    returns has released the mutex. *)
Lemma segment_Delete_releases (fuel : nat) (k : string) (st st' : sstate) (ok : bool) :
  segment_Delete fuel k st = Done ok st' -> lock_of st' = false.
Proof.
  unfold segment_Delete. intros E.
  apply bind_inv in E as (? & st1 & _ & E).
  apply bind_inv in E as (i & st2 & _ & E).
  apply bind_inv in E as (ok' & st3 & _ & E).
  apply bind_inv in E as (? & st4 & _ & E).
  apply bind_inv in E as (? & st5 & HU & E).
  unfold ret in E. inversion E; subst.
  unfold Unlock in HU. destruct (lock (fst st4)); inversion HU. reflexivity.
Qed.

Lemma set_bucket_same (i : nat) (s : segment) :
  set_bucket i (default newBucket (buckets s !! i)) s = s.
Proof.
  destruct s as [bs n t r l]. unfold set_bucket. simpl. f_equal.
  destruct (bs !! i) as [b|] eqn:E; simpl.
  - apply list_insert_id. exact E.
  - apply list_insert_ge. apply lookup_ge_None. exact E.
Qed.


(** ** Faults of the redistributor *)

Lemma on_world_segment {A} (m : M world A) : preserves fst (on_world m).
Proof. apply preserves_zoom. reflexivity. Qed.

(** What a method of the redistributor leaves of the segment: every field
    but the buckets, and the number of buckets. *)
Lemma on_array_fields {A} (m : M (list bucket * world) A) (st : sstate) :
  in_place m ->
  bucketsLen (fst (final_state (on_array m st))) = bucketsLen (fst st) /\
  length (buckets (fst (final_state (on_array m st)))) = length (buckets (fst st)) /\
  pairTotal (fst (final_state (on_array m st))) = pairTotal (fst st) /\
  pairRedistributor (fst (final_state (on_array m st))) = pairRedistributor (fst st) /\
  lock (fst (final_state (on_array m st))) = lock (fst st).
Proof.
  intros Hm. unfold on_array, zoom.
  pose proof (Hm (buckets (fst st), snd st)) as Hlen.
  destruct (m (buckets (fst st), snd st));
    cbn [final_state fst snd set_buckets buckets bucketsLen pairTotal pairRedistributor lock]
      in *;
    repeat split; exact Hlen.
Qed.

(** A method that writes no bucket leaves the segment record alone. *)
Lemma on_array_kept {A} (m : M (list bucket * world) A) (st : sstate) :
  fst (final_state (m (buckets (fst st), snd st))) = buckets (fst st) ->
  fst (final_state (on_array m st)) = fst st.
Proof.
  intros Hk. unfold on_array, zoom.
  destruct (m (buckets (fst st), snd st));
    cbn [final_state fst snd] in *; unfold set_buckets; rewrite Hk;
    destruct (fst st); reflexivity.
Qed.

(** A panic leaves [redistribute]'s body before the array is swapped.  The
    fields of the segment are those the body started with, and so is the
    number of buckets; the buckets themselves are as the redistributor left
    them, which is as they were when it had written none. *)
Lemma redistribute_body_panics (pairTotal' bucketSize : Z) (st st' : sstate)
    (v : panic_value) :
  redistribute_body pairTotal' bucketSize st = Panics v st' ->
  bucketsLen (fst st') = bucketsLen (fst st) /\
  length (buckets (fst st')) = length (buckets (fst st)) /\
  pairTotal (fst st') = pairTotal (fst st) /\
  pairRedistributor (fst st') = pairRedistributor (fst st) /\
  lock (fst st') = lock (fst st) /\
  (faults_cleanly (pairRedistributor (fst st)) (buckets (fst st)) -> fst st' = fst st).
Proof.
  unfold redistribute_body, bind, gets. cbn [fst].
  pose proof (on_array_fields (UpdateThreshold (pairRedistributor (fst st)) pairTotal' (bucketsLen (fst st))) st
                (UpdateThreshold_in_place _ _ _)) as (F1 & F2 & F3 & F4 & F5).
  pose proof (on_array_kept (UpdateThreshold (pairRedistributor (fst st)) pairTotal' (bucketsLen (fst st))) st) as K1.
  destruct (on_array (UpdateThreshold (pairRedistributor (fst st)) pairTotal' (bucketsLen (fst st))) st)
    as [[] s1|v1 s1|s1|s1]; cbn [final_state] in *; try discriminate.
  2:{ intros E. inversion E; subst. repeat split; try assumption.
      intros (Hu & _ & _). apply K1, Hu. }
  pose proof (on_array_fields (CheckBucketStatus (pairRedistributor (fst st)) pairTotal' bucketSize) s1
                (CheckBucketStatus_in_place _ _ _)) as (G1 & G2 & G3 & G4 & G5).
  pose proof (on_array_kept (CheckBucketStatus (pairRedistributor (fst st)) pairTotal' bucketSize) s1) as K2.
  destruct (on_array (CheckBucketStatus (pairRedistributor (fst st)) pairTotal' bucketSize) s1)
    as [status s2|v2 s2|s2|s2]; cbn [final_state] in *; try discriminate.
  2:{ intros E. inversion E; subst. repeat split; try congruence.
      intros (Hu & Hc & _). specialize (K1 (Hu _ _ _)).
      rewrite <- K1. apply K2. rewrite K1. apply Hc. }
  pose proof (on_array_fields (Redistribe (pairRedistributor (fst st)) status) s2 (Redistribe_in_place _ _))
    as (R1 & R2 & R3 & R4 & R5).
  pose proof (on_array_kept (Redistribe (pairRedistributor (fst st)) status) s2) as K3.
  unfold on_array, zoom in R1, R2, R3, R4, R5, K3 |- *.
  destruct (Redistribe (pairRedistributor (fst st)) status (buckets (fst s2), snd s2))
    as [r bw|v3 bw|bw|bw] eqn:HR; cbn [final_state] in *; try discriminate.
  - destruct (snd r); discriminate.
  - intros E. inversion E; subst. clear E.
    repeat split; try congruence.
    intros (Hu & Hc & Hr). specialize (K1 (Hu _ _ _)).
    rewrite K1 in K2. specialize (K2 (Hc _ _ _)).
    assert (Hs2 : fst s2 = fst st) by congruence.
    rewrite <- Hs2. apply K3. rewrite Hs2.
    apply (Hr status (snd s2) v bw). rewrite Hs2 in HR. exact HR.
Qed.

Lemma on_bucket_Size (i : nat) (st : sstate) :
  on_bucket i bucket_Size st
  = Done (bsize (default newBucket (buckets (fst st) !! i))) st.
Proof.
  destruct st as [s [h e]]. unfold on_bucket, zoom, bucket_Size, gets.
  cbn [fst snd pairs env]. rewrite set_bucket_same. reflexivity.
Qed.

Lemma Unlock_held (st : sstate) :
  lock_of st = true -> Unlock st = Done tt (set_lock false (fst st), snd st).
Proof. unfold Unlock, lock_of. intros ->. reflexivity. Qed.

(** C5, as the code has it.  A panic raised by the redistributor inside
    [redistribute] is caught there and becomes the PairRedistributorError
    that [redistribute] returns, carrying the text of the panic.  The array
    is not swapped: recorded length, number of buckets, pair total,
    redistributor and mutex of the segment are those from before the call.
    The buckets are as the redistributor left them when it panicked; when
    it had written none of them by then, the segment record is exactly the
    one from before the call.  (The pairs are in the
    world, where every call of the redistributor may have relinked them.)
    [Delete] does not hand the error on: a [Delete] whose chain removal
    succeeded and whose [redistribute] failed this way still returns true,
    with the mutex released. *)
Theorem redistribution_failure_contained (pairTotal' bucketSize : Z)
    (st st' : sstate) (v : panic_value) :
  redistribute_body pairTotal' bucketSize st = Panics v st' ->
  redistribute pairTotal' bucketSize st
  = Done (Some (PairRedistributorError
                  ("concurrent map: failing pair redistribution: " +:+ panic_text v)))
         st' /\
  bucketsLen (fst st') = bucketsLen (fst st) /\
  length (buckets (fst st')) = length (buckets (fst st)) /\
  pairTotal (fst st') = pairTotal (fst st) /\
  pairRedistributor (fst st') = pairRedistributor (fst st) /\
  lock (fst st') = lock (fst st) /\
  (faults_cleanly (pairRedistributor (fst st)) (buckets (fst st)) -> fst st' = fst st) /\
  (forall (fuel : nat) (k : string) (s0 s1 s2 : sstate) (i : nat),
      Lock s0 = Done tt s1 ->
      bucket_index (hash k) s1 = Done i s1 ->
      on_bucket i (bucket_Delete fuel k None) s1 = Done true s2 ->
      pairTotal' = AddUint64 (pairTotal (fst s2)) MaxUint64 ->
      bucketSize = bsize (default newBucket (buckets (fst s2) !! i)) ->
      st = (set_pairTotal pairTotal' (fst s2), snd s2) ->
      segment_Delete fuel k s0 = Done true (set_lock false (fst st'), snd st')).
Proof.
  intros Hbody.
  destruct (redistribute_body_panics _ _ _ _ _ Hbody)
    as (Hn & Hlen & Hpt' & Hpr & Hlock & Hclean).
  assert (Hred : redistribute pairTotal' bucketSize st
                 = Done (Some (newPairRedistributorError (panic_text v))) st').
  { unfold redistribute, recover. rewrite Hbody. reflexivity. }
  split; [exact Hred|]. split; [exact Hn|]. split; [exact Hlen|].
  split; [exact Hpt'|]. split; [exact Hpr|]. split; [exact Hlock|].
  split; [exact Hclean|].
  intros fuel k s0 s1 s2 i HL Hi Hdel Hpt Hbs Hst.
  assert (Hl1 : lock_of s1 = true).
  { pose proof (Lock_held s0) as H. rewrite HL in H. exact H. }
  assert (Hl2 : lock_of s2 = true).
  { pose proof (on_bucket_lock i (bucket_Delete fuel k None) s1) as H.
    rewrite Hdel in H. simpl in H. congruence. }
  assert (Hl3 : lock_of st' = true).
  { unfold lock_of. rewrite Hlock, Hst. exact Hl2. }
  unfold segment_Delete.
  mstep ltac:(exact HL).
  mstep ltac:(exact Hi).
  mstep ltac:(exact Hdel).
  mstep ltac:(
    mstep ltac:(unfold AddPairTotal; reflexivity);
    mstep ltac:(apply on_bucket_Size);
    cbn [fst snd set_pairTotal buckets];
    rewrite <- Hpt, <- Hbs, <- Hst;
    mstep ltac:(exact Hred);
    reflexivity).
  mstep ltac:(apply Unlock_held; exact Hl3).
  reflexivity.
Qed.

End SegmentProperties.

Section MapProperties.
Context {Ext : Externals} {Ops : RedistributorOps}.

(** ** Routing of keys to segments *)

(** C4. On a constructed map (concurrency at least 1, one segment per unit
    of concurrency) and for every 64-bit hash, [findSegment] selects the
    segment the specification describes: segment 0 when the concurrency is
    1, otherwise the segment at (fold32(hash) >> 16) mod (concurrency - 1),
    where fold32 takes the upper 32 bits of a hash above the largest 32-bit
    value and the low 32 bits otherwise.  The call returns that index,
    the index is in range, and the state is untouched. *)
Theorem findSegment_routing (m : cmap) (w : world) (keyHash : Z) :
  1 <= concurrency m ->
  concurrency m = Z.of_nat (length (segments m)) ->
  0 <= keyHash < 2 ^ 64 ->
  findSegment_index (concurrency m) keyHash = spec_route (concurrency m) keyHash /\
  findSegment keyHash (m, w)
  = Done (Z.to_nat (spec_route (concurrency m) keyHash)) (m, w) /\
  is_Some (segments m !! Z.to_nat (spec_route (concurrency m) keyHash)).
Proof.
  intros Hc Hlen Hk.
  pose proof (findSegment_index_spec _ _ Hc Hk) as Hspec.
  pose proof (spec_route_range _ _ Hc Hk) as Hr.
  split; [exact Hspec|]. split.
  - unfold findSegment, bind, gets, ret, panic. simpl.
    rewrite Hspec.
    destruct (spec_route (concurrency m) keyHash <? 0) eqn:E1; [lia|].
    destruct (Z.of_nat (length (segments m)) <=? spec_route (concurrency m) keyHash) eqn:E2;
      [lia|].
    reflexivity.
  - apply lookup_lt_is_Some. lia.
Qed.

(** ** Put on the map *)

Lemma returned_bind_Done {S A B} (m : M S A) (k : A -> M S B) (s s' : S) (a : A) :
  m s = Done a s' -> returned (k a s') = None -> returned (bind m k s) = None.
Proof. intros E Hk. rewrite (bind_Done _ _ _ _ _ E). exact Hk. Qed.

Lemma on_cpairs_Done {A} (m : M (list pair) A) (c : cmap) (w : world) (h' : heap) (a : A) :
  m (pairs w) = Done a h' ->
  on_cpairs m (c, w) = Done a (c, {| pairs := h'; env := env w |}).
Proof. intros E. unfold on_cpairs, zoom. simpl. rewrite E. reflexivity. Qed.

Lemma on_segment_not_returned {A} (i : nat) (m : M sstate A) (st : cstate) :
  (forall s, returned (m s) = None) -> returned (on_segment i m st) = None.
Proof.
  intros Hm. unfold on_segment, zoom.
  destruct (segments (fst st) !! i) as [s|]; [|reflexivity].
  specialize (Hm (s, snd st)). destruct (m (s, snd st)); simpl in *; congruence.
Qed.

(** [Put] on the map with an element that is not nil never returns, on
    any map state: the call reaches [segment.Put], which never returns.  So
    no call of [Put] ever reports (true, nil), and a property that starts
    from such a report has no call to apply to. *)
Lemma cmap_Put_never_returns (fuel : nat) (k : string) (e : Elem) (st : cstate) :
  returned (cmap_Put fuel k (Some e) st) = None.
Proof.
  destruct st as [c w]. unfold cmap_Put.
  eapply returned_bind_Done; [apply on_cpairs_Done, newPair_Some|]. cbn [snd fst].
  eapply returned_bind_Done; [apply on_cpairs_Done; reflexivity|]. cbn [pairs env].
  eapply returned_bind_Done.
  { apply on_cpairs_Done. cbn [pairs]. apply deref_Some.
    rewrite lookup_app_r by lia. rewrite Nat.sub_diag. reflexivity. }
  cbn [pairs env khash].
  apply bind_not_Done_or. intros i st1 _.
  apply bind_not_Done. apply on_segment_not_returned.
  intros s. apply segment_Put_never_returns.
Qed.

(** C6. [Put] on the map with a nil element returns (false, an
    IllegalParameterError) on every map state.  The map record, and with it
    [Len], every segment, bucket and counter, is unchanged, and so is the
    redistributor state; the heap has one more cell, the pair [newPair]
    allocated before testing the element, which nothing refers to: every
    old cell and every chain of the old heap is as before. *)
Theorem cmap_Put_nil_element (fuel : nat) (k : string) (c : cmap) (w : world) :
  let w' := {| pairs := pairs w ++ [{| key := k; khash := hash k;
                                       element := None; next := None |}];
               env := env w |} in
  cmap_Put fuel k None (c, w)
  = Done (false, Some (IllegalParameterError
                         "concurrent map: illegal parameter: element is nil"))
         (c, w') /\
  returned (cmap_Len (c, w')) = returned (cmap_Len (c, w)) /\
  (forall a p, pairs w !! a = Some p -> pairs w' !! a = Some p) /\
  (forall v l, chain (pairs w) v l ->
               chain (pairs w') v l /\ entries (pairs w') l = entries (pairs w) l).
Proof.
  cbv zeta. split; [reflexivity|]. split; [reflexivity|]. split.
  - intros a p Hp. cbn [pairs]. rewrite lookup_app_l; [exact Hp|].
    eapply lookup_lt_Some; eassumption.
  - intros v l Hc. cbn [pairs]. split.
    + apply chain_extend. exact Hc.
    + apply entries_extend. eapply chain_allocated; eassumption.
Qed.

(** ** Get on the map *)

Lemma bucket_Get_pure (fuel : nat) (k : string) (bs : bstate) :
  final_state (bucket_Get fuel k bs) = bs.
Proof.
  destruct bs as [b h]. unfold bucket_Get, bind, gets. simpl.
  destruct (GetFirstPair b) as [firstPair|]; [|reflexivity].
  unfold on_heap, zoom. simpl.
  pose proof (find_pair_heap fuel k h (Some firstPair)) as Hh.
  destruct (find_pair fuel (Some firstPair) k h); simpl in *; congruence.
Qed.

Lemma on_bucket_Get_pure (fuel : nat) (k : string) (i : nat) (st : sstate) :
  final_state (on_bucket i (bucket_Get fuel k) st) = st.
Proof.
  destruct st as [s [h e]]. unfold on_bucket, zoom. cbn [fst snd pairs env].
  pose proof (bucket_Get_pure fuel k (default newBucket (buckets s !! i), h)) as Hb.
  destruct (bucket_Get fuel k (default newBucket (buckets s !! i), h)) as [a bh|v bh|bh|bh];
    simpl in Hb |- *; subst bh; cbn [fst snd]; rewrite set_bucket_same; reflexivity.
Qed.

Lemma bucket_index_pure (keyHash : Z) (st st' : sstate) (i : nat) :
  bucket_index keyHash st = Done i st' -> st' = st.
Proof.
  unfold bucket_index, bind, gets, panic, ret. simpl.
  destruct (wrap64 (bucketsLen (fst st)) =? 0); [discriminate|].
  destruct (_ || _); [discriminate|]. congruence.
Qed.

Lemma segment_GetWithHash_pure (fuel : nat) (k : string) (keyHash : Z)
    (st st' : sstate) (r : option addr) :
  segment_GetWithHash fuel k keyHash st = Done r st' -> st' = st.
Proof.
  unfold segment_GetWithHash. intros E.
  apply bind_inv in E as ([] & st1 & HL & E).
  apply bind_inv in E as (i & st2 & Hi & E).
  apply bind_inv in E as ([] & st3 & HU & E).
  apply bucket_index_pure in Hi. subst st2.
  pose proof (on_bucket_Get_pure fuel k i st3) as Hg. rewrite E in Hg. simpl in Hg.
  subst st'.
  destruct st as [s w]. unfold Lock in HL. cbn [fst snd] in HL.
  destruct (lock s) eqn:Hlock; [discriminate|]. inversion HL; subst st1.
  unfold Unlock in HU. cbn [fst snd set_lock lock] in HU. inversion HU; subst st3.
  f_equal. destruct s. simpl in Hlock. subst. reflexivity.
Qed.

Lemma findSegment_pure (keyHash : Z) (st st' : cstate) (i : nat) :
  findSegment keyHash st = Done i st' -> st' = st.
Proof.
  unfold findSegment, bind, gets, panic, ret. simpl.
  destruct (_ || _); [discriminate|]. congruence.
Qed.

Lemma on_segment_pure {A} (i : nat) (m : M sstate A) (st st' : cstate) (a : A) :
  (forall s s' x, m s = Done x s' -> s' = s) ->
  on_segment i m st = Done a st' -> st' = st.
Proof.
  intros Hm. unfold on_segment, zoom. destruct st as [c w]. cbn [fst snd].
  destruct (segments c !! i) as [s|] eqn:Hs; [|discriminate].
  destruct (m (s, w)) as [x sw| | |] eqn:E; try discriminate.
  intros Heq. inversion Heq; subst. apply Hm in E. subst sw. cbn [fst snd].
  f_equal. destruct c as [n segs t]. unfold set_segment. simpl in *.
  f_equal. apply list_insert_id. exact Hs.
Qed.


Lemma set_segment_same (i : nat) (s : segment) (c : cmap) :
  segments c !! i = Some s -> set_segment i s c = c.
Proof.
  intros Hs. destruct c as [n segs t]. unfold set_segment. simpl in *.
  f_equal. apply list_insert_id. exact Hs.
Qed.






(** ** The constructor *)

Lemma newSegment_fresh (pr : option PairRedistributor) (w : world) :
  0 <= DEFAULT_BUCKET_NUMBER ->
  (pr = None ->
   forall w1, is_Some (returned (newDefaultPairRedistributor DEFAULT_BUCKET_LOAD_FACTOR
                                   DEFAULT_BUCKET_NUMBER w1))) ->
  exists s w',
    newSegment DEFAULT_BUCKET_NUMBER pr w = Done s w' /\
    fresh_segment pr s /\ (is_Some pr -> w' = w).
Proof.
  intros Hn Hdef. unfold newSegment.
  assert (Hneg : (DEFAULT_BUCKET_NUMBER <? 0) = false) by lia.
  rewrite Hneg. destruct pr as [r|].
  - eexists _, w. unfold bind, ret. rewrite Hneg.
    split; [reflexivity|]. split; [|reflexivity].
    repeat split.
  - specialize (Hdef eq_refl w). unfold bind.
    destruct (newDefaultPairRedistributor DEFAULT_BUCKET_LOAD_FACTOR
                DEFAULT_BUCKET_NUMBER w) as [r w1| | |] eqn:E;
      try (destruct Hdef; discriminate).
    rewrite Hneg. eexists _, w1. split; [reflexivity|]. split.
    + repeat split. simpl. exists w. rewrite E. reflexivity.
    + intros [? ?]. discriminate.
Qed.

Lemma new_segments_fresh (pr : option PairRedistributor) (n : nat) :
  0 <= DEFAULT_BUCKET_NUMBER ->
  (pr = None ->
   forall w1, is_Some (returned (newDefaultPairRedistributor DEFAULT_BUCKET_LOAD_FACTOR
                                   DEFAULT_BUCKET_NUMBER w1))) ->
  forall w, exists segs w',
    new_segments n pr w = Done segs w' /\
    length segs = n /\ Forall (fresh_segment pr) segs /\ (is_Some pr -> w' = w).
Proof.
  intros Hn Hdef. induction n as [|n IH]; intros w.
  - exists [], w. repeat split; constructor.
  - destruct (newSegment_fresh pr w Hn Hdef) as (s & w1 & Hs & Hf & Hw1).
    destruct (IH w1) as (segs & w2 & Hsegs & Hlen & Hall & Hw2).
    exists (s :: segs), w2. simpl. unfold bind. rewrite Hs, Hsegs.
    split; [reflexivity|]. split; [simpl; lia|]. split; [constructor; assumption|].
    intros Hpr. rewrite (Hw2 Hpr). apply Hw1. exact Hpr.
Qed.

(** The segments of a new map are empty. *)
Lemma fresh_segment_empty (pr : option PairRedistributor) (s : segment) :
  fresh_segment pr s -> empty_segment s.
Proof.
  intros (Hb & _ & Ht & _). split; [|exact Ht].
  rewrite Hb. apply Forall_replicate. split; reflexivity.
Qed.

(** C8. [NewConcurrentMap] returns an IllegalParameterError whenever the
    concurrency is at most 0 or above [MAX_CONCURRENCY], and only then.
    For a concurrency from 1 to [MAX_CONCURRENCY] (the default bucket
    number being a length, and the constructor of the default redistributor
    returning when it is needed) it returns a map with that concurrency and
    exactly that many segments, each with [DEFAULT_BUCKET_NUMBER] empty
    buckets and the given redistributor, or a default one when none is
    given. *)
Theorem NewConcurrentMap_spec (c : Z) (pr : option PairRedistributor) (w : world) :
  ((c <= 0 \/ MAX_CONCURRENCY < c) ->
   exists msg, NewConcurrentMap c pr w = Done (None, Some (IllegalParameterError msg)) w)
  /\
  (forall r e w', NewConcurrentMap c pr w = Done (r, Some e) w' ->
                  c <= 0 \/ MAX_CONCURRENCY < c)
  /\
  (1 <= c <= MAX_CONCURRENCY ->
   0 <= DEFAULT_BUCKET_NUMBER ->
   (pr = None ->
    forall w1, is_Some (returned (newDefaultPairRedistributor DEFAULT_BUCKET_LOAD_FACTOR
                                    DEFAULT_BUCKET_NUMBER w1))) ->
   exists m w',
     NewConcurrentMap c pr w = Done (Some m, None) w' /\
     concurrency m = c /\
     Z.of_nat (length (segments m)) = c /\
     total m = 0 /\
     Forall (fresh_segment pr) (segments m) /\
     (is_Some pr -> w' = w)).
Proof.
  unfold NewConcurrentMap. split; [|split].
  - intros Hc. destruct (c <=? 0) eqn:E1; [eexists; reflexivity|].
    destruct (c >? MAX_CONCURRENCY) eqn:E2; [eexists; reflexivity|]. lia.
  - intros r e w' E.
    destruct (c <=? 0) eqn:E1; [lia|].
    destruct (c >? MAX_CONCURRENCY) eqn:E2; [lia|].
    apply bind_inv in E as (segs & w1 & _ & E). inversion E.
  - intros Hc Hn Hdef.
    destruct (c <=? 0) eqn:E1; [lia|].
    destruct (c >? MAX_CONCURRENCY) eqn:E2; [lia|].
    destruct (new_segments_fresh pr (Z.to_nat c) Hn Hdef w)
      as (segs & w' & Hsegs & Hlen & Hall & Hw).
    eexists _, w'. unfold bind. rewrite Hsegs.
    split; [reflexivity|]. simpl. repeat split; try assumption. lia.
Qed.

(** ** The last segment *)

Lemma stable_ret {S A} (P : S -> Prop) (a : A) : stable P (ret a).
Proof. intros s Hs. exact Hs. Qed.

Lemma stable_bind_dep {S A B} (P : S -> Prop) (m : M S A) (k : A -> M S B) :
  stable P m ->
  (forall s a s', P s -> m s = Done a s' -> P (final_state (k a s'))) ->
  stable P (bind m k).
Proof.
  intros Hm Hk s Hs. rewrite final_bind. specialize (Hm s Hs).
  destruct (m s) as [a s'| | |] eqn:E; simpl in *; try exact Hm.
  eapply Hk; eassumption.
Qed.

Lemma stable_bind {S A B} (P : S -> Prop) (m : M S A) (k : A -> M S B) :
  stable P m -> (forall a, stable P (k a)) -> stable P (bind m k).
Proof.
  intros Hm Hk. apply stable_bind_dep; [exact Hm|].
  intros s a s' Hs E. apply Hk. specialize (Hm s Hs). rewrite E in Hm. exact Hm.
Qed.

Lemma stable_zoom {S T A} (P : T -> Prop) (get : T -> S) (set : S -> T -> T) (m : M S A) :
  (forall s t, P t -> P (set s t)) -> stable P (zoom get set m).
Proof. intros Hset t Ht. unfold zoom. destruct (m (get t)); simpl; apply Hset, Ht. Qed.

Lemma on_cpairs_last {A} (c : Z) (x : option segment) (m : M (list pair) A) :
  stable (last_segment_is c x) (on_cpairs m).
Proof. apply stable_zoom. intros h t Ht. exact Ht. Qed.

Lemma AddTotal_last (c : Z) (x : option segment) (d : Z) :
  stable (last_segment_is c x) (AddTotal d).
Proof. intros st Hst. exact Hst. Qed.

Lemma findSegment_last (c : Z) (x : option segment) (keyHash : Z) :
  stable (last_segment_is c x) (findSegment keyHash).
Proof.
  intros st Hst. unfold findSegment, bind, gets, panic, ret. simpl.
  destruct (_ || _); exact Hst.
Qed.

Lemma findSegment_index_of (keyHash : Z) (st st' : cstate) (i : nat) :
  findSegment keyHash st = Done i st' ->
  Z.of_nat i = findSegment_index (concurrency (fst st)) keyHash.
Proof.
  unfold findSegment, bind, gets, panic, ret. simpl.
  destruct (_ <? 0) eqn:E1; [discriminate|].
  destruct (_ <=? _) eqn:E2; [discriminate|]. simpl.
  intros E. inversion E; subst. lia.
Qed.

(** A segment method run on a segment other than the last one leaves the
    last one alone. *)
Lemma on_segment_last {A} (c : Z) (x : option segment) (i : nat) (m : M sstate A) :
  i <> Z.to_nat (c - 1) ->
  stable (last_segment_is c x) (on_segment i m).
Proof.
  intros Hi st (Hc & Hlen & Hlast). unfold on_segment.
  destruct (segments (fst st) !! i) as [s|]; [|repeat split; assumption].
  unfold zoom. assert (Hset : forall sw, last_segment_is c x (set_segment i (fst sw) (fst st), snd sw)).
  { intros sw. unfold last_segment_is, set_segment. simpl.
    rewrite length_insert, list_lookup_insert_ne by exact Hi. auto. }
  destruct (m (s, snd st)); simpl; apply Hset.
Qed.

Lemma routed_before_last (c : Z) (x : option segment) (keyHash : Z)
    (st st' : cstate) (i : nat) :
  1 < c ->
  last_segment_is c x st ->
  findSegment keyHash st = Done i st' ->
  i <> Z.to_nat (c - 1).
Proof.
  intros Hc (Hcc & _) E. apply findSegment_index_of in E. rewrite Hcc in E.
  pose proof (findSegment_index_range c keyHash Hc). lia.
Qed.

Lemma step_last (c : Z) (x : option segment) (fuel : nat) (o : op) (st : cstate) :
  1 < c ->
  last_segment_is c x st ->
  last_segment_is c x (step fuel o st).
Proof.
  intros Hc. revert st. destruct o as [k e|k|k]; simpl.
  - change (stable (last_segment_is c x) (cmap_Put fuel k e)).
    unfold cmap_Put. apply stable_bind; [apply on_cpairs_last|]. intros r.
    destruct (snd r); [apply stable_ret|].
    apply stable_bind; [apply on_cpairs_last|]. intros a.
    apply stable_bind; [apply on_cpairs_last|]. intros keyHash.
    apply stable_bind_dep; [apply findSegment_last|]. intros s i s' Hs Hi.
    assert (Hs' : last_segment_is c x s').
    { pose proof (findSegment_last c x keyHash s Hs) as H. rewrite Hi in H. exact H. }
    revert s' Hs' Hi. intros s' Hs' Hi. revert Hs'.
    change (last_segment_is c x s' -> last_segment_is c x (final_state
      ((res <- on_segment i (segment_Put fuel (fst r));;
        (if fst res then AddTotal 1 else ret tt);;; ret res) s'))).
    apply (stable_bind (last_segment_is c x)).
    + apply on_segment_last. eapply routed_before_last; eassumption.
    + intros res. apply stable_bind; [|intros _; apply stable_ret].
      destruct (fst res); [apply AddTotal_last | apply stable_ret].
  - change (stable (last_segment_is c x) (cmap_Get fuel k)).
    unfold cmap_Get. apply stable_bind_dep; [apply findSegment_last|].
    intros s i s' Hs Hi.
    assert (Hs' : last_segment_is c x s').
    { pose proof (findSegment_last c x (hash k) s Hs) as H. rewrite Hi in H. exact H. }
    revert Hs'.
    change (last_segment_is c x s' -> last_segment_is c x (final_state
      ((pair' <- on_segment i (segment_GetWithHash fuel k (hash k));;
        match pair' with
        | Some a => on_cpairs (Element a)
        | None => ret None
        end) s'))).
    apply (stable_bind (last_segment_is c x)).
    + apply on_segment_last. eapply routed_before_last; eassumption.
    + intros [a|]; [apply on_cpairs_last | apply stable_ret].
  - change (stable (last_segment_is c x) (cmap_Delete fuel k)).
    unfold cmap_Delete. apply stable_bind_dep; [apply findSegment_last|].
    intros s i s' Hs Hi.
    assert (Hs' : last_segment_is c x s').
    { pose proof (findSegment_last c x (hash k) s Hs) as H. rewrite Hi in H. exact H. }
    revert Hs'.
    change (last_segment_is c x s' -> last_segment_is c x (final_state
      ((ok <- on_segment i (segment_Delete fuel k);;
        if ok then (AddTotal MaxUint64;;; ret true) else ret false) s'))).
    apply (stable_bind (last_segment_is c x)).
    + apply on_segment_last. eapply routed_before_last; eassumption.
    + intros [|]; [|apply stable_ret].
      apply stable_bind; [apply AddTotal_last | intros _; apply stable_ret].
Qed.

Lemma run_last (c : Z) (x : option segment) (fuel : nat) (ops : list op) :
  1 < c ->
  forall st, last_segment_is c x st -> last_segment_is c x (run fuel ops st).
Proof.
  intros Hc. unfold run. induction ops as [|o ops IH]; intros st Hst; [exact Hst|].
  simpl. apply IH. apply step_last; assumption.
Qed.

(** C10. On a map built with concurrency [c] above 1, every hash is routed
    to an index from 0 to [c - 2]; and after any sequence of Put, Get and
    Delete calls, whatever their outcomes, the map still has concurrency
    [c] and [c] segments and its last segment is the very segment it
    started with, so an empty last segment stays empty. *)
Theorem last_segment_never_selected (fuel : nat) (ops : list op) (m : cmap) (w : world) :
  1 < concurrency m ->
  concurrency m = Z.of_nat (length (segments m)) ->
  (forall keyHash,
      0 <= findSegment_index (concurrency m) keyHash <= concurrency m - 2) /\
  (forall keyHash i st', findSegment keyHash (m, w) = Done i st' ->
                         (i < Z.to_nat (concurrency m - 1))%nat) /\
  let m' := fst (run fuel ops (m, w)) in
  concurrency m' = concurrency m /\
  length (segments m') = length (segments m) /\
  segments m' !! Z.to_nat (concurrency m - 1)
  = segments m !! Z.to_nat (concurrency m - 1) /\
  (forall s, segments m !! Z.to_nat (concurrency m - 1) = Some s ->
             empty_segment s ->
             exists s', segments m' !! Z.to_nat (concurrency m - 1) = Some s' /\
                        empty_segment s').
Proof.
  intros Hc Hlen. split; [|split].
  - intros keyHash. apply findSegment_index_range. exact Hc.
  - intros keyHash i st' E. apply findSegment_index_of in E. simpl in E.
    pose proof (findSegment_index_range (concurrency m) keyHash Hc). lia.
  - cbv zeta.
    pose proof (run_last (concurrency m)
                  (segments m !! Z.to_nat (concurrency m - 1)) fuel ops Hc (m, w))
      as (H1 & H2 & H3).
    { repeat split. simpl. lia. }
    split; [exact H1|]. split; [lia|]. split; [exact H3|].
    intros s Hs He. exists s. rewrite H3. auto.
Qed.

End MapProperties.

Section SegmentBehaviour.
Context {Ext : Externals} {Ops : RedistributorOps}.

(** ** More on segments *)

(** *** The length of the bucket array *)

Lemma stable_recover {S A} (P : S -> Prop) (m : M S A) (handler : panic_value -> A) :
  stable P m -> stable P (recover m handler).
Proof.
  intros Hm s Hs. unfold recover. specialize (Hm s Hs). destruct (m s); exact Hm.
Qed.

Lemma stable_gets {S A} (P : S -> Prop) (g : S -> A) : stable P (gets g).
Proof. intros s Hs. exact Hs. Qed.

Lemma stable_panic {S A} (P : S -> Prop) (v : panic_value) : stable P (panic (A := A) v).
Proof. intros s Hs. exact Hs. Qed.

Lemma on_world_len {A} (m : M world A) : stable len_ok (on_world m).
Proof. apply stable_zoom. intros w t Ht. exact Ht. Qed.

(** A method of the redistributor cannot resize the slice of the
    segment. *)
Lemma on_array_len {A} (m : M (list bucket * world) A) :
  in_place m -> stable len_ok (on_array m).
Proof.
  intros Hm st Hst. unfold on_array, zoom, len_ok in *.
  pose proof (Hm (buckets (fst st), snd st)) as Hlen.
  destruct (m (buckets (fst st), snd st));
    cbn [final_state fst snd set_buckets buckets bucketsLen] in *;
    rewrite Hlen; exact Hst.
Qed.

Lemma on_bucket_len {A} (i : nat) (m : M bstate A) : stable len_ok (on_bucket i m).
Proof.
  apply stable_zoom. intros bh t Ht. unfold len_ok in *. simpl.
  rewrite length_insert. exact Ht.
Qed.

Lemma Lock_len : stable len_ok Lock.
Proof. intros st Hst. unfold Lock. destruct (lock (fst st)); exact Hst. Qed.

Lemma Unlock_len : stable len_ok Unlock.
Proof. intros st Hst. unfold Unlock. destruct (lock (fst st)); exact Hst. Qed.

Lemma bucket_index_len (keyHash : Z) : stable len_ok (bucket_index keyHash).
Proof.
  intros st Hst. unfold bucket_index, bind, gets, panic, ret. simpl.
  destruct (wrap64 (bucketsLen (fst st)) =? 0); [exact Hst|].
  destruct (_ || _); exact Hst.
Qed.

Lemma AddPairTotal_len (d : Z) : stable len_ok (AddPairTotal d).
Proof. intros st Hst. exact Hst. Qed.

Lemma redistribute_len (pairTotal' bucketSize : Z) :
  stable len_ok (redistribute pairTotal' bucketSize).
Proof.
  unfold redistribute, redistribute_body. apply stable_recover.
  apply stable_bind; [apply stable_gets|]. intros s.
  apply stable_bind; [apply on_array_len, UpdateThreshold_in_place|]. intros _.
  apply stable_bind; [apply on_array_len, CheckBucketStatus_in_place|]. intros status.
  apply stable_bind; [apply on_array_len, Redistribe_in_place|]. intros r.
  apply stable_bind; [|intros _; apply stable_ret].
  destruct (snd r); [|apply stable_ret].
  intros st _. unfold len_ok. reflexivity.
Qed.

Lemma after_redistribute_len (fuel : nat) (i : nat) (d : Z) :
  stable len_ok
    (newTotal <- AddPairTotal d;;
     sz <- on_bucket i bucket_Size;;
     _ <- redistribute newTotal sz;;
     ret tt).
Proof.
  apply stable_bind; [apply AddPairTotal_len|]. intros newTotal.
  apply stable_bind; [apply on_bucket_len|]. intros sz.
  apply stable_bind; [apply redistribute_len|]. intros _. apply stable_ret.
Qed.

(** X10. The recorded length always is the length of the bucket array.
    [newSegment] returns a segment with [bucketsLen = len(buckets)], and
    [Put], [GetWithHash] and [Delete] keep that equation whatever their
    outcome and whatever the redistributor answers.  On such a segment with
    at least one bucket the bucket index of every hash is computed without
    panic, is the hash modulo the number of buckets, and is inside the
    array. *)
Theorem bucketsLen_is_length (fuel : nat) :
  (forall n pr w s w', newSegment n pr w = Done s w' -> len_ok (s, w')) /\
  (forall p, stable len_ok (segment_Put fuel p)) /\
  (forall k keyHash, stable len_ok (segment_GetWithHash fuel k keyHash)) /\
  (forall k, stable len_ok (segment_Delete fuel k)) /\
  (forall st keyHash,
      len_ok st ->
      0 < bucketsLen (fst st) < 2 ^ 63 ->
      0 <= keyHash ->
      exists i,
        bucket_index keyHash st = Done i st /\
        Z.of_nat i = keyHash mod bucketsLen (fst st) /\
        is_Some (buckets (fst st) !! i)).
Proof.
  split; [|split; [|split; [|split]]].
  - intros n pr w s w' E. unfold newSegment in E.
    apply bind_inv in E as (r & w1 & _ & E).
    destruct (_ <? 0) eqn:Hneg in E; [discriminate|].
    inversion E; subst. unfold len_ok. simpl. rewrite length_replicate. lia.
  - intros p. unfold segment_Put, segment_Put_body.
    apply stable_bind; [|intros r; apply stable_bind; [apply Lock_len|];
                         intros _; apply stable_ret].
    apply stable_bind; [apply Lock_len|]. intros _.
    apply stable_bind; [apply on_world_len|]. intros a.
    apply stable_bind; [apply on_world_len|]. intros keyHash.
    apply stable_bind; [apply bucket_index_len|]. intros i.
    apply stable_bind; [apply on_bucket_len|]. intros r.
    apply stable_bind; [|intros _; apply stable_ret].
    destruct (fst r); [apply (after_redistribute_len fuel) | apply stable_ret].
  - intros k keyHash. unfold segment_GetWithHash.
    apply stable_bind; [apply Lock_len|]. intros _.
    apply stable_bind; [apply bucket_index_len|]. intros i.
    apply stable_bind; [apply Unlock_len|]. intros _.
    apply on_bucket_len.
  - intros k. unfold segment_Delete.
    apply stable_bind; [apply Lock_len|]. intros _.
    apply stable_bind; [apply bucket_index_len|]. intros i.
    apply stable_bind; [apply on_bucket_len|]. intros ok.
    apply stable_bind;
      [|intros _; apply stable_bind; [apply Unlock_len|]; intros _; apply stable_ret].
    destruct ok; [apply (after_redistribute_len fuel) | apply stable_ret].
  - intros st keyHash Hlen Hn Hk. unfold len_ok in Hlen.
    pose proof (Z.mod_pos_bound keyHash (bucketsLen (fst st))) as Hmod.
    exists (Z.to_nat (keyHash mod bucketsLen (fst st))).
    unfold bucket_index, bind, gets, panic, ret. cbn [fst].
    assert (Hw : wrap64 (bucketsLen (fst st)) = bucketsLen (fst st))
      by (unfold wrap64; apply Z.mod_small; lia).
    rewrite Hw.
    assert (Hi : int_of_uint64 (keyHash mod bucketsLen (fst st))
                 = keyHash mod bucketsLen (fst st)).
    { unfold int_of_uint64.
      destruct (keyHash mod bucketsLen (fst st) <? 2 ^ 63) eqn:E; [reflexivity | lia]. }
    rewrite Hi.
    destruct (bucketsLen (fst st) =? 0) eqn:E0; [lia|].
    destruct (keyHash mod bucketsLen (fst st) <? 0) eqn:E1; [lia|].
    destruct (Z.of_nat (length (buckets (fst st))) <=? keyHash mod bucketsLen (fst st))
      eqn:E2; [lia|].
    simpl. split; [reflexivity|]. split; [lia|].
    apply lookup_lt_is_Some. lia.
Qed.

(** X11. A segment without buckets.  When [bucketsLen] is 0 and the mutex
    is free, [GetWithHash] and [Delete], and [Put] of any pair of the heap,
    panic with an integer division by zero after taking the mutex, and the
    panic leaves the mutex held. *)
Theorem no_buckets_panics (fuel : nat) (s : segment) (w : world) :
  lock s = false ->
  bucketsLen s = 0 ->
  (forall k keyHash,
      segment_GetWithHash fuel k keyHash (s, w)
      = Panics divide_by_zero (set_lock true s, w)) /\
  (forall k, segment_Delete fuel k (s, w) = Panics divide_by_zero (set_lock true s, w)) /\
  (forall p pp, pairs w !! p = Some pp ->
                segment_Put fuel (Some p) (s, w)
                = Panics divide_by_zero (set_lock true s, w)).
Proof.
  intros Hlock Hlen.
  assert (HL : Lock (s, w) = Done tt (set_lock true s, w))
    by (unfold Lock; cbn [fst snd]; rewrite Hlock; reflexivity).
  assert (Hidx : forall keyHash,
             bucket_index keyHash (set_lock true s, w)
             = Panics divide_by_zero (set_lock true s, w)).
  { intros keyHash. unfold bucket_index, bind, gets, panic. cbn [fst set_lock bucketsLen].
    rewrite Hlen. reflexivity. }
  split; [|split].
  - intros k keyHash. unfold segment_GetWithHash.
    rewrite (bind_Done _ _ _ _ _ HL). unfold bind. rewrite Hidx. reflexivity.
  - intros k. unfold segment_Delete.
    rewrite (bind_Done _ _ _ _ _ HL). unfold bind. rewrite Hidx. reflexivity.
  - intros p pp Hp. unfold segment_Put, segment_Put_body.
    unfold bind at 1. unfold bind at 1. rewrite HL.
    assert (Hw : {| pairs := pairs w; env := env w |} = w) by (destruct w; reflexivity).
    unfold bind at 1. unfold on_pairs at 1, on_world, zoom, receiver, ret.
    cbn [fst snd]. rewrite Hw.
    unfold bind at 1. unfold on_pairs, on_world, zoom, Hash, deref.
    cbn [fst snd]. rewrite Hp, Hw.
    unfold bind at 1. rewrite Hidx. reflexivity.
Qed.

(** *** Delete and Get on a segment that is not locked *)

Lemma bucket_index_any (keyHash : Z) (s : segment) (w : world) (j : nat) :
  returned (bucket_index keyHash (s, w)) = Some j ->
  forall l w', bucket_index keyHash (set_lock l s, w') = Done j (set_lock l s, w').
Proof.
  unfold bucket_index, bind, gets, panic, ret. cbn [fst set_lock bucketsLen buckets].
  destruct (wrap64 (bucketsLen s) =? 0); [discriminate|].
  destruct (_ || _); [discriminate|]. simpl. intros E l w'. congruence.
Qed.

Lemma on_bucket_Done {A} (j : nat) (m : M bstate A) (s : segment) (w : world)
    (b b' : bucket) (h' : list pair) (a : A) :
  buckets s !! j = Some b ->
  m (b, pairs w) = Done a (b', h') ->
  on_bucket j m (s, w) = Done a (set_bucket j b' s, {| pairs := h'; env := env w |}).
Proof.
  intros Hb E. unfold on_bucket, zoom. cbn [fst snd]. rewrite Hb. simpl.
  rewrite E. reflexivity.
Qed.

Lemma unlock_relock (s : segment) (j : nat) (b : bucket) :
  lock s = false ->
  buckets s !! j = Some b ->
  set_lock false (set_bucket j b (set_lock true s)) = s.
Proof.
  intros Hl Hb. destruct s as [bs n t r l]. simpl in *. subst l.
  unfold set_lock, set_bucket. simpl. f_equal. apply list_insert_id. exact Hb.
Qed.

Lemma world_eta (w : world) : {| pairs := pairs w; env := env w |} = w.
Proof. destruct w; reflexivity. Qed.

Lemma segment_GetWithHash_runs (fuel : nat) (k : string) (keyHash : Z) (s : segment)
    (w : world) (j : nat) (b : bucket) (r : option addr) :
  lock s = false ->
  returned (bucket_index keyHash (s, w)) = Some j ->
  buckets s !! j = Some b ->
  bucket_Get fuel k (b, pairs w) = Done r (b, pairs w) ->
  segment_GetWithHash fuel k keyHash (s, w) = Done r (s, w).
Proof.
  intros Hl Hj Hb Hget. unfold segment_GetWithHash.
  mstep ltac:(unfold Lock; cbn [fst snd]; rewrite Hl; reflexivity).
  mstep ltac:(apply (bucket_index_any _ _ _ _ Hj)).
  mstep ltac:(reflexivity).
  cbn [fst snd set_lock lock].
  erewrite on_bucket_Done; [| cbn [buckets]; exact Hb | exact Hget].
  rewrite world_eta. f_equal. f_equal.
  destruct s as [bs n t rd l]. simpl in *. subst l.
  unfold set_bucket. simpl. f_equal. apply list_insert_id. exact Hb.
Qed.

(** X12. [segment.Delete] of a key that the routed bucket lacks.  On a
    segment whose mutex is free, when the bucket at the index of the hash
    has a chain that ends and holds no pair with the key, [Delete] returns
    false and the segment, the heap and the redistributor state are exactly
    as before: nothing is counted and the redistributor is not called. *)
Theorem segment_Delete_missing_key (fuel : nat) (k : string) (s : segment) (w : world)
    (j : nat) (b : bucket) (l : list addr) :
  lock s = false ->
  returned (bucket_index (hash k) (s, w)) = Some j ->
  buckets s !! j = Some b ->
  chain (pairs w) (GetFirstPair b) l ->
  (length l <= fuel)%nat ->
  Forall (fun a => key_of (pairs w) a <> Some k) l ->
  segment_Delete fuel k (s, w) = Done false (s, w).
Proof.
  intros Hl Hj Hb Hc Hf Hne. unfold segment_Delete.
  mstep ltac:(unfold Lock; cbn [fst snd]; rewrite Hl; reflexivity).
  mstep ltac:(apply (bucket_index_any _ _ _ _ Hj)).
  mstep ltac:(eapply on_bucket_Done;
              [cbn [set_lock buckets]; exact Hb
              | eapply bucket_Delete_absent; try eassumption; discriminate]).
  mstep ltac:(reflexivity).
  mstep ltac:(reflexivity).
  cbn [fst snd]. rewrite world_eta, (unlock_relock s j b Hl Hb). reflexivity.
Qed.

(** *** Counters *)

Lemma redistribute_total (pairTotal' bucketSize : Z) :
  preserves (fun st : sstate => pairTotal (fst st)) (redistribute pairTotal' bucketSize).
Proof.
  unfold redistribute, redistribute_body. apply preserves_recover.
  apply preserves_bind; [apply preserves_gets|]. intros s.
  apply preserves_bind; [apply preserves_zoom; reflexivity|]. intros _.
  apply preserves_bind; [apply preserves_zoom; reflexivity|]. intros status.
  apply preserves_bind; [apply preserves_zoom; reflexivity|]. intros r.
  apply preserves_bind; [|intros _; apply preserves_ret].
  apply preserves_if; [|apply preserves_ret]. intros st. reflexivity.
Qed.

Lemma Done_preserved {S A X} (f : S -> X) (m : M S A) (s s' : S) (a : A) :
  preserves f m -> m s = Done a s' -> f s' = f s.
Proof. intros Hm E. specialize (Hm s). rewrite E in Hm. exact Hm. Qed.

(** X13. The pair total of a segment under [Delete].  A [Delete] that
    returns has released the mutex, and the pair total is the old one
    decremented by one (in uint64 arithmetic) when it returns true and the
    old one when it returns false, whatever the redistributor did. *)
Theorem segment_Delete_counts (fuel : nat) (k : string) (st st' : sstate) (ok : bool) :
  segment_Delete fuel k st = Done ok st' ->
  lock_of st' = false /\
  pairTotal (fst st')
  = (if ok then AddUint64 (pairTotal (fst st)) MaxUint64 else pairTotal (fst st)).
Proof.
  intros E. split; [eapply segment_Delete_releases; exact E|].
  unfold segment_Delete in E.
  apply bind_inv in E as ([] & st1 & H1 & E).
  apply bind_inv in E as (i & st2 & H2 & E).
  apply bind_inv in E as (ok' & st3 & H3 & E).
  apply bind_inv in E as ([] & st4 & H4 & E).
  apply bind_inv in E as ([] & st5 & H5 & E).
  inversion E; subst ok' st5. clear E.
  set (f := fun st : sstate => pairTotal (fst st)).
  assert (E1 : f st1 = f st).
  { unfold Lock in H1. destruct (lock (fst st)); inversion H1. reflexivity. }
  assert (E2 : f st2 = f st1).
  { apply bucket_index_pure in H2. subst. reflexivity. }
  assert (E3 : f st3 = f st2).
  { eapply (Done_preserved f); [|exact H3]. apply preserves_zoom. reflexivity. }
  assert (E5 : f st' = f st4).
  { unfold Unlock in H5. destruct (lock (fst st4)); inversion H5. reflexivity. }
  change (f st' = if ok then AddUint64 (f st) MaxUint64 else f st).
  rewrite E5. destruct ok.
  - apply bind_inv in H4 as (newTotal & st3a & Ha & H4).
    apply bind_inv in H4 as (sz & st3b & Hb & H4).
    apply bind_inv in H4 as (err & st3c & Hc & H4).
    inversion H4; subst st3c. clear H4.
    rewrite on_bucket_Size in Hb. inversion Hb; subst sz st3b. clear Hb.
    rewrite (Done_preserved f _ _ _ _ (redistribute_total _ _) Hc).
    unfold AddPairTotal in Ha. inversion Ha; subst. unfold f. simpl.
    fold (f st3). rewrite E3, E2, E1. reflexivity.
  - inversion H4; subst. congruence.
Qed.

End SegmentBehaviour.

Section MapBehaviour.
Context {Ext : Externals} {Ops : RedistributorOps}.

(** ** More on the map *)

Lemma findSegment_returned (keyHash : Z) (st : cstate) (i : nat) :
  returned (findSegment keyHash st) = Some i -> findSegment keyHash st = Done i st.
Proof.
  destruct (findSegment keyHash st) as [i' st'| | |] eqn:E; try discriminate.
  intros Hi. inversion Hi; subst i'. apply findSegment_pure in E. subst st'. reflexivity.
Qed.

Lemma on_segment_Done {A} (i : nat) (op : M sstate A) (m : cmap) (w w' : world)
    (s s' : segment) (a : A) :
  segments m !! i = Some s ->
  op (s, w) = Done a (s', w') ->
  on_segment i op (m, w) = Done a (set_segment i s' m, w').
Proof.
  intros Hs E. unfold on_segment, zoom. cbn [fst snd]. rewrite Hs, E. reflexivity.
Qed.

(** X14. [Get] on the map is lookup in the finite map of the routed
    bucket.  When the segment [findSegment] selects for the hash of the key
    has its mutex free, and the bucket at the index of that hash in the
    segment has a chain that ends and whose pairs hold elements, [Get]
    returns the element that chain's map has at the key (nil when it has
    none) and leaves the map, the heap and the redistributor state as they
    were. *)
Theorem cmap_Get_refines (fuel : nat) (k : string) (m : cmap) (w : world)
    (i : nat) (s : segment) (j : nat) (b : bucket) (l : list addr) :
  returned (findSegment (hash k) (m, w)) = Some i ->
  segments m !! i = Some s ->
  lock s = false ->
  returned (bucket_index (hash k) (s, w)) = Some j ->
  buckets s !! j = Some b ->
  chain (pairs w) (GetFirstPair b) l ->
  Forall (fun a => is_Some (element_of (pairs w) a)) l ->
  (length l < fuel)%nat ->
  cmap_Get fuel k (m, w) = Done (view (pairs w) l !! k) (m, w).
Proof.
  intros Hi Hs Hl Hj Hb Hc Hel Hf. unfold cmap_Get.
  mstep ltac:(apply findSegment_returned; exact Hi).
  destruct (first_with_key (pairs w) k l) as [Hne|(l1 & t & l2 & -> & Hne & Ht)].
  - mstep ltac:(eapply on_segment_Done; [exact Hs|];
                eapply segment_GetWithHash_runs; try eassumption;
                eapply bucket_Get_absent; try eassumption; lia).
    rewrite (set_segment_same _ _ _ Hs), (view_absent _ _ _ Hne). reflexivity.
  - mstep ltac:(eapply on_segment_Done; [exact Hs|];
                eapply segment_GetWithHash_runs; try eassumption;
                eapply bucket_Get_found; try eassumption;
                rewrite length_app in Hf; simpl in Hf; lia).
    rewrite (set_segment_same _ _ _ Hs).
    apply Forall_app in Hel as [_ Hel]. apply Forall_cons in Hel as [[e He] _].
    rewrite (view_first _ _ _ _ _ _ Hne Ht He).
    unfold on_cpairs, zoom, Element, deref. cbn [fst snd].
    unfold element_of in He. destruct (pairs w !! t) as [tp|]; [|discriminate].
    simpl in He. rewrite He, world_eta. reflexivity.
Qed.

(** X15. The total of the map under [Delete].  A [Delete] that returns
    true has decremented the total by one (in uint64 arithmetic); one that
    returns false has left it alone; either way the concurrency and the
    number of segments are unchanged. *)
Theorem cmap_Delete_counts (fuel : nat) (k : string) (st st' : cstate) (ok : bool) :
  cmap_Delete fuel k st = Done ok st' ->
  total (fst st')
  = (if ok then AddUint64 (total (fst st)) MaxUint64 else total (fst st)) /\
  concurrency (fst st') = concurrency (fst st) /\
  length (segments (fst st')) = length (segments (fst st)).
Proof.
  unfold cmap_Delete. intros E.
  apply bind_inv in E as (i & st1 & Hi & E).
  apply findSegment_pure in Hi. subst st1.
  apply bind_inv in E as (ok' & st2 & Hs & E).
  assert (Hst2 : total (fst st2) = total (fst st) /\
                 concurrency (fst st2) = concurrency (fst st) /\
                 length (segments (fst st2)) = length (segments (fst st))).
  { unfold on_segment, zoom in Hs.
    destruct (segments (fst st) !! i) as [s|]; [|discriminate].
    destruct (segment_Delete fuel k (s, snd st)) as [x sw| | |]; try discriminate.
    inversion Hs; subst. simpl. rewrite length_insert. auto. }
  destruct Hst2 as (Ht & Hc & Hn).
  destruct ok'.
  - unfold bind, AddTotal, modify, ret in E. inversion E; subst. simpl.
    rewrite Ht. auto.
  - inversion E; subst. auto.
Qed.

(** X16. Which bits of the hash select the segment.  Two 64-bit hashes
    above [math.MaxUint32] that agree on their top 16 bits are routed to
    the same segment, and so are two hashes up to [math.MaxUint32] that
    agree above their low 16 bits.  In particular every hash below 65536,
    and every hash from 2^32 to below 2^48, is routed to segment 0,
    whatever the concurrency. *)
Theorem findSegment_index_bits (c h1 h2 : Z) :
  (MaxUint32 < h1 < 2 ^ 64 -> MaxUint32 < h2 < 2 ^ 64 ->
   h1 / 2 ^ 48 = h2 / 2 ^ 48 ->
   findSegment_index c h1 = findSegment_index c h2) /\
  (0 <= h1 <= MaxUint32 -> 0 <= h2 <= MaxUint32 ->
   h1 / 2 ^ 16 = h2 / 2 ^ 16 ->
   findSegment_index c h1 = findSegment_index c h2) /\
  (0 <= h1 < 65536 \/ 2 ^ 32 <= h1 < 2 ^ 48 -> findSegment_index c h1 = 0).
Proof.
  assert (Hhigh : forall h, MaxUint32 < h < 2 ^ 64 ->
            findSegment_index c h
            = if c =? 1 then 0 else Z.rem (h / 2 ^ 48) (c - 1)).
  { intros h Hh. unfold findSegment_index. destruct (c =? 1); [reflexivity|].
    assert (E : (h >? MaxUint32) = true) by lia. rewrite E.
    unfold MaxUint32 in Hh. unfold wrap32. rewrite (Z.shiftr_div_pow2 h 32) by lia.
    rewrite Z.mod_small.
    - rewrite Z.shiftr_div_pow2 by lia. rewrite Z.div_div by lia. reflexivity.
    - split; [apply Z.div_pos; lia | apply Z.div_lt_upper_bound; lia]. }
  assert (Hlow : forall h, 0 <= h <= MaxUint32 ->
            findSegment_index c h
            = if c =? 1 then 0 else Z.rem (h / 2 ^ 16) (c - 1)).
  { intros h Hh. unfold findSegment_index. destruct (c =? 1); [reflexivity|].
    assert (E : (h >? MaxUint32) = false) by lia. rewrite E.
    unfold wrap32. rewrite Z.mod_small by (unfold MaxUint32 in Hh; lia).
    rewrite Z.shiftr_div_pow2 by lia. reflexivity. }
  split; [|split].
  - intros H1 H2 E. rewrite (Hhigh h1 H1), (Hhigh h2 H2), E. reflexivity.
  - intros H1 H2 E. rewrite (Hlow h1 H1), (Hlow h2 H2), E. reflexivity.
  - intros [Hs|Hs].
    + rewrite Hlow by (unfold MaxUint32; lia).
      destruct (c =? 1); [reflexivity|].
      rewrite Z.div_small by lia. reflexivity.
    + rewrite Hhigh by (unfold MaxUint32; lia).
      destruct (c =? 1); [reflexivity|].
      rewrite Z.div_small by lia. reflexivity.
Qed.

(** *** A map that never yields anything *)

Lemma final_bind_not_returned {S A B} (m : M S A) (k : A -> M S B) (s : S) :
  returned (m s) = None -> final_state (bind m k s) = final_state (m s).
Proof. intros H. rewrite final_bind. destruct (m s); [discriminate| | |]; reflexivity. Qed.

Lemma segment_Put_final_lock (fuel : nat) (p : option addr) (st : sstate) :
  lock_of (final_state (segment_Put fuel p st)) = true.
Proof.
  unfold segment_Put. rewrite final_bind.
  pose proof (segment_Put_body_lock fuel p st) as Hb.
  destruct (segment_Put_body fuel p st) as [r st1| | |]; simpl in Hb |- *; try exact Hb.
  unfold bind. rewrite (Lock_blocks st1 Hb). exact Hb.
Qed.

Lemma bucket_index_final (keyHash : Z) (st : sstate) :
  final_state (bucket_index keyHash st) = st.
Proof.
  unfold bucket_index, bind, gets, panic, ret. simpl.
  destruct (wrap64 (bucketsLen (fst st)) =? 0); [reflexivity|].
  destruct (_ || _); reflexivity.
Qed.

Lemma empty_slot (s : segment) (j : nat) :
  Forall (fun b => GetFirstPair b = None) (buckets s) ->
  GetFirstPair (default newBucket (buckets s !! j)) = None.
Proof.
  intros Hall. destruct (buckets s !! j) as [b|] eqn:Hb; [|reflexivity].
  simpl. exact (Forall_lookup_1 _ _ _ _ Hall Hb).
Qed.

Lemma set_lock_roundtrip (s : segment) :
  lock s = false -> set_lock false (set_lock true s) = s.
Proof. intros Hl. destruct s. simpl in *. subst. reflexivity. Qed.

Lemma on_bucket_ret_empty {A} (j : nat) (m : M bstate A) (s : segment) (w : world) (a : A) :
  (forall bh, GetFirstPair (fst bh) = None -> m bh = Done a bh) ->
  Forall (fun b => GetFirstPair b = None) (buckets s) ->
  forall l, on_bucket j m (set_lock l s, w) = Done a (set_lock l s, w).
Proof.
  intros Hm Hall l. unfold on_bucket, zoom. cbn [fst snd set_lock buckets].
  rewrite Hm by (apply empty_slot; exact Hall).
  cbn [fst snd]. rewrite world_eta.
  change (buckets s) with (buckets (set_lock l s)).
  rewrite set_bucket_same. reflexivity.
Qed.

Lemma bucket_Get_empty (fuel : nat) (k : string) (bh : bstate) :
  GetFirstPair (fst bh) = None -> bucket_Get fuel k bh = Done None bh.
Proof. intros He. unfold bucket_Get, bind, gets. rewrite He. reflexivity. Qed.

Lemma bucket_Delete_empty (fuel : nat) (k : string) (bh : bstate) :
  GetFirstPair (fst bh) = None -> bucket_Delete fuel k None bh = Done false bh.
Proof. intros He. unfold bucket_Delete, with_lock, bind, gets. rewrite He. reflexivity. Qed.

Lemma inert_Put (fuel : nat) (p : option addr) (s : segment) (w : world) :
  inert_segment (fst (final_state (segment_Put fuel p (s, w)))).
Proof. left. apply (segment_Put_final_lock fuel p (s, w)). Qed.

Lemma GetWithHash_unlocked_empty (fuel : nat) (k : string) (keyHash : Z)
    (s : segment) (w : world) :
  lock s = false ->
  Forall (fun b => GetFirstPair b = None) (buckets s) ->
  segment_GetWithHash fuel k keyHash (s, w) = Done None (s, w) \/
  (returned (segment_GetWithHash fuel k keyHash (s, w)) = None /\
   final_state (segment_GetWithHash fuel k keyHash (s, w)) = (set_lock true s, w)).
Proof.
  intros Hl Hall.
  assert (HL : Lock (s, w) = Done tt (set_lock true s, w))
    by (unfold Lock; cbn [fst snd]; rewrite Hl; reflexivity).
  pose proof (bucket_index_final keyHash (set_lock true s, w)) as Hfin.
  unfold segment_GetWithHash. rewrite (bind_Done _ _ _ _ _ HL).
  destruct (bucket_index keyHash (set_lock true s, w)) as [j st2|v st2|st2|st2] eqn:Hidx;
    simpl in Hfin; subst st2.
  - left. rewrite (bind_Done _ _ _ _ _ Hidx).
    rewrite (bind_Done _ _ (set_lock true s, w) (set_lock false (set_lock true s), w) tt)
      by reflexivity.
    rewrite (set_lock_roundtrip s Hl).
    pose proof (on_bucket_ret_empty j (bucket_Get fuel k) s w None
                  (bucket_Get_empty fuel k) Hall (lock s)) as Hget.
    assert (Hs : set_lock (lock s) s = s) by (destruct s; reflexivity).
    rewrite Hs in Hget. exact Hget.
  - right. unfold bind. rewrite Hidx. split; reflexivity.
  - right. unfold bind. rewrite Hidx. split; reflexivity.
  - right. unfold bind. rewrite Hidx. split; reflexivity.
Qed.

Lemma Delete_unlocked_empty (fuel : nat) (k : string) (s : segment) (w : world) :
  lock s = false ->
  Forall (fun b => GetFirstPair b = None) (buckets s) ->
  segment_Delete fuel k (s, w) = Done false (s, w) \/
  (returned (segment_Delete fuel k (s, w)) = None /\
   final_state (segment_Delete fuel k (s, w)) = (set_lock true s, w)).
Proof.
  intros Hl Hall.
  assert (HL : Lock (s, w) = Done tt (set_lock true s, w))
    by (unfold Lock; cbn [fst snd]; rewrite Hl; reflexivity).
  pose proof (bucket_index_final (hash k) (set_lock true s, w)) as Hfin.
  unfold segment_Delete. rewrite (bind_Done _ _ _ _ _ HL).
  destruct (bucket_index (hash k) (set_lock true s, w)) as [j st2|v st2|st2|st2] eqn:Hidx;
    simpl in Hfin; subst st2.
  - left. rewrite (bind_Done _ _ _ _ _ Hidx).
    rewrite (bind_Done _ _ _ _ _
               (on_bucket_ret_empty j (bucket_Delete fuel k None) s w false
                  (bucket_Delete_empty fuel k) Hall true)).
    rewrite (bind_Done _ _ (set_lock true s, w) (set_lock true s, w) tt) by reflexivity.
    rewrite (bind_Done _ _ (set_lock true s, w) (set_lock false (set_lock true s), w) tt)
      by reflexivity.
    rewrite (set_lock_roundtrip s Hl). reflexivity.
  - right. unfold bind. rewrite Hidx. split; reflexivity.
  - right. unfold bind. rewrite Hidx. split; reflexivity.
  - right. unfold bind. rewrite Hidx. split; reflexivity.
Qed.

Lemma inert_GetWithHash (fuel : nat) (k : string) (keyHash : Z) (s : segment) (w : world) :
  inert_segment s ->
  inert_segment (fst (final_state (segment_GetWithHash fuel k keyHash (s, w)))) /\
  (returned (segment_GetWithHash fuel k keyHash (s, w)) = None \/
   returned (segment_GetWithHash fuel k keyHash (s, w)) = Some None).
Proof.
  intros Hin. destruct (lock s) eqn:Hl.
  - assert (E : segment_GetWithHash fuel k keyHash (s, w) = Blocks (s, w))
      by (unfold segment_GetWithHash, bind; rewrite (Lock_blocks (s, w) Hl); reflexivity).
    rewrite E. simpl. split; [left; exact Hl | left; reflexivity].
  - destruct Hin as [Hin|Hall]; [congruence|].
    destruct (GetWithHash_unlocked_empty fuel k keyHash s w Hl Hall) as [E|[Hr Hf]].
    + rewrite E. simpl. split; [right; exact Hall | right; reflexivity].
    + rewrite Hf. simpl. split; [left; reflexivity | left; exact Hr].
Qed.

Lemma inert_Delete (fuel : nat) (k : string) (s : segment) (w : world) :
  inert_segment s ->
  inert_segment (fst (final_state (segment_Delete fuel k (s, w)))) /\
  (returned (segment_Delete fuel k (s, w)) = None \/
   returned (segment_Delete fuel k (s, w)) = Some false).
Proof.
  intros Hin. destruct (lock s) eqn:Hl.
  - assert (E : segment_Delete fuel k (s, w) = Blocks (s, w))
      by (unfold segment_Delete, bind; rewrite (Lock_blocks (s, w) Hl); reflexivity).
    rewrite E. simpl. split; [left; exact Hl | left; reflexivity].
  - destruct Hin as [Hin|Hall]; [congruence|].
    destruct (Delete_unlocked_empty fuel k s w Hl Hall) as [E|[Hr Hf]].
    + rewrite E. simpl. split; [right; exact Hall | right; reflexivity].
    + rewrite Hf. simpl. split; [left; reflexivity | left; exact Hr].
Qed.

Lemma on_segment_cases {A} (i : nat) (op : M sstate A) (st : cstate) :
  match segments (fst st) !! i with
  | None =>
      on_segment i op st
      = Panics (index_out_of_range (Z.of_nat i) (Z.of_nat (length (segments (fst st))))) st
  | Some s =>
      final_state (on_segment i op st)
      = (set_segment i (fst (final_state (op (s, snd st)))) (fst st),
         snd (final_state (op (s, snd st)))) /\
      returned (on_segment i op st) = returned (op (s, snd st))
  end.
Proof.
  unfold on_segment, zoom. destruct (segments (fst st) !! i) as [s|]; [|reflexivity].
  destruct (op (s, snd st)); split; reflexivity.
Qed.

Lemma inert_set_segment (t : Z) (st : cstate) (i : nat) (s' : segment) (w' : world) :
  inert t st -> inert_segment s' -> inert t (set_segment i s' (fst st), w').
Proof.
  intros [Ht Hall] Hs'. split; [exact Ht|]. simpl.
  apply Forall_insert; assumption.
Qed.

Lemma inert_on_segment {A} (t : Z) (i : nat) (op : M sstate A) (st : cstate) :
  inert t st ->
  (forall s w, inert_segment s -> inert_segment (fst (final_state (op (s, w))))) ->
  inert t (final_state (on_segment i op st)).
Proof.
  intros Hst Hop. pose proof (on_segment_cases i op st) as Hc.
  destruct (segments (fst st) !! i) as [s|] eqn:Hs.
  - destruct Hc as [-> _]. apply inert_set_segment; [exact Hst|].
    apply Hop. destruct Hst as [_ Hall]. exact (Forall_lookup_1 _ _ _ _ Hall Hs).
  - rewrite Hc. exact Hst.
Qed.

Lemma inert_other_world (t : Z) (m : cmap) (w w' : world) :
  inert t (m, w) -> inert t (m, w').
Proof. intros H. exact H. Qed.

Lemma on_cpairs_inert {A} (t : Z) (m : M (list pair) A) : stable (inert t) (on_cpairs m).
Proof. apply stable_zoom. intros h st Hst. exact Hst. Qed.

Lemma findSegment_inert (t : Z) (keyHash : Z) : stable (inert t) (findSegment keyHash).
Proof.
  intros st Hst. unfold findSegment, bind, gets, panic, ret. simpl.
  destruct (_ || _); exact Hst.
Qed.

Lemma cmap_Get_inert (fuel : nat) (t : Z) (k : string) (st : cstate) :
  inert t st ->
  inert t (final_state (cmap_Get fuel k st)) /\
  (returned (cmap_Get fuel k st) = None \/ returned (cmap_Get fuel k st) = Some None).
Proof.
  intros Hst. unfold cmap_Get, bind.
  pose proof (findSegment_inert t (hash k) st Hst) as Hst1.
  destruct (findSegment (hash k) st) as [i st1|v st1|st1|st1] eqn:Hi; simpl in Hst1;
    try (simpl; split; [exact Hst1 | left; reflexivity]).
  pose proof (on_segment_cases i (segment_GetWithHash fuel k (hash k)) st1) as Hc.
  pose proof (inert_on_segment t i (segment_GetWithHash fuel k (hash k)) st1 Hst1
                (fun s w Hs => proj1 (inert_GetWithHash fuel k (hash k) s w Hs))) as Hfin.
  destruct (segments (fst st1) !! i) as [s|] eqn:Hs.
  - destruct Hc as [_ Hret].
    destruct Hst1 as [Ht Hall].
    pose proof (proj2 (inert_GetWithHash fuel k (hash k) s (snd st1)
                         (Forall_lookup_1 _ _ _ _ Hall Hs))) as Hval.
    rewrite <- Hret in Hval.
    destruct (on_segment i (segment_GetWithHash fuel k (hash k)) st1)
      as [r st2|v st2|st2|st2]; simpl in Hfin, Hval |- *;
      try (split; [exact Hfin | left; reflexivity]).
    destruct Hval as [Hval|Hval]; [discriminate|]. inversion Hval; subst r.
    simpl. split; [exact Hfin | right; reflexivity].
  - rewrite Hc. simpl. split; [exact Hst1 | left; reflexivity].
Qed.

Lemma cmap_Delete_inert (fuel : nat) (t : Z) (k : string) (st : cstate) :
  inert t st ->
  inert t (final_state (cmap_Delete fuel k st)) /\
  (returned (cmap_Delete fuel k st) = None \/ returned (cmap_Delete fuel k st) = Some false).
Proof.
  intros Hst. unfold cmap_Delete, bind.
  pose proof (findSegment_inert t (hash k) st Hst) as Hst1.
  destruct (findSegment (hash k) st) as [i st1|v st1|st1|st1] eqn:Hi; simpl in Hst1;
    try (simpl; split; [exact Hst1 | left; reflexivity]).
  pose proof (on_segment_cases i (segment_Delete fuel k) st1) as Hc.
  pose proof (inert_on_segment t i (segment_Delete fuel k) st1 Hst1
                (fun s w Hs => proj1 (inert_Delete fuel k s w Hs))) as Hfin.
  destruct (segments (fst st1) !! i) as [s|] eqn:Hs.
  - destruct Hc as [_ Hret].
    destruct Hst1 as [Ht Hall].
    pose proof (proj2 (inert_Delete fuel k s (snd st1)
                         (Forall_lookup_1 _ _ _ _ Hall Hs))) as Hval.
    rewrite <- Hret in Hval.
    destruct (on_segment i (segment_Delete fuel k) st1)
      as [r st2|v st2|st2|st2]; simpl in Hfin, Hval |- *;
      try (split; [exact Hfin | left; reflexivity]).
    destruct Hval as [Hval|Hval]; [discriminate|]. inversion Hval; subst r.
    simpl. split; [exact Hfin | right; reflexivity].
  - rewrite Hc. simpl. split; [exact Hst1 | left; reflexivity].
Qed.

Lemma cmap_Put_inert (fuel : nat) (t : Z) (k : string) (e : option Elem) (st : cstate) :
  inert t st -> inert t (final_state (cmap_Put fuel k e st)).
Proof.
  revert st. change (stable (inert t) (cmap_Put fuel k e)).
  unfold cmap_Put. apply stable_bind; [apply on_cpairs_inert|]. intros r.
  destruct (snd r); [apply stable_ret|].
  apply stable_bind; [apply on_cpairs_inert|]. intros a.
  apply stable_bind; [apply on_cpairs_inert|]. intros keyHash.
  apply stable_bind; [apply findSegment_inert|]. intros i st Hst.
  rewrite final_bind_not_returned.
  - apply inert_on_segment; [exact Hst|]. intros s w _. apply inert_Put.
  - apply on_segment_not_returned. intros s. apply segment_Put_never_returns.
Qed.

Lemma run_inert (fuel : nat) (t : Z) (ops : list op) :
  forall st, inert t st -> inert t (run fuel ops st).
Proof.
  unfold run. induction ops as [|o ops IH]; intros st Hst; [exact Hst|].
  simpl. apply IH. destruct o as [k e|k|k]; simpl.
  - apply cmap_Put_inert. exact Hst.
  - apply cmap_Get_inert. exact Hst.
  - apply cmap_Delete_inert. exact Hst.
Qed.

Lemma newSegment_untouched (n : Z) (pr : option PairRedistributor) (w w' : world)
    (s : segment) :
  newSegment n pr w = Done s w' -> lock s = false /\ empty_segment s.
Proof.
  unfold newSegment. intros E.
  apply bind_inv in E as (r & w1 & _ & E).
  destruct (_ <? 0) in E; [discriminate|]. inversion E; subst.
  split; [reflexivity|]. split; [|reflexivity].
  simpl. apply Forall_replicate. split; reflexivity.
Qed.

Lemma new_segments_untouched (pr : option PairRedistributor) (n : nat) :
  forall w w' segs,
    new_segments n pr w = Done segs w' ->
    Forall (fun s => lock s = false /\ empty_segment s) segs.
Proof.
  induction n as [|n IH]; intros w w' segs E; simpl in E.
  - inversion E. constructor.
  - apply bind_inv in E as (s & w1 & Hs & E).
    apply bind_inv in E as (rest & w2 & Hrest & E).
    inversion E; subst. constructor.
    + eapply newSegment_untouched; exact Hs.
    + eapply IH; exact Hrest.
Qed.

Lemma untouched_inert (s : segment) : lock s = false /\ empty_segment s -> inert_segment s.
Proof.
  intros [_ [Hb _]]. right. eapply Forall_impl; [exact Hb|].
  intros b [Hf _]. exact Hf.
Qed.

(** X17. A map whose calls do not overlap never yields anything.  Call a
    map inert when each of its segments either has its mutex held or has
    only empty buckets.  The map [NewConcurrentMap] returns has total 0,
    and every segment of it has a free mutex, only empty buckets and no
    pairs counted; so it is inert.  On an inert map, after any sequence of
    [Put], [Get] and [Delete] calls made one after another, none starting
    before the one before it has returned, panicked or parked, and whatever
    their outcomes, the map is still inert and [Len] still returns the same
    total; every [Get] either returns nil or does not return; and every
    [Delete] either returns false or does not return.  (A [Put] stores its
    pair but leaves the mutex of the segment held, so a call that starts
    afterwards cannot read it back.) *)
Theorem used_map_yields_nothing (fuel : nat) :
  (forall c pr w m w',
      NewConcurrentMap c pr w = Done (Some m, None) w' ->
      total m = 0 /\
      Forall (fun s => lock s = false /\ empty_segment s) (segments m) /\
      inert 0 (m, w')) /\
  (forall t ops st,
      inert t st ->
      inert t (run fuel ops st) /\
      returned (cmap_Len (run fuel ops st)) = Some t /\
      (forall k, returned (cmap_Get fuel k (run fuel ops st)) = None \/
                 returned (cmap_Get fuel k (run fuel ops st)) = Some None) /\
      (forall k, returned (cmap_Delete fuel k (run fuel ops st)) = None \/
                 returned (cmap_Delete fuel k (run fuel ops st)) = Some false)).
Proof.
  split.
  - intros c pr w m w' E. unfold NewConcurrentMap in E.
    destruct (c <=? 0); [discriminate|].
    destruct (c >? MAX_CONCURRENCY); [discriminate|].
    apply bind_inv in E as (segs & w1 & Hsegs & E).
    inversion E; subst. simpl.
    pose proof (new_segments_untouched _ _ _ _ _ Hsegs) as Hu.
    split; [reflexivity|]. split; [exact Hu|]. split; [reflexivity|]. simpl.
    eapply Forall_impl; [exact Hu|]. apply untouched_inert.
  - intros t ops st Hst.
    pose proof (run_inert fuel t ops st Hst) as Hrun.
    split; [exact Hrun|]. split; [|split].
    + destruct Hrun as [Ht _]. unfold cmap_Len, gets. simpl. rewrite Ht. reflexivity.
    + intros k. apply (cmap_Get_inert fuel t k _ Hrun).
    + intros k. apply (cmap_Delete_inert fuel t k _ Hrun).
Qed.

End MapBehaviour.

(** * Worked instances

    The statements above, run on the sample collaborators. *)

Section Instances.
Import Sample.

Ltac walk_chain :=
  repeat (split; [reflexivity|]; eexists; split; [reflexivity|]); reflexivity.

(** On the chain c -> b -> a: putting a pair with key b overwrites the
    element of the old b; putting a pair with key d puts it in front; on an
    empty bucket the pair becomes the head. *)
Lemma bucket_Put_cases_witness :
  bucket_Put 10 (Some 3%nat) None (bucket3, heap3)
  = Done (false, None) (bucket3, alter (set_element (Some 20)) 1%nat heap3) /\
  bucket_Put 10 (Some 4%nat) None (bucket3, heap3)
  = Done (true, None)
         ({| firstValue := First 4; bsize := AddUint64 3 1 |},
          alter (set_next (Some 2%nat)) 4%nat heap3) /\
  bucket_Put 10 (Some 4%nat) None (newBucket, heap3)
  = Done (true, None) ({| firstValue := First 4; bsize := AddUint64 0 1 |}, heap3).
Proof.
  split; [|split].
  - assert (Hl : (None : option bool) <> Some true) by discriminate.
    assert (Hp : heap3 !! 3%nat = Some (cell "b" 20 None)) by reflexivity.
    assert (Hc : chain heap3 (GetFirstPair bucket3) [2; 1; 0]%nat) by (simpl; walk_chain).
    assert (Hf : (length [2; 1; 0]%nat < 10)%nat) by (simpl; lia).
    destruct (bucket_Put_cases 10 bucket3 heap3 3%nat _ None _ Hl Hp Hc Hf)
      as (_ & Hupd & _).
    refine (proj1 (Hupd [2%nat] 1%nat [0%nat] 20 eq_refl _ eq_refl eq_refl)).
    constructor; [discriminate | constructor].
  - assert (Hl : (None : option bool) <> Some true) by discriminate.
    assert (Hp : heap3 !! 4%nat = Some (cell "d" 4 None)) by reflexivity.
    assert (Hc : chain heap3 (GetFirstPair bucket3) [2; 1; 0]%nat) by (simpl; walk_chain).
    assert (Hf : (length [2; 1; 0]%nat < 10)%nat) by (simpl; lia).
    destruct (bucket_Put_cases 10 bucket3 heap3 4%nat _ None _ Hl Hp Hc Hf)
      as (_ & _ & Hins & _).
    refine (proj1 (Hins _ _)); [discriminate|].
    repeat (constructor; [discriminate|]). constructor.
  - assert (Hl : (None : option bool) <> Some true) by discriminate.
    assert (Hp : heap3 !! 4%nat = Some (cell "d" 4 None)) by reflexivity.
    assert (Hc : chain heap3 (GetFirstPair newBucket) []) by reflexivity.
    assert (Hf : (length ([] : list nat) < 10)%nat) by (simpl; lia).
    destruct (bucket_Put_cases 10 newBucket heap3 4%nat _ None _ Hl Hp Hc Hf)
      as (Hemp & _).
    exact (Hemp eq_refl).
Defined.

(** On the chain c -> b -> a: deleting a copies c and b in front of
    nothing; deleting a key the chain lacks changes nothing. *)
Lemma bucket_Delete_cases_witness :
  (exists (b' : bucket) (ext : list pair) (newl : list nat),
      bucket_Delete 10 "a" None (bucket3, heap3) = Done true (b', heap3 ++ ext) /\
      chain (heap3 ++ ext) (GetFirstPair b') (newl ++ []) /\
      Forall2 (copy_of heap3 (heap3 ++ ext)) [2; 1]%nat newl /\
      entries (heap3 ++ ext) (newl ++ []) = entries heap3 [2; 1]%nat ++ entries heap3 [] /\
      (NoDup (keys heap3 [2; 1; 0]%nat) -> "a" ∉ keys (heap3 ++ ext) (newl ++ [])) /\
      bsize b' = AddUint64 3 MaxUint64 /\
      (0 < 3 <= MaxUint64 -> bsize b' = 3 - 1)) /\
  bucket_Delete 10 "z" None (bucket3, heap3) = Done false (bucket3, heap3).
Proof.
  assert (Hl : (None : option bool) <> Some true) by discriminate.
  assert (Hc : chain heap3 (GetFirstPair bucket3) [2; 1; 0]%nat) by (simpl; walk_chain).
  assert (Hf : (length [2; 1; 0]%nat < 10)%nat) by (simpl; lia).
  split.
  - destruct (bucket_Delete_cases 10 bucket3 heap3 "a" None _ Hl Hc Hf) as (_ & Hdel).
    apply (Hdel [2; 1]%nat 0%nat [] eq_refl).
    + repeat (constructor; [discriminate|]). constructor.
    + reflexivity.
    + repeat (constructor; [eexists; reflexivity|]). constructor.
  - destruct (bucket_Delete_cases 10 bucket3 heap3 "z" None _ Hl Hc Hf) as (Habs & _).
    apply Habs. repeat (constructor; [discriminate|]). constructor.
Defined.

(** Routing on a fresh map of three segments: a hash above the 32-bit
    range goes by its bits 48 and up. *)
Lemma findSegment_routing_witness :
  findSegment_index 3 (5 * 2 ^ 48 + 7) = spec_route 3 (5 * 2 ^ 48 + 7) /\
  findSegment (5 * 2 ^ 48 + 7) (fresh_map 3) = Done 1%nat (fresh_map 3) /\
  is_Some (segments (fst (fresh_map 3)) !! 1%nat).
Proof.
  assert (H1 : 1 <= concurrency (fst (fresh_map 3))) by (vm_compute; discriminate).
  assert (H2 : concurrency (fst (fresh_map 3))
               = Z.of_nat (length (segments (fst (fresh_map 3))))) by reflexivity.
  assert (H3 : 0 <= 5 * 2 ^ 48 + 7 < 2 ^ 64) by lia.
  exact (findSegment_routing (fst (fresh_map 3)) (snd (fresh_map 3)) _ H1 H2 H3).
Defined.

(** A fresh map of three segments; a concurrency outside the range is
    refused. *)
Lemma NewConcurrentMap_spec_witness :
  (exists m w',
      NewConcurrentMap (Ops := idle) 3 None w0 = Done (Some m, None) w' /\
      concurrency m = 3 /\
      Z.of_nat (length (segments m)) = 3 /\
      total m = 0 /\
      Forall (fresh_segment (Ops := idle) None) (segments m) /\
      (is_Some (None : option nat) -> w' = w0)) /\
  (exists msg,
      NewConcurrentMap (Ops := idle) 0 None w0
      = Done (None, Some (IllegalParameterError msg)) w0) /\
  (exists msg,
      NewConcurrentMap (Ops := idle) 65537 None w0
      = Done (None, Some (IllegalParameterError msg)) w0).
Proof.
  split; [|split].
  - destruct (NewConcurrentMap_spec (Ops := idle) 3 None w0) as (_ & _ & Hok).
    apply Hok.
    + simpl. lia.
    + simpl. lia.
    + intros _ w1. eexists. reflexivity.
  - destruct (NewConcurrentMap_spec (Ops := idle) 0 None w0) as (Hbad & _).
    apply Hbad. left. lia.
  - destruct (NewConcurrentMap_spec (Ops := idle) 65537 None w0) as (Hbad & _).
    apply Hbad. right. simpl. lia.
Defined.



(** Six calls on a fresh map of three segments. *)
Lemma last_segment_never_selected_witness :
  (forall keyHash, 0 <= findSegment_index 3 keyHash <= 3 - 2) /\
  (forall keyHash i st',
      findSegment keyHash (fresh_map 3) = Done i st' -> (i < 2)%nat) /\
  concurrency (fst (run (Ops := idle) 10 calls (fresh_map 3))) = 3 /\
  length (segments (fst (run (Ops := idle) 10 calls (fresh_map 3)))) = 3%nat /\
  segments (fst (run (Ops := idle) 10 calls (fresh_map 3))) !! 2%nat
  = segments (fst (fresh_map 3)) !! 2%nat /\
  (forall s, segments (fst (fresh_map 3)) !! 2%nat = Some s ->
             empty_segment s ->
             exists s', segments (fst (run (Ops := idle) 10 calls (fresh_map 3))) !! 2%nat
                        = Some s' /\ empty_segment s').
Proof.
  assert (H1 : 1 < concurrency (fst (fresh_map 3))) by (vm_compute; reflexivity).
  assert (H2 : concurrency (fst (fresh_map 3))
               = Z.of_nat (length (segments (fst (fresh_map 3))))) by reflexivity.
  exact (last_segment_never_selected (Ops := idle) 10 calls
           (fst (fresh_map 3)) (snd (fresh_map 3)) H1 H2).
Defined.

(** Delete of the key a with a redistributor whose rehash faults at once;
    and a rehash that faults after clearing the first bucket. *)
Lemma redistribution_failure_contained_witness :
  (redistribute (Ops := faulty) 0 0 s3
   = Done (Some (PairRedistributorError
                   "concurrent map: failing pair redistribution: rehash failed")) s3 /\
   faults_cleanly (Ops := faulty) (pairRedistributor (fst s3)) (buckets (fst s3)) /\
   segment_Delete (Ops := faulty) 10 "a" s0 = Done true (set_lock false (fst s3), snd s3)) /\
  (redistribute (Ops := wiping) 1 1 s0
   = Done (Some (PairRedistributorError
                   "concurrent map: failing pair redistribution: rehash failed"))
          (set_bucket 0 newBucket seg_a, world_a) /\
   bucketsLen (set_bucket 0 newBucket seg_a) = bucketsLen seg_a /\
   length (buckets (set_bucket 0 newBucket seg_a)) = length (buckets seg_a)).
Proof.
  split.
  - assert (Hbody : redistribute_body (Ops := faulty) 0 0 s3
                    = Panics (PanicOther "rehash failed") s3) by reflexivity.
    destruct (redistribution_failure_contained (Ops := faulty) 0 0 s3 s3 _ Hbody)
      as (Hred & _ & _ & _ & _ & _ & _ & Hdel).
    split; [exact Hred|]. split.
    + split; [|split]; intros; try reflexivity.
      match goal with E : _ = Panics _ _ |- _ => inversion E end. reflexivity.
    + apply (Hdel 10%nat "a" s0 s1 s2 0%nat); reflexivity.
  - assert (Hbody : redistribute_body (Ops := wiping) 1 1 s0
                    = Panics (PanicOther "rehash failed")
                        (set_bucket 0 newBucket seg_a, world_a)) by reflexivity.
    destruct (redistribution_failure_contained (Ops := wiping) 1 1 s0 _ _ Hbody)
      as (Hred & Hn & Hlen & _).
    split; [exact Hred|]. split; [exact Hn | exact Hlen].
Defined.

(** C5 as stated fails, twice over.  With the faulty redistributor,
    [redistribute] does turn the panic into a PairRedistributorError, but
    neither caller hands it on: [Delete] returns true, and [Put] has
    (true, nil) in hand when it reaches its last lock operation and never
    returns anything.  And with a rehash that clears the first bucket
    before it faults, the array is not what it was: the error is returned
    by [redistribute], and the key a, which [Get] found before and nobody
    deleted, is gone. *)
Lemma redistribution_failure_counterexample :
  redistribute (Ops := faulty) 1 1
    ({| buckets := [{| firstValue := First 0; bsize := 1 |}]; bucketsLen := 1;
        pairTotal := 1; pairRedistributor := 0%nat; lock := true |}, world_a)
  = Done (Some (PairRedistributorError
                  "concurrent map: failing pair redistribution: rehash failed"))
         ({| buckets := [{| firstValue := First 0; bsize := 1 |}]; bucketsLen := 1;
             pairTotal := 1; pairRedistributor := 0%nat; lock := true |}, world_a) /\
  returned (segment_Put_body (Ops := faulty) 10 (Some 0%nat) (seg_empty, world_a))
  = Some (true, None) /\
  ~ surfaces_failure (segment_Put_body (Ops := faulty) 10 (Some 0%nat) (seg_empty, world_a)) /\
  ~ surfaces_failure (segment_Put (Ops := faulty) 10 (Some 0%nat) (seg_empty, world_a)) /\
  returned (segment_Delete (Ops := faulty) 10 "a" s0) = Some true /\
  redistribute (Ops := wiping) 1 1 (seg_a, world_a)
  = Done (Some (PairRedistributorError
                  "concurrent map: failing pair redistribution: rehash failed"))
         ({| buckets := [newBucket]; bucketsLen := 1; pairTotal := 1;
             pairRedistributor := 0%nat; lock := false |}, world_a) /\
  buckets seg_a <> [newBucket] /\
  segment_GetWithHash 10 "a" (length_hash "a") (seg_a, world_a)
  = Done (Some 0%nat) (seg_a, world_a) /\
  returned (segment_GetWithHash 10 "a" (length_hash "a")
              (final_state (redistribute (Ops := wiping) 1 1 (seg_a, world_a))))
  = Some None.
Proof.
  split; [reflexivity|]. split; [reflexivity|].
  split; [intros (ok & msg & st' & E); vm_compute in E; discriminate|].
  split; [intros (ok & msg & st' & E); vm_compute in E; discriminate|].
  split; [reflexivity|]. split; [reflexivity|].
  split; [discriminate|]. split; reflexivity.
Qed.

(** C1 at a concrete input: [Put] of a pair on an empty segment whose
    mutex is free parks on its own mutex, with the pair already linked
    into the bucket and counted. *)
Lemma segment_Put_keeps_lock_witness :
  segment_Put (Ops := idle) 10 (Some 0%nat) (seg_empty, world_a)
  = Blocks ({| buckets := [{| firstValue := First 0; bsize := 1 |}]; bucketsLen := 1;
               pairTotal := 1; pairRedistributor := 0%nat; lock := true |}, world_a) /\
  lock_of ({| buckets := [{| firstValue := First 0; bsize := 1 |}]; bucketsLen := 1;
              pairTotal := 1; pairRedistributor := 0%nat; lock := true |}, world_a) = true.
Proof.
  destruct (segment_Put_keeps_lock (Ops := idle) 10 (Some 0%nat) (seg_empty, world_a))
    as (_ & _ & Hpark).
  apply (Hpark (true, None)). reflexivity.
Defined.

(** On a fresh map, [Put] of a key parks, and the [Get] of that key that
    starts afterwards parks on the same mutex. *)
Example cmap_Put_then_Get_parks :
  let o := cmap_Put (Ops := idle) 10 "a" (Some 5) (fresh_map 1) in
  o = Blocks (final_state o) /\
  cmap_Get 10 "a" (final_state o) = Blocks (final_state o) /\
  pairs (snd (final_state o)) = [cell "a" 5 None].
Proof. vm_compute. repeat split. Qed.

(** Calls that overlap.  [GetWithHash] selects its bucket under the mutex
    and looks the key up after releasing it: the call is the selection
    followed by the lookup, and alone on an empty segment it returns nil.
    When a whole [Put] of the key a runs between the two, the lookup
    returns the pair that [Put] stored, although the [Put] has parked with
    the mutex held. *)
Example overlapping_Get_reads_Put :
  let select : M sstate nat :=
    (Lock;;; i <- bucket_index (length_hash "a");; Unlock;;; ret i) in
  let lookup (i : nat) : M sstate (option nat) := on_bucket i (bucket_Get 10 "a") in
  let put : M sstate (bool * option error) := segment_Put (Ops := idle) 10 (Some 0%nat) in
  segment_GetWithHash 10 "a" (length_hash "a") (seg_empty, world_a)
  = (i <- select;; lookup i) (seg_empty, world_a) /\
  segment_GetWithHash 10 "a" (length_hash "a") (seg_empty, world_a)
  = Done None (seg_empty, world_a) /\
  select (seg_empty, world_a) = Done 0%nat (seg_empty, world_a) /\
  put (seg_empty, world_a) = Blocks (final_state (put (seg_empty, world_a))) /\
  lookup 0%nat (final_state (put (seg_empty, world_a)))
  = Done (Some 0%nat) (final_state (put (seg_empty, world_a))).
Proof. vm_compute. repeat split. Qed.

End Instances.

(** ** The further properties on the samples *)

Section MoreInstances.
Import Sample.

Ltac walk := repeat (split; [reflexivity|]; eexists; split; [reflexivity|]); reflexivity.

Ltac distinct_keys :=
  repeat (apply NoDup_cons; split;
          [rewrite ?elem_of_cons, elem_of_nil; intros Hin;
           repeat (destruct Hin as [Hin|Hin]; [discriminate Hin|]); exact Hin
          |]);
  apply NoDup_nil_2.

Ltac all_held := repeat (constructor; [eexists; reflexivity|]); constructor.

Lemma bucket3_ok : bucket_ok heap3 bucket3 [2; 1; 0]%nat.
Proof.
  split; [simpl; walk|]. split; [|split; [all_held | reflexivity]].
  change (keys heap3 [2; 1; 0]%nat) with ["c"; "b"; "a"]. distinct_keys.
Defined.

(** Get of b on the chain c -> b -> a. *)
Lemma bucket_Get_refines_witness :
  exists r,
    bucket_Get 10 "b" (bucket3, heap3) = Done r (bucket3, heap3) /\
    r ≫= element_of heap3 = view heap3 [2; 1; 0]%nat !! "b" /\
    (forall a, r = Some a -> a ∈ [2; 1; 0]%nat /\ key_of heap3 a = Some "b").
Proof.
  apply (bucket_Get_refines 10 bucket3 heap3 "b" [2; 1; 0]%nat).
  - simpl. walk.
  - all_held.
  - simpl. lia.
Defined.

(** Put of the detached pair with key d on the chain c -> b -> a. *)
Lemma bucket_Put_refines_witness :
  exists inserted b' h' l',
    bucket_Put 10 (Some 4%nat) None (bucket3, heap3) = Done (inserted, None) (b', h') /\
    bucket_ok h' b' l' /\
    view h' l' = <["d" := 4]> (view heap3 [2; 1; 0]%nat) /\
    (inserted = true <-> view heap3 [2; 1; 0]%nat !! "d" = None).
Proof.
  apply (bucket_Put_refines 10 bucket3 heap3 4%nat (cell "d" 4 None) 4 None [2; 1; 0]%nat).
  - exact bucket3_ok.
  - simpl. lia.
  - simpl. unfold MaxUint64. lia.
  - discriminate.
  - reflexivity.
  - reflexivity.
  - reflexivity.
Defined.

(** Delete of b on the chain c -> b -> a. *)
Lemma bucket_Delete_refines_witness :
  exists ok b' h' l',
    bucket_Delete 10 "b" None (bucket3, heap3) = Done ok (b', h') /\
    bucket_ok h' b' l' /\
    view h' l' = delete "b" (view heap3 [2; 1; 0]%nat) /\
    (ok = true <-> is_Some (view heap3 [2; 1; 0]%nat !! "b")).
Proof.
  apply (bucket_Delete_refines 10 bucket3 heap3 "b" None [2; 1; 0]%nat).
  - exact bucket3_ok.
  - simpl. lia.
  - simpl. unfold MaxUint64. lia.
  - discriminate.
Defined.

Lemma bucket_Size_counts_keys_witness :
  bucket_Size (bucket3, heap3)
  = Done (Z.of_nat (size (view heap3 [2; 1; 0]%nat))) (bucket3, heap3).
Proof. apply bucket_Size_counts_keys. exact bucket3_ok. Defined.

Lemma bucket_Clear_empties_witness :
  bucket_Clear None (bucket3, heap3) = Done tt (newBucket, heap3) /\
  bucket_ok heap3 newBucket [] /\
  view heap3 [] = ∅ /\
  bucket_Size (newBucket, heap3) = Done 0 (newBucket, heap3) /\
  (forall fuel k, bucket_Get fuel k (newBucket, heap3) = Done None (newBucket, heap3)).
Proof.
  apply (proj1 (bucket_Clear_empties None bucket3 heap3)). discriminate.
Defined.

(** Put of the pair with key d, then Delete of d. *)
Lemma bucket_Put_Delete_roundtrip_witness :
  exists b1 h1 b2,
    bucket_Put 10 (Some 4%nat) None (bucket3, heap3) = Done (true, None) (b1, h1) /\
    bucket_Delete 10 "d" None (b1, h1) = Done true (b2, h1) /\
    GetFirstPair b2 = GetFirstPair bucket3 /\
    bsize b2 = bsize bucket3 /\
    bucket_ok h1 b2 [2; 1; 0]%nat /\
    view h1 [2; 1; 0]%nat = view heap3 [2; 1; 0]%nat.
Proof.
  apply (bucket_Put_Delete_roundtrip 10 bucket3 heap3 4%nat (cell "d" 4 None) 4 None
           [2; 1; 0]%nat).
  - exact bucket3_ok.
  - simpl. lia.
  - simpl. unfold MaxUint64. lia.
  - discriminate.
  - reflexivity.
  - reflexivity.
  - reflexivity.
  - apply view_absent. repeat (constructor; [discriminate|]). constructor.
Defined.

Lemma SetElement_then_Element_witness :
  SetElement 1%nat None heap3
  = Done (Some (IllegalParameterError
                  "concurrent map: illegal parameter: element is nil")) heap3 /\
  exists h',
    SetElement 1%nat (Some 9) heap3 = Done None h' /\
    Element 1%nat h' = Done (Some 9) h' /\
    Key 1%nat h' = Done "b" h' /\
    Hash 1%nat h' = Done (length_hash "b") h' /\
    Next 1%nat h' = Done (Some 0%nat) h' /\
    length h' = length heap3 /\
    (forall a', a' <> 1%nat -> h' !! a' = heap3 !! a').
Proof.
  apply (SetElement_then_Element 1%nat (cell "b" 2 (Some 0%nat)) 9 heap3). reflexivity.
Defined.

Lemma Copy_detached_witness :
  exists h',
    Copy 1%nat heap3 = Done (Some (length heap3)) h' /\
    h' !! length heap3
    = Some {| key := "b"; khash := length_hash "b"; element := Some 2; next := None |} /\
    length h' = S (length heap3) /\
    (forall a', (a' < length heap3)%nat -> h' !! a' = heap3 !! a').
Proof.
  destruct (Copy_detached 1%nat (cell "b" 2 (Some 0%nat)) heap3 eq_refl) as [Hcopy _].
  exact (Hcopy 2 eq_refl).
Defined.

Lemma bucketsLen_is_length_witness :
  len_ok (final_state (segment_Put (Ops := growing) 10 (Some 0%nat) (seg_empty, world_a))) /\
  len_ok (final_state (segment_Delete (Ops := growing) 10 "a" (seg_a, world_a))) /\
  exists i,
    bucket_index (length_hash "a") (seg_a, world_a) = Done i (seg_a, world_a) /\
    Z.of_nat i = length_hash "a" mod bucketsLen seg_a /\
    is_Some (buckets seg_a !! i).
Proof.
  destruct (bucketsLen_is_length (Ops := growing) 10) as (_ & HPut & _ & HDel & Hidx).
  split; [|split].
  - apply HPut. reflexivity.
  - apply HDel. reflexivity.
  - apply (Hidx (seg_a, world_a) (length_hash "a")).
    + reflexivity.
    + simpl. lia.
    + vm_compute. discriminate.
Defined.

Lemma no_buckets_panics_witness :
  (forall k keyHash,
      segment_GetWithHash 10 k keyHash (seg_none, world_a)
      = Panics divide_by_zero (set_lock true seg_none, world_a)) /\
  (forall k, segment_Delete (Ops := idle) 10 k (seg_none, world_a)
             = Panics divide_by_zero (set_lock true seg_none, world_a)) /\
  (forall p pp, pairs world_a !! p = Some pp ->
                segment_Put (Ops := idle) 10 (Some p) (seg_none, world_a)
                = Panics divide_by_zero (set_lock true seg_none, world_a)).
Proof.
  apply (no_buckets_panics (Ops := idle) 10 seg_none world_a); reflexivity.
Defined.

(** Delete of b on the segment that holds a. *)
Lemma segment_Delete_missing_key_witness :
  segment_Delete (Ops := idle) 10 "b" (seg_a, world_a) = Done false (seg_a, world_a).
Proof.
  apply (segment_Delete_missing_key (Ops := idle) 10 "b" seg_a world_a 0%nat
           {| firstValue := First 0; bsize := 1 |} [0%nat]).
  - reflexivity.
  - reflexivity.
  - reflexivity.
  - simpl. walk.
  - simpl. lia.
  - constructor; [discriminate | constructor].
Defined.

(** Delete of a on the segment that holds a. *)
Lemma segment_Delete_counts_witness :
  lock_of (final_state (segment_Delete (Ops := idle) 10 "a" (seg_a, world_a))) = false /\
  pairTotal (fst (final_state (segment_Delete (Ops := idle) 10 "a" (seg_a, world_a))))
  = AddUint64 (pairTotal seg_a) MaxUint64.
Proof.
  apply (segment_Delete_counts (Ops := idle) 10 "a" (seg_a, world_a)
           (final_state (segment_Delete (Ops := idle) 10 "a" (seg_a, world_a))) true).
  reflexivity.
Defined.

(** Get of a on the map that holds a. *)
Lemma cmap_Get_refines_witness :
  cmap_Get 10 "a" map_a = Done (view (pairs world_a) [0%nat] !! "a") map_a.
Proof.
  apply (cmap_Get_refines 10 "a" (fst map_a) world_a 0%nat seg_a 0%nat
           {| firstValue := First 0; bsize := 1 |} [0%nat]).
  - reflexivity.
  - reflexivity.
  - reflexivity.
  - reflexivity.
  - reflexivity.
  - simpl. walk.
  - all_held.
  - simpl. lia.
Defined.

(** Delete of a on the map that holds a: the total goes from 1 to 0. *)
Lemma cmap_Delete_counts_witness :
  total (fst (final_state (cmap_Delete (Ops := idle) 10 "a" map_a)))
  = AddUint64 (total (fst map_a)) MaxUint64 /\
  concurrency (fst (final_state (cmap_Delete (Ops := idle) 10 "a" map_a)))
  = concurrency (fst map_a) /\
  length (segments (fst (final_state (cmap_Delete (Ops := idle) 10 "a" map_a))))
  = length (segments (fst map_a)).
Proof.
  apply (cmap_Delete_counts (Ops := idle) 10 "a" map_a
           (final_state (cmap_Delete (Ops := idle) 10 "a" map_a)) true).
  reflexivity.
Defined.

Lemma findSegment_index_bits_witness :
  findSegment_index 5 (3 * 2 ^ 48 + 5) = findSegment_index 5 (3 * 2 ^ 48 + 99) /\
  findSegment_index 5 (7 * 65536 + 1) = findSegment_index 5 (7 * 65536 + 2) /\
  findSegment_index 5 4711 = 0.
Proof.
  destruct (findSegment_index_bits 5 (3 * 2 ^ 48 + 5) (3 * 2 ^ 48 + 99)) as (Hhigh & _ & _).
  destruct (findSegment_index_bits 5 (7 * 65536 + 1) (7 * 65536 + 2)) as (_ & Hlow & _).
  destruct (findSegment_index_bits 5 4711 0) as (_ & _ & Hsmall).
  split; [|split].
  - apply Hhigh; [unfold MaxUint32; lia | unfold MaxUint32; lia | reflexivity].
  - apply Hlow; [unfold MaxUint32; lia | unfold MaxUint32; lia | reflexivity].
  - apply Hsmall. left. lia.
Defined.

(** Six calls on a fresh map of three segments. *)
Lemma used_map_yields_nothing_witness :
  (total (fst (fresh_map 3)) = 0 /\
   Forall (fun s => lock s = false /\ empty_segment s) (segments (fst (fresh_map 3))) /\
   inert 0 (fresh_map 3)) /\
  inert 0 (run (Ops := idle) 10 calls (fresh_map 3)) /\
  returned (cmap_Len (run (Ops := idle) 10 calls (fresh_map 3))) = Some 0 /\
  (forall k, returned (cmap_Get 10 k (run (Ops := idle) 10 calls (fresh_map 3))) = None \/
             returned (cmap_Get 10 k (run (Ops := idle) 10 calls (fresh_map 3)))
             = Some None) /\
  (forall k,
      returned (cmap_Delete (Ops := idle) 10 k (run (Ops := idle) 10 calls (fresh_map 3)))
      = None \/
      returned (cmap_Delete (Ops := idle) 10 k (run (Ops := idle) 10 calls (fresh_map 3)))
      = Some false).
Proof.
  destruct (used_map_yields_nothing (Ops := idle) 10) as [Hnew Hrun].
  assert (Hfresh : total (fst (fresh_map 3)) = 0 /\
                   Forall (fun s => lock s = false /\ empty_segment s)
                     (segments (fst (fresh_map 3))) /\
                   inert 0 (fresh_map 3)).
  { apply (Hnew 3 None w0 (fst (fresh_map 3)) (snd (fresh_map 3))). reflexivity. }
  split; [exact Hfresh|].
  exact (Hrun 0 calls (fresh_map 3) (proj2 (proj2 Hfresh))).
Defined.

End MoreInstances.
